(** * gptj.cpp: tokenizer, sampler, model loader and generation driver

    A shallow embedding of [src/gptj.cpp], the properties of its
    specification that were checked against it, and further properties of
    the code: what the tokenizer does with a text, the range of the sampler's
    result, the files the loader takes and refuses, and the course of a run
    of the driver.

    Conventions.
    - [int]/[int32_t] values are [Z]; sizes ([size_t]) are [Z] as well, and a
      signed value that the source converts to [size_t] goes through
      [to_size_t], which writes out the wrap-around modulo [2^64].
    - [std::string] is [string]; file contents are [list byte].
    - [double] is the kernel's binary64 [float]; a [float] logit is the
      binary64 value it promotes to.
    - [std::map] is [gmap].
    - Loops whose trip count is not a structural argument carry a [fuel]
      argument; that the fuel handed over is enough is proved for each
      ([word_loop_total], [split_words_fuel], [gptj_model_load_total]),
      except for the loop of gptj_generate, whose bound can wrap around
      ([generate_loop_returns] gives the fuel where it does not). *)

From Stdlib Require Import ZArith List Ascii String Lia Bool.
From Stdlib.Strings Require Import Byte.
From Stdlib Require Import Floats DecimalString.
From stdpp Require Import base option list gmap strings.

Local Open Scope Z_scope.

(** ** Part I: the program *)

(** *** Utils: parameters and vocabulary *)

Record gptj_params := {
  seed : Z;        (* RNG seed *)
  n_threads : Z;
  n_predict : Z;   (* new tokens to predict *)
  top_k : Z;
  top_p : float;
  temp : float;
  n_batch : Z      (* batch size for prompt processing *)
}.

Record gpt_vocab := {
  token_to_id : gmap string Z;
  id_to_token : gmap Z string
}.

(** *** gpt_tokenize, first half: splitting the text into words

    The words are the successive matches of the ECMAScript pattern
    ['s|'t|'re|'ve|'m|'ll|'d| ?[[:alpha:]]+| ?[[:digit:]]+|
     ?[^\s[:alpha:][:digit:]]+|\s+(?!\S)|\s+]
    under [std::regex_search]: leftmost start, alternatives in order,
    greedy quantifiers that give characters back on failure.  The classes are
    those of the "C" locale. *)

Definition is_alpha (c : ascii) : bool :=
  let n := nat_of_ascii c in
  (((65 <=? n) && (n <=? 90)) || ((97 <=? n) && (n <=? 122)))%nat.

Definition is_digit (c : ascii) : bool :=
  let n := nat_of_ascii c in ((48 <=? n) && (n <=? 57))%nat.

Definition is_space (c : ascii) : bool :=
  let n := nat_of_ascii c in ((n =? 32) || ((9 <=? n) && (n <=? 13)))%nat.

(* [^\s[:alpha:][:digit:]] *)
Definition is_other (c : ascii) : bool :=
  negb (is_space c || is_alpha c || is_digit c).

(* Length of the longest prefix of [s] whose characters satisfy [p]. *)
Fixpoint span (p : ascii -> bool) (s : string) : nat :=
  match s with
  | String c s' => if p c then S (span p s') else O
  | EmptyString => O
  end.

(* [X+] at the start of [s]. *)
Definition run (p : ascii -> bool) (s : string) : option nat :=
  match span p s with
  | O => None
  | S k => Some (S k)
  end.

(* [ ?X+]: the optional space is taken first and given back if [X+] then
   fails. *)
Definition opt_space_run (p : ascii -> bool) (s : string) : option nat :=
  match s with
  | String " "%char s' =>
      match run p s' with
      | Some k => Some (S k)
      | None => run p s
      end
  | _ => run p s
  end.

(* The seven literal alternatives, in the order of the pattern. *)
Definition contraction (s : string) : option nat :=
  if String.prefix "'s" s then Some 2%nat
  else if String.prefix "'t" s then Some 2%nat
  else if String.prefix "'re" s then Some 3%nat
  else if String.prefix "'ve" s then Some 3%nat
  else if String.prefix "'m" s then Some 2%nat
  else if String.prefix "'ll" s then Some 3%nat
  else if String.prefix "'d" s then Some 2%nat
  else None.

(* [\s+(?!\S)]: [len] is the number of whitespace characters currently taken
   by [\s+] (longest first); the lookahead rejects a following non-space
   character, in which case one character is given back. *)
Fixpoint space_run_not_before_nonspace (s : string) (len : nat) : option nat :=
  match len with
  | O => None
  | S k =>
      match String.get len s with
      | None => Some len
      | Some c =>
          if is_space c then Some len
          else space_run_not_before_nonspace s k
      end
  end.

Definition first_some {A} (x y : option A) : option A :=
  match x with Some _ => x | None => y end.

(* Length of the match of the whole pattern at the start of [s]. *)
Definition regex_match_at (s : string) : option nat :=
  first_some (contraction s)
 (first_some (opt_space_run is_alpha s)
 (first_some (opt_space_run is_digit s)
 (first_some (opt_space_run is_other s)
 (first_some (space_run_not_before_nonspace s (span is_space s))
             (run is_space s))))).

(* [std::regex_search]: the leftmost position with a match, as
   (length of [m.prefix()], length of [m[0]]). *)
Fixpoint regex_search (s : string) : option (nat * nat) :=
  match regex_match_at s with
  | Some n => Some (O, n)
  | None =>
      match s with
      | EmptyString => None
      | String _ s' =>
          match regex_search s' with
          | Some (p, n) => Some (S p, n)
          | None => None
          end
      end
  end.

(* while (std::regex_search(str, m, re)) { for (auto x : m) words.push_back(x);
   str = m.suffix(); }   -- the pattern has no capture group, so [m] holds the
   whole match only. *)
Fixpoint split_words (fuel : nat) (str : string) : list string :=
  match fuel with
  | O => []
  | S fuel' =>
      match regex_search str with
      | Some (p, n) =>
          substring p n str
            :: split_words fuel' (substring (p + n) (String.length str - (p + n)) str)
      | None => []
      end
  end.

(** *** gpt_tokenize, second half: longest vocabulary entries per word *)

(* while (j > i) { find(word.substr(i, j - i)) ...; --j; }  with [j = i + k].
   On success the result is the id and the [j] at which it was found. *)
Fixpoint longest_match (vocab : gpt_vocab) (word : string) (i k : nat)
  : option (Z * nat) :=
  match k with
  | O => None
  | S k' =>
      match token_to_id vocab !! substring i (S k') word with
      | Some id => Some (id, (i + S k')%nat)
      | None => longest_match vocab word i k'
      end
  end.

(* The loop [while (i < n)] over one word.  [tokens] is the output vector and
   [log] the texts reported on stderr as unknown tokens.  [None] means the
   fuel ran out. *)
Fixpoint word_loop (fuel : nat) (vocab : gpt_vocab) (word : string)
    (i : nat) (tokens : list Z) (log : list string)
  : option (list Z * list string) :=
  let n := String.length word in
  if negb (i <? n)%nat then Some (tokens, log)
  else
    match fuel with
    | O => None
    | S fuel' =>
        (* int j = n; while (j > i) { ... } *)
        let '(tokens1, i1, j1) :=
          match longest_match vocab word i (n - i) with
          | Some (id, j) => (tokens ++ [id], j, j)   (* i = j; break; *)
          | None => (tokens, i, i)                   (* left with j == i *)
          end in
        if (i1 =? n)%nat then Some (tokens1, log)
        else if (j1 =? i1)%nat then
          let sub := substring i1 1 word in
          match token_to_id vocab !! sub with
          | Some id => word_loop fuel' vocab word (S i1) (tokens1 ++ [id]) log
          | None => word_loop fuel' vocab word (S i1) tokens1 (log ++ [sub])
          end
        else word_loop fuel' vocab word i1 tokens1 log
    end.

(* for (const auto &word : words) { if (word.size() == 0) continue; ... } *)
Fixpoint words_loop (vocab : gpt_vocab) (words : list string)
    (tokens : list Z) (log : list string) : option (list Z * list string) :=
  match words with
  | [] => Some (tokens, log)
  | word :: rest =>
      if (String.length word =? 0)%nat then words_loop vocab rest tokens log
      else
        match word_loop (String.length word) vocab word O tokens log with
        | Some (tokens', log') => words_loop vocab rest tokens' log'
        | None => None
        end
  end.

(* The tokens together with the diagnostics written to stderr. *)
Definition gpt_tokenize_log (vocab : gpt_vocab) (text : string)
  : option (list Z * list string) :=
  words_loop vocab (split_words (String.length text) text) [] [].

Definition gpt_tokenize (vocab : gpt_vocab) (text : string) : list Z :=
  match gpt_tokenize_log vocab text with
  | Some (tokens, _) => tokens
  | None => []
  end.

(** *** std::partial_sort

    The library routine the sampler calls, after libstdc++'s
    [bits/stl_heap.h] and [bits/stl_algo.h]: [__heap_select] followed by
    [__sort_heap].  The vector is a list, iterators are indices from
    [begin()], and [d] stands for an element read outside the vector. *)

Section PartialSort.
Context {A : Type} (comp : A -> A -> bool) (d : A).

(* __push_heap(first, holeIndex, topIndex, value, comp) *)
Fixpoint push_heap (fuel : nat) (a : list A) (holeIndex topIndex : nat)
    (value : A) : list A :=
  let parent := ((holeIndex - 1) / 2)%nat in
  match fuel with
  | O => <[holeIndex := value]> a
  | S fuel' =>
      if (topIndex <? holeIndex)%nat && comp (nth parent a d) value
      then push_heap fuel' (<[holeIndex := nth parent a d]> a)
                     parent topIndex value
      else <[holeIndex := value]> a
  end.

(* The [while (secondChild < (len - 1) / 2)] loop of __adjust_heap; returns
   the vector, holeIndex and secondChild. *)
Fixpoint adjust_heap_loop (fuel : nat) (a : list A)
    (holeIndex secondChild len : nat) : list A * nat * nat :=
  match fuel with
  | O => (a, holeIndex, secondChild)
  | S fuel' =>
      if (secondChild <? (len - 1) / 2)%nat then
        let secondChild1 := (2 * (secondChild + 1))%nat in
        let secondChild2 :=
          if comp (nth secondChild1 a d) (nth (secondChild1 - 1) a d)
          then (secondChild1 - 1)%nat else secondChild1 in
        adjust_heap_loop fuel' (<[holeIndex := nth secondChild2 a d]> a)
                         secondChild2 secondChild2 len
      else (a, holeIndex, secondChild)
  end.

(* __adjust_heap(first, holeIndex, len, value, comp) *)
Definition adjust_heap (a : list A) (holeIndex len : nat) (value : A)
  : list A :=
  let topIndex := holeIndex in
  let '(a1, holeIndex1, secondChild1) :=
    adjust_heap_loop len a holeIndex holeIndex len in
  let '(a2, holeIndex2) :=
    if Nat.even len
       && (Z.of_nat secondChild1 =? Z.quot (Z.of_nat len - 2) 2)%Z then
      let secondChild2 := (2 * (secondChild1 + 1))%nat in
      (<[holeIndex1 := nth (secondChild2 - 1) a1 d]> a1,
       (secondChild2 - 1)%nat)
    else (a1, holeIndex1) in
  push_heap holeIndex2 a2 holeIndex2 topIndex value.

(* The [while (true)] loop of __make_heap, from [parent] down to 0. *)
Fixpoint make_heap_loop (parent : nat) (a : list A) (len : nat) : list A :=
  let a' := adjust_heap a parent len (nth parent a d) in
  match parent with
  | O => a'
  | S parent' => make_heap_loop parent' a' len
  end.

(* __make_heap(first, first + len, comp) *)
Definition make_heap (a : list A) (len : nat) : list A :=
  if (len <? 2)%nat then a else make_heap_loop ((len - 2) / 2) a len.

(* __pop_heap(first, first + len, first + result, comp) *)
Definition pop_heap (a : list A) (len result : nat) : list A :=
  let value := nth result a d in
  adjust_heap (<[result := nth O a d]> a) O len value.

(* __heap_select(first, first + middle, last, comp) *)
Definition heap_select (a : list A) (middle : nat) : list A :=
  fold_left
    (fun a i => if comp (nth i a d) (nth O a d) then pop_heap a middle i
                else a)
    (seq middle (length a - middle))
    (make_heap a middle).

(* __sort_heap(first, first + last, comp) *)
Fixpoint sort_heap (a : list A) (last : nat) : list A :=
  match last with
  | S ((S _) as last') => sort_heap (pop_heap a last' last') last'
  | _ => a
  end.

(* std::partial_sort(begin, begin + middle, end, comp) *)
Definition partial_sort (a : list A) (middle : nat) : list A :=
  sort_heap (heap_select a middle) middle.
End PartialSort.

(** *** gpt_sample_top_k_top_p *)

Local Open Scope float_scope.

(* [](const pair &a, const pair &b) { return a.first > b.first; } *)
Definition logit_gt (a b : float * Z) : bool := fst b <? fst a.

(* std::max(maxl, x) *)
Definition float_max (maxl x : float) : float := if maxl <? x then x else maxl.

(* The loop under [if (top_p < 1.0f)]: the running sum, and the new [top_k]
   if the loop left through [break]. *)
Fixpoint top_p_loop (probs : list float) (i : nat) (cumsum top_p : float)
  : float * option nat :=
  match probs with
  | [] => (cumsum, None)
  | p :: rest =>
      let cumsum' := cumsum + p in
      if top_p <=? cumsum' then (cumsum', Some (S i))
      else top_p_loop rest (S i) cumsum' top_p
  end.

(* std::partial_sum *)
Fixpoint partial_sum (acc : float) (l : list float) : list float :=
  match l with
  | [] => []
  | x :: rest => (acc + x) :: partial_sum (acc + x) rest
  end.

(* std::lower_bound(cp.begin(), cp.end(), p) - cp.begin() on the
   non-decreasing [cp]: the first position whose entry is not below [p]. *)
Fixpoint lower_bound (cp : list float) (p : float) : nat :=
  match cp with
  | [] => O
  | c :: rest => if c <? p then S (lower_bound rest p) else O
  end.

(* std::discrete_distribution<>::param_type::_M_initialize: the cumulative
   probabilities [_M_cp] (empty for fewer than two weights). *)
Definition discrete_distribution (probs : list float) : list float :=
  if (length probs <? 2)%nat then []
  else
    let sum := fold_left PrimFloat.add probs 0 in
    let cp := partial_sum 0 (map (fun p => p / sum) probs) in
    <[(length cp - 1)%nat := 1]> cp.

Section Sampler.
(* exp of <cmath> *)
Variable exp : float -> float.
(* std::mt19937 and one draw of its canonical variate in [0, 1) *)
Variable Rng : Type.
Variable canonical : Rng -> float * Rng.

(* dist(rng) *)
Definition discrete_draw (cp : list float) (rng : Rng) : nat * Rng :=
  match cp with
  | [] => (O, rng)
  | _ => let '(p, rng') := canonical rng in (lower_bound cp p, rng')
  end.

(* [None] where the source has no defined behaviour: [top_k] outside
   [0, n_logits], a read past the end of [logits], or the final index
   outside the candidate vector. *)
Definition gpt_sample_top_k_top_p (vocab : gpt_vocab) (logits : list float)
    (top_k : Z) (top_p temp : float) (rng : Rng) : option (Z * Rng) :=
  let n_logits := size (id_to_token vocab) in
  if negb ((0 <=? top_k)%Z && (top_k <=? Z.of_nat n_logits)%Z
           && (n_logits <=? length logits)%nat)
  then None
  else
    let scale := 1 / temp in
    let logits_id :=
      map (fun i => (nth i logits 0 * scale, Z.of_nat i)) (seq 0 n_logits) in
    (* find the top K tokens *)
    let logits_id :=
      take (Z.to_nat top_k)
           (partial_sort logit_gt (0, 0%Z) logits_id (Z.to_nat top_k)) in
    let maxl := fold_left (fun maxl kv => float_max maxl (fst kv))
                          logits_id neg_infinity in
    (* compute probs for the top K tokens *)
    let probs := map (fun kv => exp (fst kv - maxl)) logits_id in
    let sum := fold_left PrimFloat.add probs 0 in
    (* normalize the probs *)
    let probs := map (fun p => p / sum) probs in
    let '(probs, logits_id) :=
      if top_p <? 1 then
        let '(cumsum, cut) := top_p_loop probs O 0 top_p in
        let '(probs, logits_id) :=
          match cut with
          | Some k => (take k probs, take k logits_id)
          | None => (probs, logits_id)
          end in
        let cumsum := 1 / cumsum in
        (map (fun p => p * cumsum) probs, logits_id)
      else (probs, logits_id) in
    let '(idx, rng') := discrete_draw (discrete_distribution probs) rng in
    match logits_id !! idx with
    | Some kv => Some (snd kv, rng')
    | None => None
    end.
End Sampler.

Local Close Scope float_scope.

(** *** std::ifstream

    [rest] is what has not been read yet.  A read that finds fewer bytes than
    asked stores those it finds, leaves the tail of the destination as it
    was, and sets [eofbit] and [failbit]; a read on a stream that is not good
    stores nothing. *)

Record ifstream := {
  rest : list byte;
  eofbit : bool;
  failbit : bool
}.

Definition good (fin : ifstream) : bool := negb (eofbit fin) && negb (failbit fin).

(* fin.read(dst, n), where [dst] holds [old] before the call *)
Definition fin_read (fin : ifstream) (n : nat) (old : list byte)
  : ifstream * list byte :=
  if good fin then
    if (n <=? length (rest fin))%nat
    then ({| rest := drop n (rest fin); eofbit := false; failbit := false |},
          take n (rest fin))
    else ({| rest := []; eofbit := true; failbit := true |},
          (rest fin ++ drop (length (rest fin)) old)%list)
  else ({| rest := rest fin; eofbit := eofbit fin; failbit := true |}, old).

(* Little-endian integers, as the host lays them out. *)
Definition le_u32 (bs : list byte) : Z :=
  fold_right (fun b acc => Z.of_N (Byte.to_N b) + 256 * acc) 0 bs.

Definition wrap32 (z : Z) : Z := (z + 2^31) mod 2^32 - 2^31.

Definition le_i32 (bs : list byte) : Z := wrap32 (le_u32 bs).

Fixpoint le_bytes (n : nat) (z : Z) : list byte :=
  match n with
  | O => []
  | S n' =>
      match Byte.of_N (Z.to_N (z mod 256)) with
      | Some b => b :: le_bytes n' (z / 256)
      | None => []
      end
  end.

Definition to_size_t (z : Z) : Z := z mod 2^64.

(* The C string a [const char *] denotes: the bytes before the first NUL. *)
Fixpoint c_str (bs : list byte) : string :=
  match bs with
  | [] => EmptyString
  | b :: bs' =>
      if Byte.eqb b "000"%byte then EmptyString
      else String (ascii_of_byte b) (c_str bs')
  end.

(** *** Model file types and the model *)

(* enum ggml_type of ggml.h, by name *)
Inductive ggml_type :=
  | GGML_TYPE_F32 | GGML_TYPE_F16
  | GGML_TYPE_Q4_0 | GGML_TYPE_Q4_1 | GGML_TYPE_Q4_2
  | GGML_TYPE_Q5_0 | GGML_TYPE_Q5_1
  | GGML_TYPE_Q8_0 | GGML_TYPE_Q8_1
  | GGML_TYPE_I8 | GGML_TYPE_I16 | GGML_TYPE_I32
  | GGML_TYPE_COUNT.

(* enum ggml_ftype, by value *)
Definition GGML_FTYPE_UNKNOWN : Z := -1.
Definition GGML_FTYPE_ALL_F32 : Z := 0.
Definition GGML_FTYPE_MOSTLY_F16 : Z := 1.
Definition GGML_FTYPE_MOSTLY_Q4_0 : Z := 2.
Definition GGML_FTYPE_MOSTLY_Q4_1 : Z := 3.
Definition GGML_FTYPE_MOSTLY_Q4_1_SOME_F16 : Z := 4.
Definition GGML_FTYPE_MOSTLY_Q4_2 : Z := 5.
Definition GGML_FTYPE_MOSTLY_Q8_0 : Z := 7.
Definition GGML_FTYPE_MOSTLY_Q5_0 : Z := 8.
Definition GGML_FTYPE_MOSTLY_Q5_1 : Z := 9.

Definition ggml_ftype_to_ggml_type (ftype : Z) : ggml_type :=
  if ftype =? GGML_FTYPE_ALL_F32 then GGML_TYPE_F32
  else if ftype =? GGML_FTYPE_MOSTLY_F16 then GGML_TYPE_F16
  else if ftype =? GGML_FTYPE_MOSTLY_Q4_0 then GGML_TYPE_Q4_0
  else if ftype =? GGML_FTYPE_MOSTLY_Q4_1 then GGML_TYPE_Q4_1
  else if ftype =? GGML_FTYPE_MOSTLY_Q4_2 then GGML_TYPE_Q4_2
  else if ftype =? GGML_FTYPE_MOSTLY_Q5_0 then GGML_TYPE_Q5_0
  else if ftype =? GGML_FTYPE_MOSTLY_Q5_1 then GGML_TYPE_Q5_1
  else if ftype =? GGML_FTYPE_MOSTLY_Q8_0 then GGML_TYPE_Q8_0
  else GGML_TYPE_COUNT.

Definition ggml_type_eqb (a b : ggml_type) : bool :=
  match a, b with
  | GGML_TYPE_F32, GGML_TYPE_F32 | GGML_TYPE_F16, GGML_TYPE_F16
  | GGML_TYPE_Q4_0, GGML_TYPE_Q4_0 | GGML_TYPE_Q4_1, GGML_TYPE_Q4_1
  | GGML_TYPE_Q4_2, GGML_TYPE_Q4_2 | GGML_TYPE_Q5_0, GGML_TYPE_Q5_0
  | GGML_TYPE_Q5_1, GGML_TYPE_Q5_1 | GGML_TYPE_Q8_0, GGML_TYPE_Q8_0
  | GGML_TYPE_Q8_1, GGML_TYPE_Q8_1 | GGML_TYPE_I8, GGML_TYPE_I8
  | GGML_TYPE_I16, GGML_TYPE_I16 | GGML_TYPE_I32, GGML_TYPE_I32
  | GGML_TYPE_COUNT, GGML_TYPE_COUNT => true
  | _, _ => false
  end.

(* default hparams (GPT-J 6B) *)
Record gptj_hparams := {
  n_vocab : Z;
  n_ctx : Z;
  n_embd : Z;
  n_head : Z;
  n_layer : Z;
  n_rot : Z;
  ftype : Z
}.

Definition default_hparams : gptj_hparams :=
  {| n_vocab := 50400; n_ctx := 2048; n_embd := 4096; n_head := 16;
     n_layer := 28; n_rot := 64; ftype := 1 |}.

(* struct ggml_tensor, as far as the loader looks at it: the type, the four
   extents and the bytes of the data buffer. *)
Record ggml_tensor := {
  ttype : ggml_type;
  ne : list Z;
  data : list byte
}.

(* struct gptj_model.  [ctx] is the allocation region ([None]: not created;
   [Some mem_size] once ggml_init succeeded).  The weight tensors live in
   [tensors] under their names; the pointer members ([wte], [ln_f_g],
   [layers[i].ln_1_g], ...) are aliases of these entries. *)
Record gptj_model := {
  hparams : gptj_hparams;
  ctx : option Z;
  tensors : gmap string ggml_tensor;
  memory_k : option ggml_tensor;
  memory_v : option ggml_tensor
}.

Definition empty_model : gptj_model :=
  {| hparams := default_hparams; ctx := None; tensors := ∅;
     memory_k := None; memory_v := None |}.

(* The messages of gptj_model_load, by cause. *)
Inductive load_error :=
  | failed_to_open
  | bad_magic
  | bad_vocab_size
  | bad_ftype
  | ggml_init_failed
  | unknown_tensor (name : string)
  | wrong_size (name : string)        (* element count *)
  | wrong_shape (name : string)
  | wrong_byte_size (name : string).

Inductive load_result :=
  | load_ok                       (* return true *)
  | load_fail (e : load_error)    (* return false *)
  | load_throw                    (* std::length_error: a negative length *)
  | load_undefined.               (* write past the end of ne[2] *)

Definition ggml_nelements (t : ggml_tensor) : Z :=
  fold_right Z.mul 1 (ne t).

Definition to_string (i : nat) : string := NilZero.string_of_uint (Nat.to_uint i).

(** *** gptj_model_load *)

Section Loader.
(* From ggml.h / ggml.c, which are not part of this repository: the cast of
   a type tag read from the file, and the two tables. *)
Variable ggml_type_of_tag : Z -> ggml_type.
Variable ggml_type_size : ggml_type -> Z.
Variable ggml_blck_size : ggml_type -> Z.
(* The estimate [ctx_size] (single-precision arithmetic over
   ggml_type_sizef) and whether ggml_init delivers a region of that size. *)
Variable ctx_size_of : gptj_hparams -> ggml_type -> Z.
Variable ggml_init_ok : Z -> bool.
(* The content of an uninitialised 32-bit local. *)
Variable indeterminate : list byte.

(* ggml_nbytes of ggml.c:
   (ggml_nelements(t) * GGML_TYPE_SIZE[t->type]) / GGML_BLCK_SIZE[t->type] *)
Definition ggml_nbytes (t : ggml_tensor) : Z :=
  (ggml_nelements t * ggml_type_size (ttype t)) / ggml_blck_size (ttype t).

(* ggml_new_tensor_1d / _2d; the fresh buffer is shown as zero bytes. *)
Definition ggml_new_tensor (ty : ggml_type) (dims : list Z) : ggml_tensor :=
  let t := {| ttype := ty; ne := dims; data := [] |} in
  {| ttype := ty; ne := dims;
     data := replicate (Z.to_nat (ggml_nbytes t)) "000"%byte |}.

Definition ggml_new_tensor_1d (ty : ggml_type) (n0 : Z) : ggml_tensor :=
  ggml_new_tensor ty [n0; 1; 1; 1].

Definition ggml_new_tensor_2d (ty : ggml_type) (n0 n1 : Z) : ggml_tensor :=
  ggml_new_tensor ty [n0; n1; 1; 1].

Definition read_i32 (fin : ifstream) (old : list byte) : ifstream * Z :=
  let '(fin', bs) := fin_read fin 4 old in (fin', le_i32 bs).

Definition read_u32 (fin : ifstream) (old : list byte) : ifstream * Z :=
  let '(fin', bs) := fin_read fin 4 old in (fin', le_u32 bs).

(* load hparams *)
Definition load_hparams (fin : ifstream) (h : gptj_hparams)
  : ifstream * gptj_hparams :=
  let '(fin, v) := read_i32 fin (le_bytes 4 (n_vocab h)) in
  let '(fin, c) := read_i32 fin (le_bytes 4 (n_ctx h)) in
  let '(fin, e) := read_i32 fin (le_bytes 4 (n_embd h)) in
  let '(fin, hd) := read_i32 fin (le_bytes 4 (n_head h)) in
  let '(fin, l) := read_i32 fin (le_bytes 4 (n_layer h)) in
  let '(fin, r) := read_i32 fin (le_bytes 4 (n_rot h)) in
  let '(fin, f) := read_i32 fin (le_bytes 4 (ftype h)) in
  (fin, {| n_vocab := v; n_ctx := c; n_embd := e; n_head := hd;
           n_layer := l; n_rot := r; ftype := f |}).

(* word.resize(len) *)
Definition resize (len : nat) (word : list byte) : list byte :=
  (take len word ++ replicate (len - length word) "000"%byte)%list.

(* for (int i = 0; i < n_vocab; i++) { ... }, with [i = i0] and [count]
   iterations to go *)
Fixpoint load_vocab_loop (count : nat) (i : Z) (fin : ifstream)
    (word : list byte) (vocab : gpt_vocab) : ifstream * gpt_vocab :=
  match count with
  | O => (fin, vocab)
  | S count' =>
      let '(fin, len) := read_u32 fin indeterminate in
      let word := resize (Z.to_nat len) word in
      let '(fin, word) := fin_read fin (Z.to_nat len) word in
      let w := string_of_list_byte word in
      load_vocab_loop count' (i + 1) fin word
        {| token_to_id := <[w := i]> (token_to_id vocab);
           id_to_token := <[i := w]> (id_to_token vocab) |}
  end.

(* for (int i = 0; i < n_layer; ++i) { ... model.tensors[...] = ...; } *)
Definition layer_tensors (wtype : ggml_type) (n_embd : Z) (i : nat)
    (reg : gmap string ggml_tensor) : gmap string ggml_tensor :=
  let name (suffix : string) : string :=
    String.append "transformer.h." (String.append (to_string i) suffix) in
  let reg := <[name ".ln_1.weight" := ggml_new_tensor_1d GGML_TYPE_F32 n_embd]> reg in
  let reg := <[name ".ln_1.bias" := ggml_new_tensor_1d GGML_TYPE_F32 n_embd]> reg in
  let reg := <[name ".attn.q_proj.weight" := ggml_new_tensor_2d wtype n_embd n_embd]> reg in
  let reg := <[name ".attn.k_proj.weight" := ggml_new_tensor_2d wtype n_embd n_embd]> reg in
  let reg := <[name ".attn.v_proj.weight" := ggml_new_tensor_2d wtype n_embd n_embd]> reg in
  let reg := <[name ".attn.out_proj.weight" := ggml_new_tensor_2d wtype n_embd n_embd]> reg in
  let reg := <[name ".mlp.fc_in.weight" := ggml_new_tensor_2d wtype n_embd (4 * n_embd)]> reg in
  let reg := <[name ".mlp.fc_in.bias" := ggml_new_tensor_1d GGML_TYPE_F32 (4 * n_embd)]> reg in
  let reg := <[name ".mlp.fc_out.weight" := ggml_new_tensor_2d wtype (4 * n_embd) n_embd]> reg in
  <[name ".mlp.fc_out.bias" := ggml_new_tensor_1d GGML_TYPE_F32 n_embd]> reg.

(* prepare memory for the weights *)
Definition prepare_tensors (h : gptj_hparams) (wtype : ggml_type)
    (reg : gmap string ggml_tensor) : gmap string ggml_tensor :=
  let reg := <["transformer.wte.weight"%string := ggml_new_tensor_2d wtype (n_embd h) (n_vocab h)]> reg in
  let reg := <["transformer.ln_f.weight"%string := ggml_new_tensor_1d GGML_TYPE_F32 (n_embd h)]> reg in
  let reg := <["transformer.ln_f.bias"%string := ggml_new_tensor_1d GGML_TYPE_F32 (n_embd h)]> reg in
  let reg := <["lm_head.weight"%string := ggml_new_tensor_2d wtype (n_embd h) (n_vocab h)]> reg in
  let reg := <["lm_head.bias"%string := ggml_new_tensor_1d GGML_TYPE_F32 (n_vocab h)]> reg in
  fold_left (fun reg i => layer_tensors wtype (n_embd h) i reg)
            (seq 0 (Z.to_nat (n_layer h))) reg.

(* for (int i = 0; i < n_dims; ++i) { read ne[i]; nelements *= ne[i]; }
   with [n_dims <= 2]; [ne] starts as {1, 1}. *)
Fixpoint read_dims (n_dims : nat) (i : nat) (fin : ifstream)
    (nelements : Z) (ne : list Z) : ifstream * Z * list Z :=
  match n_dims with
  | O => (fin, nelements, ne)
  | S n' =>
      let '(fin, x) := read_i32 fin (le_bytes 4 (nth i ne 0)) in
      read_dims n' (S i) fin (wrap32 (nelements * x)) (<[i := x]> ne)
  end.

(* load weights: the [while (true)] loop.  [None]: out of fuel. *)
Fixpoint load_weights (fuel : nat) (fin : ifstream)
    (reg : gmap string ggml_tensor)
  : option (load_result * gmap string ggml_tensor) :=
  match fuel with
  | O => None
  | S fuel' =>
      let '(fin, n_dims) := read_i32 fin indeterminate in
      let '(fin, name_length) := read_i32 fin indeterminate in
      let '(fin, ttype_tag) := read_i32 fin indeterminate in
      if eofbit fin then Some (load_ok, reg)
      else if 2 <? n_dims then Some (load_undefined, reg)
      else
        let '(fin, nelements, ne_file) :=
          read_dims (Z.to_nat n_dims) O fin 1 [1; 1] in
        if name_length <? 0 then Some (load_throw, reg)
        else
          let '(fin, name_bytes) :=
            fin_read fin (Z.to_nat name_length)
                     (replicate (Z.to_nat name_length) "000"%byte) in
          let name := c_str name_bytes in
          match reg !! name with
          | None => Some (load_fail (unknown_tensor name), reg)
          | Some tensor =>
              if negb (ggml_nelements tensor =? nelements)
              then Some (load_fail (wrong_size name), reg)
              else if negb (nth 0 (ne tensor) 0 =? nth 0 ne_file 0)
                      || negb (nth 1 (ne tensor) 0 =? nth 1 ne_file 0)
              then Some (load_fail (wrong_shape name), reg)
              else
                let bpe := ggml_type_size (ggml_type_of_tag ttype_tag) in
                if negb (to_size_t (to_size_t nelements * bpe)
                           / to_size_t (ggml_blck_size (ttype tensor))
                         =? ggml_nbytes tensor)
                then Some (load_fail (wrong_byte_size name), reg)
                else
                  let '(fin, bytes) :=
                    fin_read fin (Z.to_nat (ggml_nbytes tensor)) (data tensor) in
                  load_weights fuel' fin
                    (<[name := {| ttype := ttype tensor; ne := ne tensor;
                                  data := bytes |}]> reg)
          end
  end.

Definition magic_number : Z := 0x67676d6c.

(* [file] is [None] when the file cannot be opened.  The result comes with
   the model and the vocabulary as the call leaves them. *)
Definition gptj_model_load (file : option (list byte)) (model : gptj_model)
    (vocab : gpt_vocab) : option (load_result * gptj_model * gpt_vocab) :=
  match file with
  | None => Some (load_fail failed_to_open, model, vocab)
  | Some bytes =>
      let fin := {| rest := bytes; eofbit := false; failbit := false |} in
      (* verify magic *)
      let '(fin, magic) := read_u32 fin indeterminate in
      if negb (magic =? magic_number)
      then Some (load_fail bad_magic, model, vocab)
      else
        (* load hparams *)
        let '(fin, h) := load_hparams fin (hparams model) in
        let model := {| hparams := h; ctx := ctx model; tensors := tensors model;
                        memory_k := memory_k model; memory_v := memory_v model |} in
        (* load vocab *)
        let '(fin, n_vocab_file) := read_i32 fin (le_bytes 4 0) in
        if negb (n_vocab_file =? n_vocab h)
        then Some (load_fail bad_vocab_size, model, vocab)
        else
          let '(fin, vocab) :=
            load_vocab_loop (Z.to_nat n_vocab_file) 0 fin [] vocab in
          let wtype := ggml_ftype_to_ggml_type (ftype h) in
          if ggml_type_eqb wtype GGML_TYPE_COUNT
          then Some (load_fail bad_ftype, model, vocab)
          else
            let ctx_size := ctx_size_of h wtype in
            (* create the ggml context *)
            if negb (ggml_init_ok ctx_size)
            then Some (load_fail ggml_init_failed,
                       {| hparams := h; ctx := None; tensors := tensors model;
                          memory_k := memory_k model; memory_v := memory_v model |},
                       vocab)
            else if n_layer h <? 0   (* model.layers.resize(n_layer) *)
            then Some (load_throw,
                       {| hparams := h; ctx := Some ctx_size; tensors := tensors model;
                          memory_k := memory_k model; memory_v := memory_v model |},
                       vocab)
            else
              (* prepare memory for the weights *)
              let reg := prepare_tensors h wtype (tensors model) in
              (* key + value memory *)
              let n_mem := wrap32 (n_layer h * n_ctx h) in
              let n_elements := wrap32 (n_embd h * n_mem) in
              let kv := ggml_new_tensor_1d GGML_TYPE_F16 n_elements in
              (* load weights *)
              match load_weights (S (length (rest fin))) fin reg with
              | Some (r, reg) =>
                  Some (r,
                        {| hparams := h; ctx := Some ctx_size; tensors := reg;
                           memory_k := Some kv; memory_v := Some kv |},
                        vocab)
              | None => None
              end
  end.
End Loader.

(** *** gptj_eval and gptj_generate *)

(* What a run does that can be seen from outside, in order. *)
Inductive event :=
  | ev_eval (n_past : Z) (embd : list Z) (ok : bool)   (* a call of gptj_eval *)
  | ev_sample (n_past : Z) (id : Z)                    (* a call of the sampler *)
  | ev_callback (token : string) (continue : bool).    (* a call of on_token *)

Inductive gen_result :=
  | gen_return (b : bool)
  | gen_undefined          (* the sampler left defined behaviour *)
  | gen_out_of_fuel.

(* for (int k = i; k < embd_inp.size(); k++) {
     embd.push_back(embd_inp[k]);
     if (embd.size() > params.n_batch) break; }
   over [pending], the prompt from position [i] on *)
Fixpoint fill_batch (pending : list Z) (embd : list Z) (n_batch : Z) : list Z :=
  match pending with
  | [] => embd
  | x :: pending' =>
      let embd' := (embd ++ [x])%list in
      if to_size_t n_batch <? Z.of_nat (length embd') then embd'
      else fill_batch pending' embd' n_batch
  end.

(* vocab.id_to_token[id]: operator[] of a non-const map inserts the empty
   string under a missing key *)
Definition id_to_token_at (vocab : gpt_vocab) (id : Z) : string * gpt_vocab :=
  match id_to_token vocab !! id with
  | Some t => (t, vocab)
  | None => (EmptyString,
             {| token_to_id := token_to_id vocab;
                id_to_token := <[id := EmptyString]> (id_to_token vocab) |})
  end.

Definition end_of_text : Z := 50256.

Section Driver.
(* exp, std::mt19937 *)
Variable exp : float -> float.
Variable Rng : Type.
Variable canonical : Rng -> float * Rng.
Variable seed_rng : Z -> Rng.
(* time(NULL) and std::thread::hardware_concurrency() *)
Variable time_now : Z.
Variable hardware_concurrency : Z.
(* The tensor engine.  [KV] is the content of memory_k and memory_v;
   [forward model kv n_threads n_past embd_inp] is the graph of gptj_eval,
   giving the new content and the rows of [inpL] (n_vocab logits for each
   of the N positions).  [ggml_used_mem N] is the memory the graph took. *)
Variable KV : Type.
Variable forward : gptj_model -> KV -> Z -> Z -> list Z -> KV * list float.
Variable ggml_used_mem : Z -> Z.
(* (size_t)(1.1 * x), and whether realloc delivers that many bytes *)
Variable grow_size : Z -> Z.
Variable realloc_ok : Z -> bool.
(* on_token, with whatever state it keeps *)
Variable CB : Type.
Variable callback : CB -> string -> bool * CB.

(* The static scratch buffer of gptj_eval and the key/value memory. *)
Record eval_env := {
  buf_size : Z;
  kv : KV
}.

Definition initial_buf_size : Z := 256 * 1024 * 1024.

(* Returns the result, the environment, embd_w and mem_per_token. *)
Definition gptj_eval (model : gptj_model) (env : eval_env)
    (n_threads n_past : Z) (embd_inp : list Z) (embd_w : list float)
    (mem_per_token : Z) : bool * eval_env * list float * Z :=
  let N := Z.of_nat (length embd_inp) in
  let grow := (0 <? mem_per_token) && (buf_size env <? to_size_t (mem_per_token * N)) in
  let buf_size' :=
    if grow then grow_size (to_size_t (mem_per_token * N)) else buf_size env in
  if grow && negb (realloc_ok buf_size')
  then (false, {| buf_size := buf_size'; kv := kv env |}, embd_w, mem_per_token)
  else
    let '(kv', inpL) := forward model (kv env) n_threads n_past embd_inp in
    let n_vocab := n_vocab (hparams model) in
    (* return result for just the last token *)
    let embd_w' :=
      take (Z.to_nat n_vocab) (drop (Z.to_nat (n_vocab * (N - 1))) inpL) in
    let mem_per_token' :=
      if mem_per_token =? 0 then ggml_used_mem N / N else mem_per_token in
    (true, {| buf_size := buf_size'; kv := kv' |}, embd_w', mem_per_token').

(* The variables of gptj_generate that the loop changes. *)
Record gen_state := {
  g_i : Z;
  g_n_past : Z;
  g_embd : list Z;
  g_logits : list float;
  g_mem_per_token : Z;
  g_processing_input : bool;
  g_rng : Rng;
  g_env : eval_env;
  g_vocab : gpt_vocab;
  g_cb : CB;
  g_trace : list event
}.

(* for (auto id : embd) {
     if (id == 50256 || !callback(vocab.id_to_token[id].c_str())) return true; }
   [true]: the function returns. *)
Fixpoint callback_loop (ids : list Z) (vocab : gpt_vocab) (cb : CB)
    (trace : list event) : bool * gpt_vocab * CB * list event :=
  match ids with
  | [] => (false, vocab, cb, trace)
  | id :: ids' =>
      if id =? end_of_text then (true, vocab, cb, trace)
      else
        let '(token, vocab) := id_to_token_at vocab id in
        let '(continue, cb) := callback cb token in
        let trace := (trace ++ [ev_callback token continue])%list in
        if negb continue then (true, vocab, cb, trace)
        else callback_loop ids' vocab cb trace
  end.

(* One pass through the body of the [for] loop.  [inl]: the function leaves
   the loop with that result ([break] is followed by [return true]);
   [inr]: the state on which [i++] is still to be done. *)
Definition generate_body (model : gptj_model) (params : gptj_params)
    (embd_inp : list Z) (st : gen_state)
  : (gen_result * gen_state) + gen_state :=
  (* predict *)
  let '(ok, env, logits, mem_per_token, trace) :=
    if (0 <? Z.of_nat (length (g_embd st))) then
      let '(ok, env, logits, mem) :=
        gptj_eval model (g_env st) (n_threads params) (g_n_past st)
                  (g_embd st) (g_logits st) (g_mem_per_token st) in
      (ok, env, logits, mem,
       (g_trace st ++ [ev_eval (g_n_past st) (g_embd st) ok])%list)
    else (true, g_env st, g_logits st, g_mem_per_token st, g_trace st) in
  if negb ok then
    inl (gen_return false,
         {| g_i := g_i st; g_n_past := g_n_past st; g_embd := g_embd st;
            g_logits := logits; g_mem_per_token := mem_per_token;
            g_processing_input := g_processing_input st; g_rng := g_rng st;
            g_env := env; g_vocab := g_vocab st; g_cb := g_cb st;
            g_trace := trace |})
  else
    let n_past := g_n_past st + Z.of_nat (length (g_embd st)) in
    if (Z.of_nat (length embd_inp) <=? g_i st) then
      (* sample next token *)
      let n_vocab := n_vocab (hparams model) in
      match gpt_sample_top_k_top_p exp Rng canonical (g_vocab st)
              (drop (Z.to_nat (Z.of_nat (length logits) - n_vocab)) logits)
              (top_k params) (top_p params) (temp params) (g_rng st) with
      | None =>
          inl (gen_undefined,
               {| g_i := g_i st; g_n_past := n_past; g_embd := [];
                  g_logits := logits; g_mem_per_token := mem_per_token;
                  g_processing_input := false; g_rng := g_rng st;
                  g_env := env; g_vocab := g_vocab st; g_cb := g_cb st;
                  g_trace := trace |})
      | Some (id, rng) =>
          (* add it to the context *)
          let embd := [id] in
          let trace := (trace ++ [ev_sample n_past id])%list in
          let '(stop, vocab, cb, trace) :=
            callback_loop embd (g_vocab st) (g_cb st) trace in
          let st' :=
            {| g_i := g_i st; g_n_past := n_past; g_embd := embd;
               g_logits := logits; g_mem_per_token := mem_per_token;
               g_processing_input := false; g_rng := rng;
               g_env := env; g_vocab := vocab; g_cb := cb;
               g_trace := trace |} in
          if stop then inl (gen_return true, st')
          else if bool_decide (last embd = Some end_of_text)
          then inl (gen_return true, st')
          else inr st'
      end
    else
      (* if here, it means we are still processing the input prompt *)
      let embd := fill_batch (drop (Z.to_nat (g_i st)) embd_inp) []
                             (n_batch params) in
      let i := g_i st + Z.of_nat (length embd) - 1 in
      let '(stop, vocab, cb, trace) :=
        if negb (g_processing_input st)
        then callback_loop embd (g_vocab st) (g_cb st) trace
        else (false, g_vocab st, g_cb st, trace) in
      let st' :=
        {| g_i := i; g_n_past := n_past; g_embd := embd;
           g_logits := logits; g_mem_per_token := mem_per_token;
           g_processing_input := g_processing_input st; g_rng := g_rng st;
           g_env := env; g_vocab := vocab; g_cb := cb;
           g_trace := trace |} in
      if stop then inl (gen_return true, st')
      else if bool_decide (last embd = Some end_of_text)
      then inl (gen_return true, st')
      else inr st'.

Definition incr_i (st : gen_state) : gen_state :=
  {| g_i := g_i st + 1; g_n_past := g_n_past st; g_embd := g_embd st;
     g_logits := g_logits st; g_mem_per_token := g_mem_per_token st;
     g_processing_input := g_processing_input st; g_rng := g_rng st;
     g_env := g_env st; g_vocab := g_vocab st; g_cb := g_cb st;
     g_trace := g_trace st |}.

(* for (int i = embd.size(); i < embd_inp.size() + params.n_predict; i++)
   The comparison is made in size_t: the int [i] and the int32_t n_predict
   are converted, so a negative sum wraps around.  [i] itself is not wrapped
   here; a run that would take it past 2^31 - 1 is outside the model. *)
Fixpoint generate_loop (fuel : nat) (model : gptj_model)
    (params : gptj_params) (embd_inp : list Z) (st : gen_state)
  : gen_result * gen_state :=
  if negb (to_size_t (g_i st)
           <? to_size_t (Z.of_nat (length embd_inp) + n_predict params))
  then (gen_return true, st)
  else
    match fuel with
    | O => (gen_out_of_fuel, st)
    | S fuel' =>
        match generate_body model params embd_inp st with
        | inl r => r
        | inr st' => generate_loop fuel' model params embd_inp (incr_i st')
        end
    end.

(* The state in which the loop is entered, after the call that measures the
   memory per token. *)
Definition generate_init (vocab : gpt_vocab) (model : gptj_model)
    (env : eval_env) (cb : CB) (params : gptj_params) : gen_state :=
  let mem_per_token := 0 in
  let '(ok, env, logits, mem_per_token) :=
    gptj_eval model env (n_threads params) 0 [0; 1; 2; 3] [] mem_per_token in
  {| g_i := 0; g_n_past := 0; g_embd := []; g_logits := logits;
     g_mem_per_token := mem_per_token; g_processing_input := true;
     g_rng := seed_rng (seed params); g_env := env; g_vocab := vocab;
     g_cb := cb; g_trace := [ev_eval 0 [0; 1; 2; 3] ok] |}.

(* The parameters after the defaults are resolved and n_predict is capped:
   params.n_predict = std::min(params.n_predict,
                               model.hparams.n_ctx - (int)embd_inp.size()); *)
Definition resolve_params (model : gptj_model) (params : gptj_params)
    (embd_inp : list Z) : gptj_params :=
  {| seed := if seed params <? 0 then time_now else seed params;
     n_threads := if n_threads params <=? 0
                  then Z.min 4 hardware_concurrency else n_threads params;
     n_predict := Z.min (n_predict params)
                        (n_ctx (hparams model) - Z.of_nat (length embd_inp));
     top_k := top_k params; top_p := top_p params; temp := temp params;
     n_batch := n_batch params |}.

(* [vocab] and [model] are the two members of the gptj_model_context;
   [env] and [cb] are the state the evaluator and the callback start from;
   [prompt] is the text of the C string. *)
Definition gptj_generate (fuel : nat) (vocab : gpt_vocab)
    (model : gptj_model) (env : eval_env) (cb : CB) (prompt : string)
    (params : gptj_params) : gen_result * gen_state :=
  (* tokenize the prompt *)
  let embd_inp := gpt_tokenize vocab prompt in
  let params := resolve_params model params embd_inp in
  generate_loop fuel model params embd_inp
                (generate_init vocab model env cb params).

Definition gptj_num_tokens (vocab : gpt_vocab) (prompt : string) : Z :=
  Z.of_nat (length (gpt_tokenize vocab prompt)).
End Driver.

Arguments buf_size {KV} _.
Arguments kv {KV} _.
Arguments g_i {Rng KV CB} _.
Arguments g_n_past {Rng KV CB} _.
Arguments g_embd {Rng KV CB} _.
Arguments g_logits {Rng KV CB} _.
Arguments g_mem_per_token {Rng KV CB} _.
Arguments g_processing_input {Rng KV CB} _.
Arguments g_rng {Rng KV CB} _.
Arguments g_env {Rng KV CB} _.
Arguments g_vocab {Rng KV CB} _.
Arguments g_cb {Rng KV CB} _.
Arguments g_trace {Rng KV CB} _.
Arguments incr_i {Rng KV CB} _.

(** *** gptj_load_model and gptj_free_model *)

(* A default-constructed gpt_vocab. *)
Definition empty_vocab : gpt_vocab := {| token_to_id := ∅; id_to_token := ∅ |}.

(* struct gptj_model_context *)
Record gptj_model_context := {
  vocab : gpt_vocab;
  model : gptj_model
}.

Section Api.
Variable ggml_type_of_tag : Z -> ggml_type.
Variable ggml_type_size : ggml_type -> Z.
Variable ggml_blck_size : ggml_type -> Z.
Variable ctx_size_of : gptj_hparams -> ggml_type -> Z.
Variable ggml_init_ok : Z -> bool.
Variable indeterminate : list byte.

(* gptj_load_model.  The result is the pointer handed back ([None]: nullptr)
   and the sizes of the ggml regions the call has created and not freed that
   the pointer handed back does not lead to: on failure the context is
   deleted, and deleting it does not call ggml_free on model.ctx.  The outer
   [None]: an exception or no defined behaviour inside gptj_model_load. *)
Definition gptj_load_model (file : option (list byte))
  : option (option gptj_model_context * list Z) :=
  match gptj_model_load ggml_type_of_tag ggml_type_size ggml_blck_size
          ctx_size_of ggml_init_ok indeterminate file empty_model empty_vocab with
  | Some (load_ok, m, v) => Some (Some {| vocab := v; model := m |}, [])
  | Some (load_fail _, m, _) =>
      Some (None, match ctx m with Some mem_size => [mem_size] | None => [] end)
  | _ => None
  end.
End Api.

(* gptj_free_model: ggml_free(ctx->model.ctx); delete ctx.  The result is the
   size of the region handed to ggml_free ([None]: a pointer that was never
   set). *)
Definition gptj_free_model (c : gptj_model_context) : option Z := ctx (model c).

(** *** A toy context *)

Definition toy_vocab : gpt_vocab :=
  {| token_to_id := <["hi"%string := 0]> (<["there"%string := 1]> (<["<eot>"%string := 2]> ∅));
     id_to_token := <[0 := "hi"%string]> (<[1 := "there"%string]> (<[2 := "<eot>"%string]> ∅)) |}.

Definition toy_model (n_ctx : Z) : gptj_model :=
  {| hparams := {| n_vocab := 3; n_ctx := n_ctx; n_embd := 4; n_head := 2;
                   n_layer := 1; n_rot := 2; ftype := 0 |};
     ctx := Some 0; tensors := ∅; memory_k := None; memory_v := None |}.

(* A forward pass that gives id 2 the largest logit at every position. *)
Definition toy_forward (_ : gptj_model) (kv : unit) (_ n_past : Z)
    (embd_inp : list Z) : unit * list float :=
  (kv, concat (map (fun _ => [0; 0; 1]%float) embd_inp)).

Definition toy_params (n_predict top_k n_batch : Z) : gptj_params :=
  {| seed := 1; n_threads := 1; n_predict := n_predict; top_k := top_k;
     top_p := 0.5%float; temp := 1%float; n_batch := n_batch |}.

(* on_token as a function of the token text only *)
Definition always (b : bool) (_ : string) : bool := b.

(* The driver over the toy engine: exp and the generator are stand-ins (with
   top_k = 1 the sampler uses neither), the evaluator never fails, and the
   graph takes 1024 bytes per token. *)
Definition toy_generate (fuel : nat) (n_ctx : Z) (prompt : string)
    (params : gptj_params) (cb : string -> bool) :=
  gptj_generate (fun x => x) unit (fun r => (0.5%float, r)) (fun _ => tt)
    0 4 unit toy_forward (fun n => 1024 * n) (fun x => x) (fun _ => true)
    unit (fun s t => (cb t, s))
    fuel toy_vocab (toy_model n_ctx)
    {| buf_size := initial_buf_size; kv := tt |} tt prompt params.

Definition toy_body (cb : string -> bool) :=
  generate_body (fun x => x) unit (fun r => (0.5%float, r))
    unit toy_forward (fun n => 1024 * n) (fun x => x) (fun _ => true)
    unit (fun s t => (cb t, s)).

Definition toy_loop (cb : string -> bool) :=
  generate_loop (fun x => x) unit (fun r => (0.5%float, r))
    unit toy_forward (fun n => 1024 * n) (fun x => x) (fun _ => true)
    unit (fun s t => (cb t, s)).

(* The states the toy run goes through. *)
Definition toy_state (i n_past : Z) (embd : list Z) (logits : list float)
    (processing_input : bool) (trace : list event) : gen_state unit unit unit :=
  {| g_i := i; g_n_past := n_past; g_embd := embd; g_logits := logits;
     g_mem_per_token := 1024; g_processing_input := processing_input;
     g_rng := tt; g_env := {| buf_size := initial_buf_size; kv := tt |};
     g_vocab := toy_vocab; g_cb := tt; g_trace := trace |}.

(* A vocabulary of two ids. *)
Definition two_vocab : gpt_vocab :=
  {| token_to_id := <["a"%string := 0]> (<["b"%string := 1]> ∅);
     id_to_token := <[0 := "a"%string]> (<[1 := "b"%string]> ∅) |}.

(* The tables of ggml.c for the types the toy files use (F32 and F16 are
   stored one element per block). *)
Definition toy_type_of_tag (tag : Z) : ggml_type :=
  if tag =? 0 then GGML_TYPE_F32 else if tag =? 1 then GGML_TYPE_F16
  else GGML_TYPE_COUNT.

Definition toy_type_size (ty : ggml_type) : Z :=
  match ty with
  | GGML_TYPE_F32 => 4
  | GGML_TYPE_F16 => 2
  | _ => 0
  end.

Definition toy_blck_size (ty : ggml_type) : Z := 1.

(* A registry with one tensor, and the record that fills it. *)
Definition toy_registry : gmap string ggml_tensor :=
  {[ "lm_head.bias"%string :=
       ggml_new_tensor_1d toy_type_size toy_blck_size GGML_TYPE_F32 3 ]}.

Definition toy_record_name : list byte := list_byte_of_string "lm_head.bias".

Definition toy_payload : list byte :=
  ["001"; "002"; "003"; "004"; "005"; "006";
   "007"; "008"; "009"; "010"; "011"; "012"]%byte.

(* A vocabulary in which a longer entry starts inside a word. *)
Definition greedy_vocab : gpt_vocab :=
  {| token_to_id := <["ab"%string := 0]> (<["cd"%string := 1]>
                      (<["c"%string := 2]> (<["d"%string := 3]> ∅)));
     id_to_token := <[0 := "ab"%string]> (<[1 := "cd"%string]>
                      (<[2 := "c"%string]> (<[3 := "d"%string]> ∅))) |}.

(* A vocabulary of two entries, neither of which is a single character. *)
Definition pair_vocab : gpt_vocab :=
  {| token_to_id := <["ab"%string := 0]> (<["cd"%string := 1]> ∅);
     id_to_token := <[0 := "ab"%string]> (<[1 := "cd"%string]> ∅) |}.

(* The head of a small model file: two words and no layer. *)
Definition toy_hparams : gptj_hparams :=
  {| n_vocab := 2; n_ctx := 8; n_embd := 1; n_head := 1; n_layer := 0;
     n_rot := 1; ftype := 0 |}.

Definition toy_words : list (list byte) :=
  [list_byte_of_string "hi"; list_byte_of_string "there"].

Definition toy_load (file : list byte) (model : gptj_model) (vocab : gpt_vocab) :=
  gptj_model_load toy_type_of_tag toy_type_size toy_blck_size
    (fun _ _ => 1024) (fun _ => true) [] (Some file) model vocab.

(* An enlargement that asks for exactly what is needed. *)
Definition grow_size_exact (x : Z) : Z := x.

(** *** Vocabulary of the statements *)

(* The score the sampler compares: logits[i] * (1.0 / temp). *)
Definition scaled_logit (logits : list float) (temp : float) (i : nat) : float :=
  (nth i logits 0 * (1 / temp))%float.

Definition logit_eq (a b : float * Z) : bool := (fst a =? fst b)%float.

(* The index of the first element among positions 0..k that no element among
   them precedes under [comp] -- what a left-to-right scan that replaces its
   candidate only by a strictly preceding element ends with. *)
Fixpoint best_upto {A : Type} (comp : A -> A -> bool) (d : A) (a : list A)
    (k : nat) : nat :=
  match k with
  | O => O
  | S k' =>
      let b := best_upto comp d a k' in
      if comp (nth (S k') a d) (nth b a d) then S k' else b
  end.

(* The id at which a scan of the scores of the ids 0..k ends that starts at
   id 0 and moves on to a later id only where its score is strictly greater
   than that of the id it stands at. *)
Fixpoint first_max (score : nat -> float) (k : nat) : nat :=
  match k with
  | O => O
  | S k' =>
      let b := first_max score k' in
      if (score b <? score (S k'))%float then S k' else b
  end.

(* Reading a trace: the cache position of the first call of gptj_eval; the
   cache position at the first call of the sampler together with the number
   of token ids handed to gptj_eval before it ([acc] counts them); the
   number of calls of the sampler and of on_token. *)
Fixpoint first_eval (tr : list event) : option Z :=
  match tr with
  | [] => None
  | ev_eval n_past _ _ :: _ => Some n_past
  | _ :: tr' => first_eval tr'
  end.

Fixpoint first_sample (tr : list event) (acc : Z) : option (Z * Z) :=
  match tr with
  | [] => None
  | ev_sample n_past _ :: _ => Some (n_past, acc)
  | ev_eval _ embd _ :: tr' => first_sample tr' (acc + Z.of_nat (length embd))
  | ev_callback _ _ :: tr' => first_sample tr' acc
  end.

Definition is_sample (e : event) : bool :=
  match e with ev_sample _ _ => true | _ => false end.

Definition is_callback (e : event) : bool :=
  match e with ev_callback _ _ => true | _ => false end.

Definition count_samples (tr : list event) : nat :=
  length (filter (fun e => is_sample e = true) tr).

Definition count_callbacks (tr : list event) : nat :=
  length (filter (fun e => is_callback e = true) tr).

(* The sizes of the batches handed to gptj_eval, in order. *)
Definition batch_sizes (tr : list event) : list nat :=
  omap (fun e => match e with
                 | ev_eval _ embd _ => Some (length embd)
                 | _ => None
                 end) tr.

(* The number of token ids handed to gptj_eval. *)
Fixpoint fed (tr : list event) : Z :=
  match tr with
  | [] => 0
  | ev_eval _ embd _ :: tr' => Z.of_nat (length embd) + fed tr'
  | _ :: tr' => fed tr'
  end.

(* Every call of on_token passed "<eot>" and was answered with [answer]. *)
Definition eot_callbacks (answer : bool) (evs : list event) : Prop :=
  Forall (fun e => is_callback e = true -> e = ev_callback "<eot>" answer) evs.

(* The state in which a pass through the loop body ends. *)
Definition result_state {Rng KV CB : Type}
    (res : (gen_result * gen_state Rng KV CB) + gen_state Rng KV CB)
  : gen_state Rng KV CB :=
  match res with
  | inl (_, st) => st
  | inr st => st
  end.

(* What holds at the head of the loop while the prompt is being fed: the
   pending batch ends where [i] stands, and [i] has not passed the prompt. *)
Definition prefill_inv {Rng KV CB : Type} (embd_inp : list Z)
    (st : gen_state Rng KV CB) : Prop :=
  0 <= g_n_past st
  /\ g_n_past st + Z.of_nat (length (g_embd st)) = g_i st
  /\ g_i st <= Z.of_nat (length embd_inp)
  /\ g_processing_input st = true.

(* A stream that has just been opened on [bytes]. *)
Definition open_stream (bytes : list byte) : ifstream :=
  {| rest := bytes; eofbit := false; failbit := false |}.

(* The state flags of a stream that started good: failbit is only ever set
   together with eofbit. *)
Definition stream_ok (fin : ifstream) : Prop :=
  failbit fin = true -> eofbit fin = true.

(* A tensor record is ([n_dims], name length, type tag, extents, name,
   payload); [dims] holds the four bytes of each extent.  The element count
   and the extents the loader derives: *)
Definition record_nelements (dims : list (list byte)) : Z :=
  fold_left (fun acc d => wrap32 (acc * le_i32 d)) dims 1.

Definition record_ne (dims : list (list byte)) (k : nat) : Z :=
  nth k (map le_i32 dims) 1.

(* The bytes of a record up to its payload. *)
Definition record_head (b_n_dims b_length b_type : list byte)
    (dims : list (list byte)) (name : list byte) : list byte :=
  (b_n_dims ++ b_length ++ b_type ++ concat dims ++ name)%list.

Section RecordSize.
Variable ggml_type_of_tag : Z -> ggml_type.
Variable ggml_type_size : ggml_type -> Z.
Variable ggml_blck_size : ggml_type -> Z.

(* (nelements * bpe) / ggml_blck_size(tensor->type): the byte size the
   loader computes for a record with type tag [tag] that names [tensor]. *)
Definition record_nbytes (dims : list (list byte)) (tag : Z)
    (tensor : ggml_tensor) : Z :=
  to_size_t (to_size_t (record_nelements dims)
             * ggml_type_size (ggml_type_of_tag tag))
  / to_size_t (ggml_blck_size (ttype tensor)).
End RecordSize.

(* What the loop over one word gives when it starts with empty vectors:
   the ids and the reported characters of that word. *)
Definition word_result (vocab : gpt_vocab) (word : string)
  : list Z * list string :=
  match word_loop (String.length word) vocab word O [] [] with
  | Some r => r
  | None => ([], [])
  end.

(* The words, or the texts of the pieces, put back together. *)
Definition join_words (ws : list string) : string :=
  fold_right String.append EmptyString ws.

(* A piece of the text as the second half of gpt_tokenize consumed it: a
   vocabulary entry with its id, or one character reported as unknown. *)

Definition piece_ids (ps : list (string * option Z)) : list Z := omap snd ps.

Definition piece_log (ps : list (string * option Z)) : list string :=
  omap (fun p : string * option Z => match snd p with None => Some (fst p) | Some _ => None end) ps.

Definition piece_ok (vocab : gpt_vocab) (p : string * option Z) : Prop :=
  token_to_id vocab !! fst p = snd p
  /\ (1 <= String.length (fst p))%nat
  /\ (snd p = None -> String.length (fst p) = 1%nat).

(* The text on_token is handed for a sampled id, vocab.id_to_token[id], and
   the texts of a sequence of ids put together. *)
Definition detokenize (vocab : gpt_vocab) (ids : list Z) : string :=
  join_words (map (fun id => fst (id_to_token_at vocab id)) ids).

(* The values an int32_t holds. *)
Definition int32 (z : Z) : Prop := - 2 ^ 31 <= z < 2 ^ 31.

Definition hparams_int32 (h : gptj_hparams) : Prop :=
  int32 (n_vocab h) /\ int32 (n_ctx h) /\ int32 (n_embd h) /\ int32 (n_head h)
  /\ int32 (n_layer h) /\ int32 (n_rot h) /\ int32 (ftype h).

(* The layout of a model file in front of the tensor records: the magic
   number, the seven hyperparameters, the number of vocabulary words and the
   words, each with its length in front. *)
Definition hparams_bytes (h : gptj_hparams) : list byte :=
  le_bytes 4 (n_vocab h) ++ le_bytes 4 (n_ctx h) ++ le_bytes 4 (n_embd h)
  ++ le_bytes 4 (n_head h) ++ le_bytes 4 (n_layer h) ++ le_bytes 4 (n_rot h)
  ++ le_bytes 4 (ftype h).

Definition word_bytes (w : list byte) : list byte :=
  le_bytes 4 (Z.of_nat (length w)) ++ w.

Definition file_head (h : gptj_hparams) (count : Z) (words : list (list byte))
  : list byte :=
  le_bytes 4 magic_number ++ hparams_bytes h ++ le_bytes 4 count
  ++ concat (map word_bytes words).



(* The failures gptj_model_load reports from the tensor records, after the
   ggml context has been created. *)
Definition tensor_error (e : load_error) : bool :=
  match e with
  | unknown_tensor _ | wrong_size _ | wrong_shape _ | wrong_byte_size _ => true
  | _ => false
  end.

(* What gptj_model_load keeps of a vocabulary it has filled from scratch for
   [n] words: id_to_token holds exactly the ids below [n], and every id that
   token_to_id gives is mapped back to its token. *)
Definition vocab_inv (n : Z) (v : gpt_vocab) : Prop :=
  (forall id, is_Some (id_to_token v !! id) <-> 0 <= id < n)
  /\ size (id_to_token v) = Z.to_nat n
  /\ (forall w id, token_to_id v !! w = Some id -> id_to_token v !! id = Some w).

(* The ids handed to gptj_eval, the ids the sampler returned and the texts
   on_token was called with, each in the order of the run. *)
Definition fed_ids (tr : list event) : list Z :=
  concat (omap (fun e => match e with
                         | ev_eval _ embd _ => Some embd
                         | _ => None
                         end) tr).

Definition sampled_ids (tr : list event) : list Z :=
  omap (fun e => match e with ev_sample _ id => Some id | _ => None end) tr.

Definition callback_tokens (tr : list event) : list string :=
  omap (fun e => match e with ev_callback t _ => Some t | _ => None end) tr.

(* vocab.id_to_token[id].c_str(), the text on_token is given for [id] *)
Definition token_text (vocab : gpt_vocab) (id : Z) : string :=
  fst (id_to_token_at vocab id).

(* Every call of gptj_eval is on a batch that is not empty and at the cache
   position that the batches before it add up to ([pos] at the start), and
   so is every call of the sampler. *)
Fixpoint positions_contiguous (tr : list event) (pos : Z) : Prop :=
  match tr with
  | [] => True
  | ev_eval n_past embd _ :: tr' =>
      n_past = pos /\ embd <> []
      /\ positions_contiguous tr' (pos + Z.of_nat (length embd))
  | ev_sample n_past _ :: tr' => n_past = pos /\ positions_contiguous tr' pos
  | ev_callback _ _ :: tr' => positions_contiguous tr' pos
  end.

(* Every call of gptj_eval in the trace returned true. *)
Definition evals_ok (tr : list event) : Prop :=
  Forall (fun e => match e with ev_eval _ _ ok => ok = true | _ => True end) tr.

(* Every call of gptj_eval in the trace stays inside the first [n_ctx]
   positions of the cache / is on at most [bound] ids. *)
Definition evals_within (n_ctx : Z) (tr : list event) : Prop :=
  Forall (fun e => match e with
                   | ev_eval n_past embd _ =>
                       0 <= n_past /\ n_past + Z.of_nat (length embd) <= n_ctx
                   | _ => True
                   end) tr.

Definition batches_at_most (bound : Z) (tr : list event) : Prop :=
  Forall (fun e => match e with
                   | ev_eval _ embd _ => Z.of_nat (length embd) <= bound
                   | _ => True
                   end) tr.

(* What holds at the head of every pass through the loop of gptj_generate,
   for the properties below.  The first event of the trace is the measuring
   call; [evs] is what follows it. *)
Definition positions_inv {Rng KV CB : Type} (st : gen_state Rng KV CB) : Prop :=
  exists e evs, g_trace st = e :: evs
                /\ positions_contiguous evs 0 /\ fed evs = g_n_past st.

Definition feeding_inv {Rng KV CB : Type} (embd_inp : list Z)
    (st : gen_state Rng KV CB) : Prop :=
  0 <= g_i st
  /\ exists e evs,
       g_trace st = e :: evs
       /\ fed_ids evs ++ g_embd st
          = take (Z.to_nat (g_i st)) embd_inp ++ sampled_ids evs
       /\ (sampled_ids evs <> [] -> Z.of_nat (length embd_inp) <= g_i st).

Definition callbacks_inv {Rng KV CB : Type} (vocab : gpt_vocab)
    (embd_inp : list Z) (st : gen_state Rng KV CB) : Prop :=
  (g_processing_input st = true \/ Z.of_nat (length embd_inp) <= g_i st)
  /\ (forall id, token_text (g_vocab st) id = token_text vocab id)
  /\ callback_tokens (g_trace st)
     = map (token_text vocab) (sampled_ids (g_trace st)).

Definition window_inv {Rng KV CB : Type} (bound n_ctx : Z)
    (st : gen_state Rng KV CB) : Prop :=
  0 <= g_n_past st
  /\ g_n_past st + Z.of_nat (length (g_embd st)) = g_i st
  /\ g_i st <= bound
  /\ exists e evs, g_trace st = e :: evs /\ evals_within n_ctx evs.

Definition batch_inv {Rng KV CB : Type} (bound : Z)
    (st : gen_state Rng KV CB) : Prop :=
  Z.of_nat (length (g_embd st)) <= bound
  /\ exists e evs, g_trace st = e :: evs /\ batches_at_most bound evs.

Definition vocab_fixed_inv {Rng KV CB : Type} (vocab : gpt_vocab)
    (embd_inp : list Z) (st : gen_state Rng KV CB) : Prop :=
  g_vocab st = vocab
  /\ (g_processing_input st = true \/ Z.of_nat (length embd_inp) <= g_i st).

(* A tensor record of a file, field by field, and its bytes. *)
Record tensor_record := {
  r_n_dims : list byte;
  r_length : list byte;
  r_type : list byte;
  r_dims : list (list byte);
  r_name : list byte;
  r_payload : list byte
}.


(* The head of a record holds three 32-bit fields, as many extents as the
   first of them says (at most two) and a name of the length the second
   says. *)
Definition record_head_ok (b_n_dims b_length b_type : list byte)
    (dims : list (list byte)) (name : list byte) : Prop :=
  length b_n_dims = 4%nat /\ length b_length = 4%nat
  /\ length b_type = 4%nat
  /\ le_i32 b_n_dims = Z.of_nat (length dims) /\ (length dims <= 2)%nat
  /\ Forall (fun d => length d = 4%nat) dims
  /\ le_i32 b_length = Z.of_nat (length name).

Section Records.
Variable ggml_type_of_tag : Z -> ggml_type.
Variable ggml_type_size : ggml_type -> Z.
Variable ggml_blck_size : ggml_type -> Z.

(* A record that passes the four checks against the registry and carries
   the whole payload. *)
Definition record_accepted (reg : gmap string ggml_tensor)
    (r : tensor_record) : Prop :=
  record_head_ok (r_n_dims r) (r_length r) (r_type r) (r_dims r) (r_name r)
  /\ exists tensor,
       reg !! c_str (r_name r) = Some tensor
       /\ ggml_nelements tensor = record_nelements (r_dims r)
       /\ nth 0 (ne tensor) 0 = record_ne (r_dims r) 0
       /\ nth 1 (ne tensor) 0 = record_ne (r_dims r) 1
       /\ record_nbytes ggml_type_of_tag ggml_type_size ggml_blck_size
            (r_dims r) (le_i32 (r_type r)) tensor
          = ggml_nbytes ggml_type_size ggml_blck_size tensor
       /\ length (r_payload r)
          = Z.to_nat (ggml_nbytes ggml_type_size ggml_blck_size tensor).

(* The registry with the payload of a record as the data of its tensor. *)
Definition store_record (reg : gmap string ggml_tensor) (r : tensor_record)
  : gmap string ggml_tensor :=
  match reg !! c_str (r_name r) with
  | Some tensor =>
      <[c_str (r_name r) := {| ttype := ttype tensor; ne := ne tensor;
                               data := r_payload r |}]> reg
  | None => reg
  end.

(* Records each of which is accepted by the registry as the records before
   it have left it. *)
Fixpoint records_accepted (reg : gmap string ggml_tensor)
    (rs : list tensor_record) : Prop :=
  match rs with
  | [] => True
  | r :: rs' => record_accepted reg r /\ records_accepted (store_record reg r) rs'
  end.
End Records.


(* The logits gptj_eval hands back: the row of the last of the [N]
   positions among the rows of [inpL]. *)
Definition last_logits (n_vocab : Z) (N : nat) (inpL : list float)
  : list float :=
  take (Z.to_nat n_vocab) (drop (Z.to_nat (n_vocab * (Z.of_nat N - 1))) inpL).

(* Three logits of which that of id 2 has the strictly greatest scaled
   score. *)
Definition id_2_wins (temp : float) (l : list float) : Prop :=
  length l = 3%nat
  /\ (scaled_logit l temp 0 <? scaled_logit l temp 2)%float = true
  /\ (scaled_logit l temp 1 <? scaled_logit l temp 2)%float = true.

(* What holds at the head of every pass of the toy run: no call of on_token
   while the prompt is fed, and one sample and one call for every pass
   after it. *)
Definition toy_run_inv {Rng KV CB : Type} (answer : bool) (bound : Z)
    (st : gen_state Rng KV CB) : Prop :=
  g_vocab st = toy_vocab
  /\ 0 <= g_i st <= bound
  /\ (g_i st < 2 -> g_processing_input st = true)
  /\ (1 <= g_i st -> g_embd st <> [])
  /\ (answer = false -> g_i st <= 2)
  /\ exists evs,
       g_trace st = ev_eval 0 [0; 1; 2; 3] true :: evs
       /\ eot_callbacks answer evs
       /\ count_samples evs = Z.to_nat (g_i st - 2)
       /\ count_callbacks evs = Z.to_nat (g_i st - 2).

(* What holds when the toy run is over. *)
Definition toy_run_end {Rng KV CB : Type} (answer : bool) (n : Z)
    (st : gen_state Rng KV CB) : Prop :=
  exists evs,
    g_trace st = ev_eval 0 [0; 1; 2; 3] true :: evs
    /\ count_samples evs = Z.to_nat (if answer then n else Z.min 1 n)
    /\ count_callbacks evs = Z.to_nat (if answer then n else Z.min 1 n)
    /\ eot_callbacks answer evs.

(** ** Part II: properties *)

(** *** Tokenizer *)

Lemma substring_full (s : string) : substring 0 (String.length s) s = s.
Proof.
  induction s as [|c s IH]; simpl; [reflexivity|]. now rewrite IH.
Qed.

(* Every match of the pattern takes at least one character and stays inside
   the text. *)
Lemma span_le (p : ascii -> bool) (s : string) : (span p s <= String.length s)%nat.
Proof.
  induction s as [|c s IH]; simpl; [lia|]. destruct (p c); lia.
Qed.

Lemma prefix_length (p s : string) :
  String.prefix p s = true -> (String.length p <= String.length s)%nat.
Proof.
  revert p. induction s as [|b s IH]; intros p; destruct p as [|a p]; simpl;
    try lia; try discriminate.
  destruct (ascii_dec a b); [|discriminate].
  intros H. apply IH in H. lia.
Qed.

Lemma run_bounds (p : ascii -> bool) (s : string) (n : nat) :
  run p s = Some n -> (1 <= n <= String.length s)%nat.
Proof.
  unfold run. pose proof (span_le p s).
  destruct (span p s); [discriminate|]. intros [= <-]. lia.
Qed.

Lemma opt_space_run_bounds (p : ascii -> bool) (s : string) (n : nat) :
  opt_space_run p s = Some n -> (1 <= n <= String.length s)%nat.
Proof.
  unfold opt_space_run.
  destruct s as [|c s']; [apply run_bounds|].
  destruct c as [[] [] [] [] [] [] [] []]; try apply run_bounds.
  destruct (run p s') as [k|] eqn:Hk.
  - intros [= <-]. apply run_bounds in Hk. simpl. lia.
  - apply run_bounds.
Qed.

Lemma contraction_bounds (s : string) (n : nat) :
  contraction s = Some n -> (1 <= n <= String.length s)%nat.
Proof.
  unfold contraction.
  repeat match goal with
         | |- context [String.prefix ?p s] =>
             let H := fresh "H" in
             destruct (String.prefix p s) eqn:H;
             [apply prefix_length in H; simpl in H; intros [= <-]; lia|]
         end.
  discriminate.
Qed.

Lemma space_run_bounds (s : string) (len n : nat) :
  space_run_not_before_nonspace s len = Some n -> (1 <= n <= len)%nat.
Proof.
  induction len as [|k IH]; simpl; [discriminate|].
  destruct (get (S k) s) as [c|].
  - destruct (is_space c).
    + intros [= <-]. lia.
    + intros H. apply IH in H. lia.
  - intros [= <-]. lia.
Qed.

Lemma regex_match_at_bounds (s : string) (n : nat) :
  regex_match_at s = Some n -> (1 <= n <= String.length s)%nat.
Proof.
  unfold regex_match_at, first_some.
  destruct (contraction s) eqn:H1; [intros [= <-]; now apply contraction_bounds|].
  destruct (opt_space_run is_alpha s) eqn:H2;
    [intros [= <-]; now apply opt_space_run_bounds in H2|].
  destruct (opt_space_run is_digit s) eqn:H3;
    [intros [= <-]; now apply opt_space_run_bounds in H3|].
  destruct (opt_space_run is_other s) eqn:H4;
    [intros [= <-]; now apply opt_space_run_bounds in H4|].
  destruct (space_run_not_before_nonspace s (span is_space s)) eqn:H5.
  - intros [= <-]. apply space_run_bounds in H5.
    pose proof (span_le is_space s). lia.
  - apply run_bounds.
Qed.

Lemma regex_search_bounds (s : string) (p n : nat) :
  regex_search s = Some (p, n) -> (1 <= n /\ p + n <= String.length s)%nat.
Proof.
  revert p. induction s as [|c s IH]; intros p; cbn [regex_search].
  - destruct (regex_match_at "") eqn:H; [|discriminate].
    intros [= <- <-]. apply regex_match_at_bounds in H. simpl in *. lia.
  - destruct (regex_match_at (String c s)) eqn:H.
    + intros [= <- <-]. apply regex_match_at_bounds in H. lia.
    + destruct (regex_search s) as [[p' n']|]; [|discriminate].
      intros [= <- <-]. specialize (IH p' eq_refl). simpl. lia.
Qed.

Lemma substring_length (s : string) (i n : nat) :
  (i + n <= String.length s)%nat -> String.length (substring i n s) = n.
Proof.
  revert i n. induction s as [|c s IH]; intros i n H; simpl in *.
  - assert (i = O) by lia. assert (n = O) by lia. subst. reflexivity.
  - destruct i as [|i].
    + destruct n as [|n]; [reflexivity|]. simpl. rewrite IH by lia. reflexivity.
    + apply IH. lia.
Qed.

(* More fuel than the length of the text does not change the words. *)
Lemma split_words_fuel (fuel : nat) (str : string) :
  (String.length str <= fuel)%nat ->
  split_words fuel str = split_words (String.length str) str.
Proof.
  revert str. induction fuel as [fuel IH] using lt_wf_ind.
  intros str Hlen.
  destruct fuel as [|fuel].
  - assert (String.length str = O) as -> by lia. reflexivity.
  - destruct (String.length str) as [|len] eqn:Hl.
    + simpl. destruct (regex_search str) as [[p n]|] eqn:Hs; [|reflexivity].
      apply regex_search_bounds in Hs. lia.
    + simpl. destruct (regex_search str) as [[p n]|] eqn:Hs; [|reflexivity].
      apply regex_search_bounds in Hs. f_equal. rewrite !Hl.
      assert (Hsub : String.length (substring (p + n) (S len - (p + n)) str)
                     = (S len - (p + n))%nat)
        by (apply substring_length; lia).
      rewrite (IH fuel) by lia.
      rewrite (IH len) by lia. reflexivity.
Qed.

Lemma longest_match_none (vocab : gpt_vocab) (word : string) (i k : nat) :
  (forall len, (1 <= len <= k)%nat ->
               token_to_id vocab !! substring i len word = None) ->
  longest_match vocab word i k = None.
Proof.
  induction k as [|k IH]; intros Hnone; simpl; [reflexivity|].
  rewrite Hnone by lia. apply IH. intros len Hlen. apply Hnone. lia.
Qed.

Lemma longest_match_bounds (vocab : gpt_vocab) (word : string) (i k : nat)
    (id : Z) (j : nat) :
  longest_match vocab word i k = Some (id, j) -> (i < j <= i + k)%nat.
Proof.
  induction k as [|k IH]; simpl; [discriminate|].
  destruct (token_to_id vocab !! substring i (S k) word).
  - intros [= _ <-]. lia.
  - intros H. apply IH in H. lia.
Qed.

(* The fuel handed to [word_loop] is enough: every pass moves [i] forward. *)
Lemma word_loop_total (vocab : gpt_vocab) (word : string) (fuel i : nat)
    (tokens : list Z) (log : list string) :
  (String.length word - i <= fuel)%nat ->
  exists r, word_loop fuel vocab word i tokens log = Some r.
Proof.
  revert i tokens log.
  induction fuel as [|fuel IH]; intros i tokens log Hfuel.
  - simpl. destruct (i <? String.length word)%nat eqn:Hi.
    + apply Nat.ltb_lt in Hi. lia.
    + eauto.
  - simpl. destruct (i <? String.length word)%nat eqn:Hi; simpl; [|eauto].
    apply Nat.ltb_lt in Hi.
    destruct (longest_match vocab word i (String.length word - i))
      as [[id j]|] eqn:Hm.
    + apply longest_match_bounds in Hm.
      destruct (j =? String.length word)%nat eqn:Hj; [eauto|].
      rewrite Nat.eqb_refl.
      destruct (token_to_id vocab !! substring j 1 word); apply IH; lia.
    + destruct (i =? String.length word)%nat eqn:Hj; [eauto|].
      rewrite Nat.eqb_refl.
      destruct (token_to_id vocab !! substring i 1 word); apply IH; lia.
Qed.

Lemma words_loop_total (vocab : gpt_vocab) (words : list string)
    (tokens : list Z) (log : list string) :
  exists r, words_loop vocab words tokens log = Some r.
Proof.
  revert tokens log. induction words as [|w ws IH]; intros tokens log; simpl.
  - eauto.
  - destruct (String.length w =? 0)%nat; [apply IH|].
    destruct (word_loop_total vocab w (String.length w) 0 tokens log)
      as [[tokens' log'] ->]; [lia|]. apply IH.
Qed.

Lemma gpt_tokenize_log_total (vocab : gpt_vocab) (text : string) :
  exists r, gpt_tokenize_log vocab text = Some r.
Proof. apply words_loop_total. Qed.

(* The vectors [tokens] and [log] are only ever appended to: what the loop
   over a word adds to them does not depend on what they hold. *)
Lemma word_loop_acc (vocab : gpt_vocab) (word : string) (fuel i : nat)
    (tokens : list Z) (log : list string) :
  word_loop fuel vocab word i tokens log
  = match word_loop fuel vocab word i [] [] with
    | Some (t, l) => Some (tokens ++ t, log ++ l)
    | None => None
    end.
Proof.
  revert i tokens log.
  induction fuel as [|fuel IH]; intros i tokens log; cbn [word_loop].
  - destruct (negb _); [cbn [app]; rewrite ?app_nil_r; reflexivity|reflexivity].
  - destruct (negb _); [cbn [app]; rewrite ?app_nil_r; reflexivity|].
    destruct (longest_match vocab word i (String.length word - i))
      as [[id j]|].
    + destruct (j =? String.length word)%nat; [cbn [app]; rewrite ?app_nil_r; reflexivity|].
      rewrite Nat.eqb_refl.
      destruct (token_to_id vocab !! substring j 1 word) as [id2|].
      * rewrite (IH (S j) ((tokens ++ [id]) ++ [id2]) log).
        rewrite (IH (S j) (([] ++ [id]) ++ [id2]) []).
        destruct (word_loop fuel vocab word (S j) [] []) as [[t l]|];
          [|reflexivity].
        cbn [app]. rewrite <- ?app_assoc. reflexivity.
      * rewrite (IH (S j) (tokens ++ [id]) (log ++ [substring j 1 word])).
        rewrite (IH (S j) ([] ++ [id]) ([] ++ [substring j 1 word])).
        destruct (word_loop fuel vocab word (S j) [] []) as [[t l]|];
          [|reflexivity].
        cbn [app]. rewrite <- ?app_assoc. reflexivity.
    + destruct (i =? String.length word)%nat; [cbn [app]; rewrite ?app_nil_r; reflexivity|].
      rewrite Nat.eqb_refl.
      destruct (token_to_id vocab !! substring i 1 word) as [id2|].
      * rewrite (IH (S i) (tokens ++ [id2]) log).
        rewrite (IH (S i) ([] ++ [id2]) []).
        destruct (word_loop fuel vocab word (S i) [] []) as [[t l]|];
          [|reflexivity].
        cbn [app]. rewrite <- ?app_assoc. reflexivity.
      * rewrite (IH (S i) tokens (log ++ [substring i 1 word])).
        rewrite (IH (S i) [] ([] ++ [substring i 1 word])).
        destruct (word_loop fuel vocab word (S i) [] []) as [[t l]|];
          [|reflexivity].
        cbn [app]. rewrite <- ?app_assoc. reflexivity.
Qed.

(* The loop over the words puts what the words give one behind the other. *)
Lemma words_loop_concat (vocab : gpt_vocab) (words : list string)
    (tokens : list Z) (log : list string) :
  words_loop vocab words tokens log
  = Some (tokens ++ concat (map (fun w => fst (word_result vocab w)) words),
          log ++ concat (map (fun w => snd (word_result vocab w)) words)).
Proof.
  revert tokens log.
  induction words as [|w ws IH]; intros tokens log; cbn [words_loop map concat].
  - now rewrite !app_nil_r.
  - destruct (String.length w =? 0)%nat eqn:Hlen.
    + destruct w; [|discriminate Hlen].
      change (word_result vocab EmptyString) with (@nil Z, @nil string).
      cbn [fst snd app]. apply IH.
    + unfold word_result at 1 3.
      destruct (word_loop_total vocab w (String.length w) 0 [] [] ltac:(lia))
        as [[t l] Hw].
      rewrite word_loop_acc, Hw, IH. cbn [fst snd].
      now rewrite <- !app_assoc.
Qed.

(** C7.  At a position of a word from which no substring is in the
    vocabulary, whether the scan starts there or a longer match has just
    ended there, gpt_tokenize emits no id for the character at that
    position, reports that one character as an unknown token and goes on
    one character further: what the scan adds to the ids is what the scan
    of the rest of the word gives (after the id of the match, if one has
    just ended there), and what it adds to the reports is that character
    followed by the reports from the rest.  gpt_tokenize returns, for every
    vocabulary and text, the ids that the words of the text give, one word
    after the other, and reports their unknown characters in that order; no
    text makes it fail. *)
Theorem unknown_character_is_skipped (vocab : gpt_vocab) (word : string)
    (i : nat)
    (Hi : (i < String.length word)%nat)
    (Hnone : forall len, (1 <= len)%nat -> (i + len <= String.length word)%nat ->
                         token_to_id vocab !! substring i len word = None) :
  (forall fuel, (String.length word - S i <= fuel)%nat ->
     exists rest_tokens rest_log,
       word_loop fuel vocab word (S i) [] [] = Some (rest_tokens, rest_log)
       /\ (forall tokens log,
             word_loop (S fuel) vocab word i tokens log
             = Some (tokens ++ rest_tokens,
                     log ++ substring i 1 word :: rest_log))
       /\ (forall i0 id tokens log,
             (i0 < String.length word)%nat ->
             longest_match vocab word i0 (String.length word - i0)
             = Some (id, i) ->
             word_loop (S fuel) vocab word i0 tokens log
             = Some (tokens ++ id :: rest_tokens,
                     log ++ substring i 1 word :: rest_log)))
  /\ (forall text,
      let words := split_words (String.length text) text in
      gpt_tokenize_log vocab text
      = Some (concat (map (fun w => fst (word_result vocab w)) words),
              concat (map (fun w => snd (word_result vocab w)) words))).
Proof.
  assert (H1 : token_to_id vocab !! substring i 1 word = None)
    by (apply Hnone; lia).
  split.
  - intros fuel Hfuel.
    destruct (word_loop_total vocab word fuel (S i) [] [] Hfuel)
      as [[rest_tokens rest_log] Hrest].
    exists rest_tokens, rest_log. split; [exact Hrest|]. split.
    + intros tokens log. cbn [word_loop].
      destruct (i <? String.length word)%nat eqn:E;
        [|apply Nat.ltb_ge in E; lia]. cbn [negb].
      rewrite longest_match_none by (intros len Hlen; apply Hnone; lia).
      destruct (i =? String.length word)%nat eqn:E2;
        [apply Nat.eqb_eq in E2; lia|].
      rewrite Nat.eqb_refl, H1, word_loop_acc, Hrest.
      now rewrite <- app_assoc.
    + intros i0 id tokens log Hi0 Hm. cbn [word_loop].
      destruct (i0 <? String.length word)%nat eqn:E;
        [|apply Nat.ltb_ge in E; lia]. cbn [negb].
      rewrite Hm.
      destruct (i =? String.length word)%nat eqn:E2;
        [apply Nat.eqb_eq in E2; lia|].
      rewrite Nat.eqb_refl, H1, word_loop_acc, Hrest.
      now rewrite <- !app_assoc.
  - intros text words. unfold gpt_tokenize_log. fold words.
    now rewrite words_loop_concat.
Qed.

Lemma unknown_character_is_skipped_witness :
  word_loop 6 toy_vocab " there" 0 [] [] = Some ([1], [" "%string]).
Proof.
  destruct (proj1 (unknown_character_is_skipped toy_vocab " there" 0
                     ltac:(simpl; lia)
                     ltac:(intros len H1 H2; simpl in H2;
                           assert (Hc : len = 1%nat \/ len = 2%nat
                                        \/ len = 3%nat \/ len = 4%nat
                                        \/ len = 5%nat \/ len = 6%nat) by lia;
                           destruct Hc as [->|[->|[->|[->|[->| ->]]]]];
                           reflexivity))
              5%nat ltac:(simpl; lia))
    as (rest_tokens & rest_log & Hrest & Hrun & _).
  vm_compute in Hrest. injection Hrest as <- <-.
  exact (Hrun [] []).
Defined.

(** C5, as stated, fails: the toy vocabulary holds "<eot>" under id 2, but
    the tokenizer splits that text into the words "<", "eot" and ">" before
    it looks anything up, and returns no token at all. *)
Lemma own_text_tokenizes_to_own_id_counterexample :
  id_to_token toy_vocab !! 2 = Some "<eot>"%string
  /\ token_to_id toy_vocab !! "<eot>"%string = Some 2
  /\ gpt_tokenize toy_vocab "<eot>" = []
  /\ ~ (exists rest, gpt_tokenize toy_vocab "<eot>" = 2 :: rest).
Proof.
  repeat split; try reflexivity.
  intros [rest H]. vm_compute in H. discriminate H.
Qed.

(** C5, amended.  For a token id whose text the vocabulary maps back to it
    and whose text is a single word of the splitting rule, gpt_tokenize on
    that text yields exactly that id. *)
Theorem own_text_tokenizes_to_own_id (vocab : gpt_vocab) (id : Z)
    (text : string)
    (Hid : id_to_token vocab !! id = Some text)
    (Hback : token_to_id vocab !! text = Some id)
    (Hword : split_words (String.length text) text = [text]) :
  gpt_tokenize vocab text = [id].
Proof.
  unfold gpt_tokenize, gpt_tokenize_log. rewrite Hword.
  unfold words_loop.
  destruct (String.length text) as [|n] eqn:Hlen.
  - simpl in Hword. discriminate Hword.
  - cbn [Nat.eqb]. unfold word_loop. rewrite Hlen.
    change (0 <? S n)%nat with true. cbn [negb].
    rewrite Nat.sub_0_r. cbn [longest_match].
    rewrite <- Hlen, substring_full, Hback, Nat.eqb_refl. reflexivity.
Qed.

Lemma own_text_tokenizes_to_own_id_witness :
  gpt_tokenize toy_vocab "there" = [1].
Proof.
  apply (own_text_tokenizes_to_own_id toy_vocab 1 "there"); reflexivity.
Defined.

(** *** Tokenizer: the text and its pieces *)

Lemma opt_space_run_none (p : ascii -> bool) (s : string) :
  opt_space_run p s = None -> run p s = None.
Proof.
  unfold opt_space_run.
  destruct s as [|c s']; [auto|].
  destruct c as [[] [] [] [] [] [] [] []]; auto.
  destruct (run p s'); [discriminate|auto].
Qed.

Lemma run_none (p : ascii -> bool) (c : ascii) (s : string) :
  run p (String c s) = None -> p c = false.
Proof.
  unfold run. simpl. destruct (p c); [discriminate|reflexivity].
Qed.

(* The pattern matches at the start of every text that is not empty: each
   character is a letter, a digit, white space or something else. *)
Lemma regex_match_at_some (c : ascii) (s : string) :
  exists n, regex_match_at (String c s) = Some n.
Proof.
  unfold regex_match_at, first_some.
  destruct (contraction _); [eauto|].
  destruct (opt_space_run is_alpha _) eqn:Ha; [eauto|].
  destruct (opt_space_run is_digit _) eqn:Hd; [eauto|].
  destruct (opt_space_run is_other _) eqn:Ho; [eauto|].
  destruct (space_run_not_before_nonspace _ _); [eauto|].
  apply opt_space_run_none, run_none in Ha, Hd, Ho.
  unfold is_other in Ho. rewrite Ha, Hd, !orb_false_r in Ho.
  apply negb_false_iff in Ho.
  unfold run. simpl. rewrite Ho. eauto.
Qed.

Lemma regex_search_head (c : ascii) (s : string) :
  exists n, regex_search (String c s) = Some (O, n)
            /\ (1 <= n <= String.length (String c s))%nat.
Proof.
  destruct (regex_match_at_some c s) as [n Hn].
  exists n. split.
  - cbn [regex_search]. now rewrite Hn.
  - now apply regex_match_at_bounds.
Qed.

Lemma substring_0_0 (s : string) (i : nat) : substring i 0 s = EmptyString.
Proof.
  revert i. induction s as [|c s IH]; intros [|i]; simpl; auto.
Qed.

Lemma append_String (c : ascii) (a b : string) :
  String.append (String c a) b = String c (String.append a b).
Proof. reflexivity. Qed.

Lemma append_empty (b : string) : String.append EmptyString b = b.
Proof. reflexivity. Qed.

Lemma substring_app (s : string) (i a b : nat) :
  substring i (a + b) s
  = String.append (substring i a s) (substring (i + a) b s).
Proof.
  revert i a. induction s as [|c s IH]; intros i a.
  - destruct i, a, b; reflexivity.
  - destruct i as [|i].
    + destruct a as [|a].
      * reflexivity.
      * cbn [substring Nat.add]. rewrite append_String. f_equal. apply (IH O a).
    + cbn [substring Nat.add]. apply IH.
Qed.

Lemma substring_cut (s : string) (i j n : nat) :
  (i <= j <= n)%nat ->
  substring i (n - i) s
  = String.append (substring i (j - i) s) (substring j (n - j) s).
Proof.
  intros H. replace (n - i)%nat with ((j - i) + (n - j))%nat by lia.
  rewrite substring_app. replace (i + (j - i))%nat with j by lia.
  reflexivity.
Qed.

Lemma substring_cut_1 (s : string) (j n : nat) :
  (j < n)%nat ->
  substring j (n - j) s
  = String.append (substring j 1 s) (substring (S j) (n - S j) s).
Proof.
  intros H. rewrite (substring_cut s j (S j) n) by lia.
  replace (S j - j)%nat with 1%nat by lia. reflexivity.
Qed.

Lemma append_assoc (a b c : string) :
  String.append (String.append a b) c = String.append a (String.append b c).
Proof.
  induction a as [|x a IH]; [reflexivity|].
  rewrite !append_String. now rewrite IH.
Qed.

Lemma append_empty_r (a : string) : String.append a EmptyString = a.
Proof.
  induction a as [|x a IH]; [reflexivity|].
  rewrite append_String. now rewrite IH.
Qed.

Lemma join_cons (w : string) (ws : list string) :
  join_words (w :: ws) = String.append w (join_words ws).
Proof. reflexivity. Qed.

Lemma join_app (l1 l2 : list string) :
  join_words (l1 ++ l2) = String.append (join_words l1) (join_words l2).
Proof.
  induction l1 as [|w l1 IH]; [reflexivity|].
  cbn [app]. rewrite !join_cons, IH. symmetry. apply append_assoc.
Qed.

Lemma append_length (a b : string) :
  String.length (String.append a b) = (String.length a + String.length b)%nat.
Proof.
  induction a as [|c a IH]; [reflexivity|].
  rewrite append_String. simpl. now rewrite IH.
Qed.

(* The words are consecutive pieces of the text, none of them empty. *)
Lemma split_words_join (fuel : nat) (str : string) :
  (String.length str <= fuel)%nat ->
  join_words (split_words fuel str) = str
  /\ Forall (fun w => (1 <= String.length w)%nat) (split_words fuel str).
Proof.
  revert str. induction fuel as [fuel IH] using lt_wf_ind.
  intros str Hlen.
  destruct str as [|c s].
  - destruct fuel; simpl; auto.
  - destruct fuel as [|fuel]; [simpl in Hlen; lia|].
    destruct (regex_search_head c s) as (n & Hs & Hn).
    cbn [split_words]. rewrite Hs. cbn [Nat.add].
    set (str := String c s) in *.
    assert (Hw : String.length (substring 0 n str) = n)
      by (apply substring_length; lia).
    assert (Hr : String.length (substring n (String.length str - n) str)
                 = (String.length str - n)%nat)
      by (apply substring_length; lia).
    destruct (IH fuel ltac:(lia)
                (substring n (String.length str - n) str) ltac:(lia))
      as [Hj Hall].
    split.
    + rewrite join_cons, Hj.
      pose proof (substring_app str 0 n (String.length str - n)) as Happ.
      cbn [Nat.add] in Happ. rewrite <- Happ.
      replace (n + (String.length str - n))%nat with (String.length str) by lia.
      apply substring_full.
    + constructor; [lia|exact Hall].
Qed.

Lemma longest_match_lookup (vocab : gpt_vocab) (word : string) (i k : nat)
    (id : Z) (j : nat) :
  longest_match vocab word i k = Some (id, j) ->
  token_to_id vocab !! substring i (j - i) word = Some id.
Proof.
  induction k as [|k IH]; simpl; [discriminate|].
  destruct (token_to_id vocab !! substring i (S k) word) eqn:E.
  - intros [= <- <-]. replace (i + S k - i)%nat with (S k) by lia. exact E.
  - exact IH.
Qed.

Lemma longest_match_found (vocab : gpt_vocab) (word : string) (i k kmax : nat)
    (id : Z) :
  (1 <= k <= kmax)%nat ->
  token_to_id vocab !! substring i k word = Some id ->
  (forall k', (k < k' <= kmax)%nat ->
              token_to_id vocab !! substring i k' word = None) ->
  longest_match vocab word i kmax = Some (id, (i + k)%nat).
Proof.
  intros Hk Hid Hnone. induction kmax as [|kmax IH]; [lia|].
  simpl. destruct (Nat.eq_dec k (S kmax)) as [->|Hne].
  - now rewrite Hid.
  - rewrite Hnone by lia. apply IH; [lia|].
    intros k' Hk'. apply Hnone. lia.
Qed.

Lemma piece_ids_app (a b : list (string * option Z)) :
  piece_ids (a ++ b) = piece_ids a ++ piece_ids b.
Proof. apply omap_app. Qed.

Lemma piece_log_app (a b : list (string * option Z)) :
  piece_log (a ++ b) = piece_log a ++ piece_log b.
Proof. apply omap_app. Qed.

(* The loop over one word, from position [i] on. *)
Lemma word_loop_pieces (vocab : gpt_vocab) (word : string) (fuel i : nat)
    (tokens : list Z) (log : list string) :
  (i <= String.length word)%nat ->
  (String.length word - i <= fuel)%nat ->
  exists ps : list (string * option Z),
    word_loop fuel vocab word i tokens log
    = Some (tokens ++ piece_ids ps, log ++ piece_log ps)
    /\ join_words (map fst ps) = substring i (String.length word - i) word
    /\ Forall (piece_ok vocab) ps.
Proof.
  revert i tokens log.
  induction fuel as [|fuel IH]; intros i tokens log Hi Hfuel.
  - exists []. assert (i = String.length word) as -> by lia.
    simpl. rewrite Nat.ltb_irrefl. simpl. rewrite !app_nil_r, Nat.sub_diag.
    rewrite substring_0_0. auto.
  - cbn [word_loop].
    destruct (i <? String.length word)%nat eqn:Hlt; cbn [negb].
    2:{ apply Nat.ltb_ge in Hlt. assert (i = String.length word) as -> by lia.
        exists []. simpl. rewrite !app_nil_r, Nat.sub_diag, substring_0_0. auto. }
    apply Nat.ltb_lt in Hlt.
    set (n := String.length word) in *.
    assert (Hone : forall p, (p < n)%nat -> String.length (substring p 1 word) = 1%nat)
      by (intros p Hp; apply substring_length; fold n; lia).
    destruct (longest_match vocab word i (n - i)) as [[id j]|] eqn:Hm.
    + pose proof (longest_match_bounds _ _ _ _ _ _ Hm) as Hj.
      pose proof (longest_match_lookup _ _ _ _ _ _ Hm) as Hid.
      assert (Hwl : String.length (substring i (j - i) word) = (j - i)%nat)
        by (apply substring_length; fold n; lia).
      destruct (j =? n)%nat eqn:Hjn.
      * apply Nat.eqb_eq in Hjn. subst j.
        exists [(substring i (n - i) word, Some id)].
        simpl. rewrite app_nil_r. split; [reflexivity|]. split.
        -- apply append_empty_r.
        -- repeat constructor; simpl; [exact Hid|lia|discriminate].
      * apply Nat.eqb_neq in Hjn. rewrite Nat.eqb_refl.
        destruct (token_to_id vocab !! substring j 1 word) as [id2|] eqn:H2.
        -- destruct (IH (S j) ((tokens ++ [id]) ++ [id2]) log ltac:(lia) ltac:(lia))
             as (ps & Hrun & Hjoin & Hok).
           exists ((substring i (j - i) word, Some id)
                   :: (substring j 1 word, Some id2) :: ps).
           split; [|split].
           ++ rewrite Hrun. simpl. rewrite <- !app_assoc. reflexivity.
           ++ cbn [map fst]. rewrite !join_cons, Hjoin.
              rewrite (substring_cut word i j n), (substring_cut_1 word j n) by lia.
              reflexivity.
           ++ constructor; [|constructor; [|exact Hok]].
              ** repeat split; simpl; [exact Hid|lia|discriminate].
              ** repeat split; simpl; [exact H2|rewrite Hone; lia|discriminate].
        -- destruct (IH (S j) (tokens ++ [id]) (log ++ [substring j 1 word])
                        ltac:(lia) ltac:(lia))
             as (ps & Hrun & Hjoin & Hok).
           exists ((substring i (j - i) word, Some id)
                   :: (substring j 1 word, None) :: ps).
           split; [|split].
           ++ rewrite Hrun. simpl. rewrite <- !app_assoc. reflexivity.
           ++ cbn [map fst]. rewrite !join_cons, Hjoin.
              rewrite (substring_cut word i j n), (substring_cut_1 word j n) by lia.
              reflexivity.
           ++ constructor; [|constructor; [|exact Hok]].
              ** repeat split; simpl; [exact Hid|lia|discriminate].
              ** repeat split; simpl; [exact H2|rewrite Hone; lia|intros _; apply Hone; lia].
    + destruct (i =? n)%nat eqn:Hin; [apply Nat.eqb_eq in Hin; lia|].
      rewrite Nat.eqb_refl.
      destruct (token_to_id vocab !! substring i 1 word) as [id2|] eqn:H2.
      * destruct (IH (S i) (tokens ++ [id2]) log ltac:(lia) ltac:(lia))
          as (ps & Hrun & Hjoin & Hok).
        exists ((substring i 1 word, Some id2) :: ps).
        split; [|split].
        -- rewrite Hrun. simpl. rewrite <- !app_assoc. reflexivity.
        -- cbn [map fst]. rewrite !join_cons, Hjoin.
           rewrite (substring_cut_1 word i n) by lia. reflexivity.
        -- constructor; [|exact Hok].
           repeat split; simpl; [exact H2|rewrite Hone; lia|discriminate].
      * destruct (IH (S i) tokens (log ++ [substring i 1 word])
                     ltac:(lia) ltac:(lia))
          as (ps & Hrun & Hjoin & Hok).
        exists ((substring i 1 word, None) :: ps).
        split; [|split].
        -- rewrite Hrun. simpl. rewrite <- !app_assoc. reflexivity.
        -- cbn [map fst]. rewrite !join_cons, Hjoin.
           rewrite (substring_cut_1 word i n) by lia. reflexivity.
        -- constructor; [|exact Hok].
           repeat split; simpl; [exact H2|rewrite Hone; lia|intros _; apply Hone; lia].
Qed.

Lemma words_loop_pieces (vocab : gpt_vocab) (words : list string)
    (tokens : list Z) (log : list string) :
  exists ps : list (string * option Z),
    words_loop vocab words tokens log
    = Some (tokens ++ piece_ids ps, log ++ piece_log ps)
    /\ join_words (map fst ps) = join_words words
    /\ Forall (piece_ok vocab) ps.
Proof.
  revert tokens log.
  induction words as [|w ws IH]; intros tokens log; cbn [words_loop].
  - exists []. simpl. rewrite !app_nil_r. auto.
  - destruct (String.length w =? 0)%nat eqn:Hw.
    + apply Nat.eqb_eq in Hw. destruct w; [|discriminate Hw].
      destruct (IH tokens log) as (ps & Hrun & Hjoin & Hok).
      exists ps. simpl. auto.
    + destruct (word_loop_pieces vocab w (String.length w) 0 tokens log
                  ltac:(lia) ltac:(lia)) as (ps1 & Hrun1 & Hjoin1 & Hok1).
      rewrite Hrun1.
      destruct (IH (tokens ++ piece_ids ps1) (log ++ piece_log ps1))
        as (ps2 & Hrun2 & Hjoin2 & Hok2).
      exists (ps1 ++ ps2). split; [|split].
      * rewrite Hrun2, piece_ids_app, piece_log_app, !app_assoc. reflexivity.
      * rewrite List.map_app, join_app, Hjoin1, Hjoin2.
        rewrite Nat.sub_0_r, substring_full. reflexivity.
      * apply Forall_app. auto.
Qed.

Lemma gpt_tokenize_log_pieces (vocab : gpt_vocab) (text : string) :
  exists ps : list (string * option Z),
    gpt_tokenize_log vocab text = Some (piece_ids ps, piece_log ps)
    /\ join_words (map fst ps) = text
    /\ Forall (piece_ok vocab) ps.
Proof.
  unfold gpt_tokenize_log.
  destruct (words_loop_pieces vocab (split_words (String.length text) text) [] [])
    as (ps & Hrun & Hjoin & Hok).
  exists ps. split; [exact Hrun|]. split; [|exact Hok].
  rewrite Hjoin. apply split_words_join. lia.
Qed.

Lemma pieces_length (vocab : gpt_vocab) (ps : list (string * option Z)) :
  Forall (piece_ok vocab) ps ->
  (length (piece_ids ps) <= String.length (join_words (map fst ps)))%nat.
Proof.
  induction 1 as [|p ps (_ & Hp & _) _ IH]; [simpl; lia|].
  cbn [map]. rewrite join_cons, append_length.
  unfold piece_ids in *. cbn [omap list_omap]. destruct (snd p); simpl; lia.
Qed.

(** X1.  The words gpt_tokenize cuts a text into are consecutive pieces of it:
    put together they give the text back, and none is empty (so the loop's
    test for an empty word never fires). *)
Theorem split_words_partition (text : string) :
  join_words (split_words (String.length text) text) = text
  /\ Forall (fun w => w <> EmptyString) (split_words (String.length text) text).
Proof.
  destruct (split_words_join (String.length text) text ltac:(lia)) as [H1 H2].
  split; [exact H1|].
  eapply Forall_impl; [exact H2|]. intros w Hw ->. simpl in Hw. lia.
Qed.

(** X2.  gpt_tokenize consumes the text from left to right without loss: the
    text is a sequence of pieces, each either a vocabulary entry, for which
    its id is emitted, or a single character that is no entry, which is
    reported as unknown; the ids and the reports come in the order of the
    pieces. *)
Theorem tokens_segment_the_text (vocab : gpt_vocab) (text : string) :
  exists ps : list (string * option Z),
    gpt_tokenize_log vocab text = Some (piece_ids ps, piece_log ps)
    /\ join_words (map fst ps) = text
    /\ Forall (piece_ok vocab) ps.
Proof. apply gpt_tokenize_log_pieces. Qed.

(** X3.  For a prompt short enough for its length to be an int,
    gptj_num_tokens is not negative and never more than the length of the
    prompt. *)
Theorem num_tokens_at_most_length (vocab : gpt_vocab) (prompt : string)
    (Hint : Z.of_nat (String.length prompt) < 2 ^ 31) :
  0 <= gptj_num_tokens vocab prompt <= Z.of_nat (String.length prompt).
Proof.
  unfold gptj_num_tokens, gpt_tokenize.
  destruct (gpt_tokenize_log_pieces vocab prompt) as (ps & -> & Hjoin & Hok).
  pose proof (pieces_length vocab ps Hok) as H. rewrite Hjoin in H. lia.
Qed.

(** X4.  Where id_to_token maps every id of token_to_id back to its text and
    no character was reported as unknown, the texts of the ids gpt_tokenize
    returns, put together, are the text. *)
Theorem detokenize_tokenize (vocab : gpt_vocab) (text : string) (tokens : list Z)
    (Hinv : forall w id, token_to_id vocab !! w = Some id ->
                         id_to_token vocab !! id = Some w)
    (Hlog : gpt_tokenize_log vocab text = Some (tokens, [])) :
  gpt_tokenize vocab text = tokens /\ detokenize vocab tokens = text.
Proof.
  unfold gpt_tokenize. rewrite Hlog. split; [reflexivity|].
  destruct (gpt_tokenize_log_pieces vocab text) as (ps & Hrun & Hjoin & Hok).
  rewrite Hrun in Hlog. injection Hlog as <- Hnil.
  rewrite <- Hjoin. clear Hrun Hjoin.
  induction Hok as [|p ps (Hp & _ & _) _ IH]; [reflexivity|].
  destruct p as [w [id|]]; simpl in *.
  - unfold detokenize in *. simpl. unfold piece_ids in *. simpl.
    unfold id_to_token_at at 1. rewrite (Hinv w id Hp). simpl.
    f_equal. apply IH. exact Hnil.
  - discriminate Hnil.
Qed.

(** X5.  The first id of a word is that of its longest prefix in the
    vocabulary; when that prefix is not the whole word, the character after
    it is consumed on its own, as its own id if it is an entry and as a
    reported unknown character otherwise, and the scan goes on behind that
    character: no longer entry that starts at it is looked for. *)
Theorem single_character_after_partial_match (vocab : gpt_vocab)
    (text : string) (k : nat) (id : Z)
    (Hword : split_words (String.length text) text = [text])
    (Hk : (1 <= k < String.length text)%nat)
    (Hid : token_to_id vocab !! substring 0 k text = Some id)
    (Hlongest : forall k', (k < k' <= String.length text)%nat ->
                           token_to_id vocab !! substring 0 k' text = None) :
  exists rest_tokens rest_log,
    word_loop (String.length text - 1) vocab text (S k) [] []
    = Some (rest_tokens, rest_log)
    /\ gpt_tokenize_log vocab text
       = Some (id :: match token_to_id vocab !! substring k 1 text with
                     | Some c => c :: rest_tokens
                     | None => rest_tokens
                     end,
               match token_to_id vocab !! substring k 1 text with
               | Some _ => rest_log
               | None => substring k 1 text :: rest_log
               end)
    /\ gpt_tokenize vocab text
       = id :: match token_to_id vocab !! substring k 1 text with
               | Some c => c :: rest_tokens
               | None => rest_tokens
               end.
Proof.
  destruct (word_loop_total vocab text (String.length text - 1) (S k) [] []
              ltac:(lia)) as [[rest_tokens rest_log] Hrest].
  exists rest_tokens, rest_log. split; [exact Hrest|].
  assert (Hlog : gpt_tokenize_log vocab text
       = Some (id :: match token_to_id vocab !! substring k 1 text with
                     | Some c => c :: rest_tokens
                     | None => rest_tokens
                     end,
               match token_to_id vocab !! substring k 1 text with
               | Some _ => rest_log
               | None => substring k 1 text :: rest_log
               end)).
  { unfold gpt_tokenize_log. rewrite Hword.
    cbn [words_loop].
    destruct (String.length text) as [|n] eqn:Hlen; [lia|].
    cbn [Nat.eqb]. cbn [word_loop]. rewrite Hlen.
    change (0 <? S n)%nat with true. cbn [negb]. rewrite Nat.sub_0_r.
    rewrite (longest_match_found vocab text 0 k (S n) id) by (auto; lia).
    cbn [Nat.add app].
    destruct (k =? S n)%nat eqn:E; [apply Nat.eqb_eq in E; lia|].
    rewrite Nat.eqb_refl.
    replace (S n - 1)%nat with n in Hrest by lia.
    destruct (token_to_id vocab !! substring k 1 text) as [c|];
      rewrite word_loop_acc, Hrest; reflexivity. }
  split; [exact Hlog|]. unfold gpt_tokenize. now rewrite Hlog.
Qed.

(** **** Words and their leading space *)

Lemma contraction_none (c : ascii) (s : string) :
  c <> "'"%char -> contraction (String c s) = None.
Proof.
  intros Hc. unfold contraction. cbn [String.prefix].
  destruct (ascii_dec "'" c) as [E|_]; [now contradiction Hc|reflexivity].
Qed.

Lemma opt_space_run_no_space (p : ascii -> bool) (c : ascii) (s : string) :
  c <> " "%char -> opt_space_run p (String c s) = run p (String c s).
Proof.
  intros Hc. unfold opt_space_run.
  destruct c as [[] [] [] [] [] [] [] []]; try reflexivity.
  now contradiction Hc.
Qed.

Lemma span_append_stop (p : ascii -> bool) (a : string) (x : ascii)
    (r : string) :
  span p a = String.length a -> p x = false ->
  span p (String.append a (String x r)) = String.length a.
Proof.
  induction a as [|c a IH]; intros Ha Hx.
  - rewrite append_empty. simpl. now rewrite Hx.
  - rewrite append_String. simpl in *. destruct (p c); [|discriminate Ha].
    f_equal. apply IH; [lia|exact Hx].
Qed.

Lemma substring_append_l (a b : string) :
  substring 0 (String.length a) (String.append a b) = a.
Proof.
  induction a as [|c a IH]; [apply substring_0_0|].
  rewrite append_String. simpl. now rewrite IH.
Qed.

Lemma substring_append_r (a b : string) :
  substring (String.length a) (String.length b) (String.append a b) = b.
Proof.
  induction a as [|c a IH]; [rewrite append_empty; apply substring_full|].
  rewrite append_String. simpl. exact IH.
Qed.

(* A run of letters matches the pattern as a whole, with the space in front
   of it if there is one. *)
Lemma regex_search_letters (a : string) (x : ascii) (r : string) :
  a <> EmptyString -> span is_alpha a = String.length a ->
  is_alpha x = false ->
  regex_search (String.append a (String x r)) = Some (O, String.length a).
Proof.
  intros Hne Ha Hx. destruct a as [|c a]; [now contradiction Hne|].
  assert (Hc : is_alpha c = true)
    by (simpl in Ha; destruct (is_alpha c); [reflexivity|discriminate Ha]).
  pose proof (span_append_stop is_alpha (String c a) x r Ha Hx) as Hspan.
  rewrite append_String in *.
  cbn [regex_search]. unfold regex_match_at.
  rewrite contraction_none by (intros ->; discriminate Hc).
  rewrite opt_space_run_no_space by (intros ->; discriminate Hc).
  unfold run. rewrite Hspan. reflexivity.
Qed.

Lemma regex_search_spaced_letters (b : string) :
  b <> EmptyString -> span is_alpha b = String.length b ->
  regex_search (String " " b) = Some (O, S (String.length b)).
Proof.
  intros Hne Hb. destruct b as [|c b]; [now contradiction Hne|].
  cbn [regex_search]. unfold regex_match_at.
  rewrite contraction_none by discriminate.
  unfold opt_space_run, run. rewrite Hb. reflexivity.
Qed.

(** X6.  Two words of letters with one space between them are split into the
    first word and the second word with the space in front of it: the space
    belongs to the word that follows it. *)
Theorem words_carry_their_leading_space (a b : string)
    (Ha : a <> EmptyString) (Hb : b <> EmptyString)
    (Ha_letters : span is_alpha a = String.length a)
    (Hb_letters : span is_alpha b = String.length b) :
  let text := String.append a (String " " b) in
  split_words (String.length text) text = [a; String " " b].
Proof.
  cbv zeta.
  assert (Hlen : String.length (String.append a (String " " b))
                 = (String.length a + S (String.length b))%nat)
    by (rewrite append_length; reflexivity).
  rewrite Hlen.
  destruct a as [|ca a]; [now contradiction Ha|].
  destruct b as [|cb b]; [now contradiction Hb|].
  set (wa := String ca a) in *. set (wb := String cb b) in *.
  replace (String.length wa + S (String.length wb))%nat
    with (S (S (String.length a + S (String.length b))))%nat
    by (unfold wa, wb; simpl; lia).
  cbn [split_words].
  rewrite (regex_search_letters wa " " wb Ha Ha_letters eq_refl).
  cbn [Nat.add]. rewrite substring_append_l. f_equal.
  rewrite Hlen.
  replace (String.length wa + S (String.length wb) - String.length wa)%nat
    with (String.length (String " " wb)) by (simpl; lia).
  rewrite substring_append_r.
  rewrite (regex_search_spaced_letters wb Hb Hb_letters).
  cbn [Nat.add]. f_equal.
  - change (S (String.length wb)) with (String.length (String " " wb)).
    apply substring_full.
  - change (S (String.length wb)) with (String.length (String " " wb)).
    rewrite Nat.sub_diag, substring_0_0.
    destruct (String.length a + S (String.length b))%nat; reflexivity.
Qed.

Lemma num_tokens_at_most_length_witness :
  0 <= gptj_num_tokens toy_vocab "hi there" <= Z.of_nat (String.length "hi there").
Proof.
  apply (num_tokens_at_most_length toy_vocab "hi there"). vm_compute. reflexivity.
Defined.

Lemma detokenize_tokenize_witness :
  gpt_tokenize greedy_vocab "abcd" = [0; 2; 3]
  /\ detokenize greedy_vocab [0; 2; 3] = "abcd"%string.
Proof.
  apply (detokenize_tokenize greedy_vocab "abcd" [0; 2; 3]).
  - assert (H : map_Forall
                  (fun w id => id_to_token greedy_vocab !! id = Some w)
                  (token_to_id greedy_vocab))
      by (apply (bool_decide_unpack _); vm_compute; exact I).
    exact H.
  - vm_compute. reflexivity.
Defined.

Lemma single_character_after_partial_match_witness :
  gpt_tokenize_log pair_vocab "abcd" = Some ([0], ["c"; "d"]%string)
  /\ gpt_tokenize pair_vocab "abcd" = [0].
Proof.
  destruct (single_character_after_partial_match pair_vocab "abcd" 2 0)
    as (rest_tokens & rest_log & Hrest & Hlog & Hrun).
  - vm_compute. reflexivity.
  - simpl. lia.
  - vm_compute. reflexivity.
  - intros k' Hk'. simpl in Hk'.
    assert (Hc : k' = 3%nat \/ k' = 4%nat) by lia.
    destruct Hc as [-> | ->]; vm_compute; reflexivity.
  - vm_compute in Hrest. injection Hrest as <- <-.
    split; [exact Hlog|exact Hrun].
Defined.

Lemma words_carry_their_leading_space_witness :
  split_words (String.length "hi there") "hi there" = ["hi"; " there"]%string.
Proof.
  apply (words_carry_their_leading_space "hi" "there").
  - discriminate.
  - discriminate.
  - reflexivity.
  - reflexivity.
Defined.

(** *** Sampler *)

(* The order of binary64 values, from the specification of the primitive
   comparisons. *)
Lemma SFltb_trans (a b c : spec_float) :
  SFltb a b = true -> SFltb b c = true -> SFltb a c = true.
Proof.
  unfold SFltb, SFcompare.
  destruct a as [s1|s1| |s1 m1 e1], b as [s2|s2| |s2 m2 e2],
           c as [s3|s3| |s3 m3 e3];
    try destruct s1; try destruct s2; try destruct s3;
    try discriminate; try reflexivity;
    change (Pos.compare_cont Eq) with Pos.compare;
    destruct (Z.compare_spec e1 e2), (Z.compare_spec e2 e3),
             (Z.compare_spec e1 e3);
    try discriminate; try reflexivity; try lia;
    destruct (Pos.compare_spec m1 m2), (Pos.compare_spec m2 m3),
             (Pos.compare_spec m1 m3);
    simpl; try discriminate; try reflexivity; try lia.
Qed.

Lemma SFeqb_ltb_r (a b c : spec_float) :
  SFeqb a b = true -> SFltb c b = true -> SFltb c a = true.
Proof.
  unfold SFltb, SFeqb, SFcompare.
  destruct a as [s1|s1| |s1 m1 e1], b as [s2|s2| |s2 m2 e2],
           c as [s3|s3| |s3 m3 e3];
    try destruct s1; try destruct s2; try destruct s3;
    try discriminate; try reflexivity;
    change (Pos.compare_cont Eq) with Pos.compare;
    destruct (Z.compare_spec e1 e2), (Z.compare_spec e3 e2),
             (Z.compare_spec e3 e1);
    try discriminate; try reflexivity; try lia;
    destruct (Pos.compare_spec m1 m2), (Pos.compare_spec m3 m2),
             (Pos.compare_spec m3 m1);
    simpl; try discriminate; try reflexivity; try lia.
Qed.

(* Two values that are not NaN are comparable. *)
Lemma SFleb_total (a b : spec_float) :
  SFeqb a a = true -> SFeqb b b = true -> SFltb a b = false ->
  SFleb b a = true.
Proof.
  unfold SFltb, SFleb, SFeqb, SFcompare.
  destruct a as [s1|s1| |s1 m1 e1], b as [s2|s2| |s2 m2 e2];
    try destruct s1; try destruct s2;
    try discriminate; try reflexivity;
    change (Pos.compare_cont Eq) with Pos.compare;
    intros _ _;
    destruct (Z.compare_spec e1 e2), (Z.compare_spec e2 e1);
    try discriminate; try reflexivity; try lia;
    destruct (Pos.compare_spec m1 m2), (Pos.compare_spec m2 m1);
    simpl; try discriminate; try reflexivity; try lia.
Qed.

Lemma leb_total (x y : float) :
  (x =? x)%float = true -> (y =? y)%float = true -> (x <? y)%float = false ->
  (y <=? x)%float = true.
Proof.
  rewrite !FloatAxioms.eqb_spec, ltb_spec, leb_spec. apply SFleb_total.
Qed.

Lemma logit_gt_irrefl (x : float * Z) : logit_gt x x = false.
Proof.
  unfold logit_gt. rewrite ltb_spec. unfold SFltb, SFcompare.
  destruct (Prim2SF (fst x)) as [s|s| |s m e]; try destruct s; try reflexivity;
    rewrite Z.compare_refl, Pos.compare_cont_refl; reflexivity.
Qed.

Lemma logit_gt_trans (x y z : float * Z) :
  logit_gt x y = true -> logit_gt y z = true -> logit_gt x z = true.
Proof.
  unfold logit_gt. rewrite !ltb_spec. intros H1 H2.
  exact (SFltb_trans _ _ _ H2 H1).
Qed.

Lemma logit_eq_gt (x y z : float * Z) :
  logit_eq x y = true -> logit_gt y z = true -> logit_gt x z = true.
Proof.
  unfold logit_gt, logit_eq. rewrite !ltb_spec, FloatAxioms.eqb_spec.
  apply SFeqb_ltb_r.
Qed.

Lemma nth_insert_eq {A} (l : list A) (i : nat) (x d : A) :
  (i < length l)%nat -> nth i (<[i := x]> l) d = x.
Proof.
  intros H. rewrite nth_lookup, list_lookup_insert_eq by exact H. reflexivity.
Qed.

Lemma nth_insert_ne {A} (l : list A) (i j : nat) (x d : A) :
  i <> j -> nth i (<[j := x]> l) d = nth i l d.
Proof.
  intros H. rewrite !nth_lookup, list_lookup_insert_ne by auto. reflexivity.
Qed.

(* std::partial_sort with [middle = begin + 1]: the heap has one element, so
   every __pop_heap is an exchange with the front. *)
Section SelectOne.
Context {A : Type} (comp : A -> A -> bool) (d : A).

Lemma best_upto_le (a : list A) (k : nat) : (best_upto comp d a k <= k)%nat.
Proof. induction k as [|k IH]; simpl; [lia|]. destruct (comp _ _); lia. Qed.

Lemma pop_heap_1 (a : list A) (i : nat) :
  pop_heap comp d a 1 i = <[O := nth i a d]> (<[i := nth O a d]> a).
Proof. reflexivity. Qed.

Lemma heap_select_1_fold (a : list A) (m : nat) :
  (m < length a)%nat ->
  let r := fold_left
             (fun a i => if comp (nth i a d) (nth O a d)
                         then pop_heap comp d a 1 i else a)
             (seq 1 m) a in
  nth O r d = nth (best_upto comp d a m) a d
  /\ (forall j, (m < j)%nat -> nth j r d = nth j a d)
  /\ length r = length a.
Proof.
  induction m as [|m IH]; intros Hm; [simpl; auto|].
  rewrite seq_S, fold_left_app. cbn [fold_left Nat.add].
  destruct IH as (H0 & Hrest & Hlen); [lia|].
  cbv zeta. set (r := fold_left _ (seq 1 m) a) in *.
  cbn [best_upto]. rewrite H0, (Hrest (S m)) by lia.
  destruct (comp (nth (S m) a d) (nth (best_upto comp d a m) a d)) eqn:Hc.
  - rewrite pop_heap_1. repeat split.
    + rewrite nth_insert_eq by (rewrite length_insert; lia).
      apply Hrest. lia.
    + intros j Hj. rewrite !nth_insert_ne by lia. apply Hrest. lia.
    + rewrite !length_insert. exact Hlen.
  - repeat split; auto. intros j Hj. apply Hrest. lia.
Qed.

Lemma partial_sort_1 (a : list A) :
  (1 <= length a)%nat ->
  take 1 (partial_sort comp d a 1)
  = [nth (best_upto comp d a (length a - 1)) a d].
Proof.
  intros Hlen. unfold partial_sort, heap_select. cbn [sort_heap].
  change (make_heap comp d a 1) with a.
  destruct (heap_select_1_fold a (length a - 1)) as (H0 & _ & Hl); [lia|].
  cbv zeta in *.
  set (r := fold_left _ _ a) in *.
  destruct r as [|x r']; [simpl in Hl; lia|].
  simpl in H0. subst x. reflexivity.
Qed.

Variable eqv : A -> A -> bool.
Hypothesis comp_irrefl : forall x, comp x x = false.
Hypothesis comp_trans :
  forall x y z, comp x y = true -> comp y z = true -> comp x z = true.
Hypothesis eqv_comp :
  forall x y z, eqv x y = true -> comp y z = true -> comp x z = true.

Lemma best_upto_max (a : list A) (k j : nat) :
  (j <= k)%nat -> comp (nth j a d) (nth (best_upto comp d a k) a d) = false.
Proof.
  induction k as [|k IH]; intros Hj.
  - assert (j = O) by lia. subst. simpl. apply comp_irrefl.
  - simpl.
    destruct (comp (nth (S k) a d) (nth (best_upto comp d a k) a d)) eqn:Hc.
    + destruct (Nat.eq_dec j (S k)) as [->|Hne]; [apply comp_irrefl|].
      destruct (comp (nth j a d) (nth (S k) a d)) eqn:Hj2; [|reflexivity].
      rewrite <- (IH ltac:(lia)). symmetry. eapply comp_trans; eauto.
    + destruct (Nat.eq_dec j (S k)) as [->|Hne]; [exact Hc|].
      apply IH. lia.
Qed.

Lemma best_upto_first (a : list A) (k j : nat) :
  (j < best_upto comp d a k)%nat ->
  eqv (nth j a d) (nth (best_upto comp d a k) a d) = false.
Proof.
  induction k as [|k IH]; simpl; [lia|].
  destruct (comp (nth (S k) a d) (nth (best_upto comp d a k) a d)) eqn:Hc.
  - intros Hj.
    destruct (eqv (nth j a d) (nth (S k) a d)) eqn:He; [|reflexivity].
    rewrite <- (best_upto_max a k j ltac:(lia)). symmetry.
    eapply eqv_comp; eauto.
  - exact IH.
Qed.
End SelectOne.

(* std::partial_sort does not keep equal elements in their original order
   once the heap has two elements. *)
Lemma partial_sort_not_stable :
  take 2 (partial_sort logit_gt (0%float, 0)
            [(1%float, 0); (2%float, 1); (2%float, 2)] 2)
  = [(2%float, 2); (2%float, 1)].
Proof. vm_compute. reflexivity. Qed.

Lemma nth_logits_id (logits : list float) (scale : float) (n j : nat)
    (d : float * Z) :
  (j < n)%nat ->
  nth j (map (fun i => ((nth i logits 0 * scale)%float, Z.of_nat i)) (seq 0 n)) d
  = ((nth j logits 0 * scale)%float, Z.of_nat j).
Proof.
  intros Hj.
  set (f := fun i => ((nth i logits 0 * scale)%float, Z.of_nat i)).
  transitivity (nth j (map f (seq 0 n)) (f O)).
  - apply nth_indep. rewrite length_map, length_seq. exact Hj.
  - rewrite (map_nth f), seq_nth by exact Hj. reflexivity.
Qed.

Lemma first_max_le (score : nat -> float) (k : nat) :
  (first_max score k <= k)%nat.
Proof. induction k as [|k IH]; simpl; [lia|]. destruct (_ <? _)%float; lia. Qed.

(* The scan of std::partial_sort over the pairs is the scan over the scaled
   scores. *)
Lemma best_upto_first_max (logits : list float) (temp : float) (n k : nat) :
  (k < n)%nat ->
  best_upto logit_gt (0%float, 0)
    (map (fun i => ((nth i logits 0 * (1 / temp))%float, Z.of_nat i)) (seq 0 n))
    k
  = first_max (scaled_logit logits temp) k.
Proof.
  induction k as [|k IH]; intros Hk; [reflexivity|].
  cbn [best_upto first_max]. rewrite IH by lia.
  pose proof (first_max_le (scaled_logit logits temp) k) as Hle.
  rewrite !nth_logits_id by lia. unfold logit_gt. cbn [fst].
  reflexivity.
Qed.

(* With top_k = 1 only the front of the sorted vector is looked at, and the
   distribution over one candidate always gives index 0 without a draw. *)
Lemma sampler_top_k_one (exp : float -> float) (Rng : Type)
    (canonical : Rng -> float * Rng) (vocab : gpt_vocab) (logits : list float)
    (top_p temp : float) (rng : Rng) :
  (1 <= size (id_to_token vocab))%nat ->
  (size (id_to_token vocab) <= length logits)%nat ->
  gpt_sample_top_k_top_p exp Rng canonical vocab logits 1 top_p temp rng
  = Some (Z.of_nat (first_max (scaled_logit logits temp)
                              (size (id_to_token vocab) - 1)), rng).
Proof.
  intros Hn Hlen.
  set (n := size (id_to_token vocab)) in *.
  rewrite <- (best_upto_first_max logits temp n (n - 1)) by lia.
  set (ids := map (fun i => ((nth i logits 0 * (1 / temp))%float, Z.of_nat i))
                  (seq 0 n)).
  assert (Hids : length ids = n)
    by (unfold ids; now rewrite length_map, length_seq).
  set (best := best_upto logit_gt (0%float, 0) ids (n - 1)).
  assert (Hbest : (best < n)%nat).
  { pose proof (best_upto_le logit_gt (0%float, 0) ids (n - 1)) as H.
    fold best in H. lia. }
  unfold gpt_sample_top_k_top_p. fold n.
  replace ((0 <=? 1) && (1 <=? Z.of_nat n) && (n <=? length logits)%nat)
    with true.
  2:{ symmetry. rewrite !andb_true_iff. repeat split.
      - apply Z.leb_le. lia.
      - apply Nat.leb_le. lia. }
  cbn [negb]. fold ids.
  change (Z.to_nat 1) with 1%nat.
  rewrite partial_sort_1 by lia. rewrite Hids. fold best.
  replace (nth best ids (0%float, 0))
    with (scaled_logit logits temp best, Z.of_nat best)
    by (unfold ids; now rewrite nth_logits_id).
  cbn [fold_left map fst].
  destruct (top_p <? 1)%float.
  - cbn [top_p_loop].
    destruct (top_p <=? _)%float;
      cbn [take map discrete_distribution length Nat.ltb Nat.leb
           discrete_draw lookup list_lookup snd]; reflexivity.
  - reflexivity.
Qed.

(** C6, as stated, fails: with logits [1; 2] the sampler called with
    top_k = 1 returns id 0, whose logit is the lower one, both for
    temperature -1 (the scaled scores are -1 and -2) and for temperature 0
    (both scaled scores are infinite and the first is kept). *)
Lemma top_k_one_highest_logit_counterexample :
  gpt_sample_top_k_top_p (fun x => x) unit (fun r => (0.5%float, r))
    two_vocab [1; 2]%float 1 0.5%float (-1)%float tt = Some (0, tt)
  /\ gpt_sample_top_k_top_p (fun x => x) unit (fun r => (0.5%float, r))
       two_vocab [1; 2]%float 1 0.5%float 0%float tt = Some (0, tt)
  /\ (nth 0 [1; 2] 0 <? nth 1 [1; 2] 0)%float = true.
Proof. repeat split; vm_compute; reflexivity. Qed.

(** C6, amended.  With top_k = 1 and a vocabulary of at least one id, the
    sampler returns, for every logits vector, temperature, top_p and state of
    the generator (which it leaves untouched), the id at which a scan of the
    scaled scores logits[id] * (1 / temperature) ends that starts at id 0
    and moves on to a later id only where its score is strictly greater.
    No id's scaled score compares greater than that of the id returned, and
    no lower id's compares equal to it; where no scaled score is NaN, every
    id's scaled score is less than or equal to it, so that the id returned
    is the lowest of those with the highest scaled score. *)
Theorem top_k_one_selects_first_maximum
    (exp : float -> float) (Rng : Type) (canonical : Rng -> float * Rng)
    (vocab : gpt_vocab) (logits : list float) (top_p temp : float) (rng : Rng)
    (Hn : (1 <= size (id_to_token vocab))%nat)
    (Hlen : (size (id_to_token vocab) <= length logits)%nat) :
  exists best : nat,
    gpt_sample_top_k_top_p exp Rng canonical vocab logits 1 top_p temp rng
    = Some (Z.of_nat best, rng)
    /\ best = first_max (scaled_logit logits temp)
                        (size (id_to_token vocab) - 1)
    /\ (best < size (id_to_token vocab))%nat
    /\ (forall j, (j < size (id_to_token vocab))%nat ->
          (scaled_logit logits temp best <? scaled_logit logits temp j)%float
          = false)
    /\ (forall j, (j < best)%nat ->
          (scaled_logit logits temp j =? scaled_logit logits temp best)%float
          = false)
    /\ ((forall j, (j < size (id_to_token vocab))%nat ->
           (scaled_logit logits temp j =? scaled_logit logits temp j)%float
           = true) ->
        forall j, (j < size (id_to_token vocab))%nat ->
          (scaled_logit logits temp j <=? scaled_logit logits temp best)%float
          = true).
Proof.
  set (n := size (id_to_token vocab)) in *.
  set (ids := map (fun i => ((nth i logits 0 * (1 / temp))%float, Z.of_nat i))
                  (seq 0 n)).
  set (best := first_max (scaled_logit logits temp) (n - 1)).
  assert (Hscan : best_upto logit_gt (0%float, 0) ids (n - 1) = best)
    by (apply best_upto_first_max; lia).
  assert (Hbest : (best < n)%nat).
  { pose proof (first_max_le (scaled_logit logits temp) (n - 1)) as H.
    fold best in H. lia. }
  assert (Hnth : forall j, (j < n)%nat ->
            nth j ids (0%float, 0) = (scaled_logit logits temp j, Z.of_nat j)).
  { intros j Hj. unfold ids. now rewrite nth_logits_id. }
  assert (Hmax : forall j, (j < n)%nat ->
            (scaled_logit logits temp best <? scaled_logit logits temp j)%float
            = false).
  { intros j Hj.
    pose proof (best_upto_max logit_gt (0%float, 0) logit_gt_irrefl
                  logit_gt_trans ids (n - 1) j ltac:(lia)) as H.
    rewrite Hscan, !Hnth in H by assumption. exact H. }
  exists best. split; [now apply sampler_top_k_one|].
  split; [reflexivity|]. split; [exact Hbest|]. split; [exact Hmax|]. split.
  - intros j Hj.
    pose proof (best_upto_first logit_gt (0%float, 0) logit_eq logit_gt_irrefl
                  logit_gt_trans logit_eq_gt ids (n - 1) j) as H.
    rewrite Hscan in H. specialize (H Hj).
    rewrite !Hnth in H by lia. exact H.
  - intros Hnan j Hj. apply leb_total; auto.
Qed.

Lemma top_k_one_selects_first_maximum_witness :
  exists best : nat,
    gpt_sample_top_k_top_p (fun x => x) unit (fun r => (0.5%float, r))
      toy_vocab [0; 1; 1]%float 1 0.5%float 2%float tt
    = Some (Z.of_nat best, tt)
    /\ best = first_max (scaled_logit [0; 1; 1]%float 2%float)
                        (size (id_to_token toy_vocab) - 1)
    /\ (best < size (id_to_token toy_vocab))%nat
    /\ (forall j, (j < size (id_to_token toy_vocab))%nat ->
          (scaled_logit [0; 1; 1]%float 2%float best <? scaled_logit [0; 1; 1]%float 2%float j)%float
          = false)
    /\ (forall j, (j < best)%nat ->
          (scaled_logit [0; 1; 1]%float 2%float j =? scaled_logit [0; 1; 1]%float 2%float best)%float
          = false)
    /\ ((forall j, (j < size (id_to_token toy_vocab))%nat ->
           (scaled_logit [0; 1; 1]%float 2%float j =? scaled_logit [0; 1; 1]%float 2%float j)%float
           = true) ->
        forall j, (j < size (id_to_token toy_vocab))%nat ->
          (scaled_logit [0; 1; 1]%float 2%float j <=? scaled_logit [0; 1; 1]%float 2%float best)%float
          = true).
Proof.
  apply (top_k_one_selects_first_maximum (fun x => x) unit
           (fun r => (0.5%float, r)) toy_vocab [0; 1; 1]%float
           0.5%float 2%float tt).
  - vm_compute. lia.
  - vm_compute. lia.
Defined.

(** *** Sampler: the range of the result *)

(* std::partial_sort only moves elements around: the vector keeps its length,
   and what holds of every element before holds of every element after. *)
Section PartialSortKeeps.
Context {A : Type} (comp : A -> A -> bool) (d : A).
Variable P : A -> Prop.
Hypothesis P_d : P d.

Lemma Forall_nth_default (a : list A) (i : nat) : Forall P a -> P (nth i a d).
Proof.
  intros H. destruct (nth_in_or_default i a d) as [Hin| ->]; [|exact P_d].
  rewrite List.Forall_forall in H. now apply H.
Qed.

Lemma push_heap_keeps (fuel : nat) (a : list A) (holeIndex topIndex : nat)
    (value : A) :
  Forall P a -> P value ->
  Forall P (push_heap comp d fuel a holeIndex topIndex value)
  /\ length (push_heap comp d fuel a holeIndex topIndex value) = length a.
Proof.
  revert a holeIndex.
  induction fuel as [|fuel IH]; intros a holeIndex Ha Hv; cbn [push_heap].
  - split; [now apply Forall_insert|apply length_insert].
  - destruct (_ && _).
    + destruct (IH (<[holeIndex := nth ((holeIndex - 1) / 2) a d]> a)
                   ((holeIndex - 1) / 2)%nat) as [H1 H2]; auto.
      { apply Forall_insert; [exact Ha|]. now apply Forall_nth_default. }
      split; [exact H1|]. now rewrite H2, length_insert.
    + split; [now apply Forall_insert|apply length_insert].
Qed.

Lemma adjust_heap_loop_keeps (fuel : nat) (a : list A)
    (holeIndex secondChild len : nat) :
  Forall P a ->
  Forall P (fst (fst (adjust_heap_loop comp d fuel a holeIndex secondChild len)))
  /\ length (fst (fst (adjust_heap_loop comp d fuel a holeIndex secondChild len)))
     = length a.
Proof.
  revert a holeIndex secondChild.
  induction fuel as [|fuel IH]; intros a holeIndex secondChild Ha;
    cbn [adjust_heap_loop].
  - auto.
  - destruct (_ <? _)%nat; [|auto].
    match goal with
    | |- context [adjust_heap_loop _ _ _ (<[?h := ?x]> a) ?s1 ?s2 _] =>
        destruct (IH (<[h := x]> a) s1 s2) as [H1 H2];
        [apply Forall_insert; [exact Ha|now apply Forall_nth_default]|]
    end.
    split; [exact H1|]. now rewrite H2, length_insert.
Qed.

Lemma adjust_heap_keeps (a : list A) (holeIndex len : nat) (value : A) :
  Forall P a -> P value ->
  Forall P (adjust_heap comp d a holeIndex len value)
  /\ length (adjust_heap comp d a holeIndex len value) = length a.
Proof.
  intros Ha Hv. unfold adjust_heap.
  destruct (adjust_heap_loop_keeps len a holeIndex holeIndex len Ha) as [H1 H2].
  destruct (adjust_heap_loop comp d len a holeIndex holeIndex len)
    as [[a1 holeIndex1] secondChild1].
  cbn [fst] in H1, H2.
  destruct (_ && _).
  - match goal with
    | |- context [push_heap _ _ ?f (<[?h := ?x]> a1) ?h2 ?t _] =>
        destruct (push_heap_keeps f (<[h := x]> a1) h2 t value) as [H3 H4];
        [apply Forall_insert; [exact H1|now apply Forall_nth_default]
        |exact Hv|]
    end.
    split; [exact H3|]. now rewrite H4, length_insert.
  - destruct (push_heap_keeps holeIndex1 a1 holeIndex1 holeIndex value)
      as [H3 H4]; auto.
    split; [exact H3|]. congruence.
Qed.

Lemma make_heap_loop_keeps (parent : nat) (a : list A) (len : nat) :
  Forall P a ->
  Forall P (make_heap_loop comp d parent a len)
  /\ length (make_heap_loop comp d parent a len) = length a.
Proof.
  revert a. induction parent as [|parent IH]; intros a Ha;
    cbn [make_heap_loop].
  - apply adjust_heap_keeps; [exact Ha|now apply Forall_nth_default].
  - destruct (adjust_heap_keeps a (S parent) len (nth (S parent) a d))
      as [H1 H2]; [exact Ha|now apply Forall_nth_default|].
    destruct (IH _ H1) as [H3 H4]. split; [exact H3|congruence].
Qed.

Lemma make_heap_keeps (a : list A) (len : nat) :
  Forall P a ->
  Forall P (make_heap comp d a len) /\ length (make_heap comp d a len) = length a.
Proof.
  intros Ha. unfold make_heap. destruct (len <? 2)%nat; [auto|].
  now apply make_heap_loop_keeps.
Qed.

Lemma pop_heap_keeps (a : list A) (len result : nat) :
  Forall P a ->
  Forall P (pop_heap comp d a len result)
  /\ length (pop_heap comp d a len result) = length a.
Proof.
  intros Ha. unfold pop_heap.
  destruct (adjust_heap_keeps (<[result := nth 0 a d]> a) 0 len (nth result a d))
    as [H1 H2].
  - apply Forall_insert; [exact Ha|now apply Forall_nth_default].
  - now apply Forall_nth_default.
  - split; [exact H1|]. now rewrite H2, length_insert.
Qed.

Lemma heap_select_keeps (a : list A) (middle : nat) :
  Forall P a ->
  Forall P (heap_select comp d a middle)
  /\ length (heap_select comp d a middle) = length a.
Proof.
  intros Ha. unfold heap_select.
  destruct (make_heap_keeps a middle Ha) as [H1 H2].
  assert (Hfold : forall (l : list nat) (b : list A),
             Forall P b ->
             Forall P (fold_left
                         (fun a i => if comp (nth i a d) (nth O a d)
                                     then pop_heap comp d a middle i else a)
                         l b)
             /\ length (fold_left
                          (fun a i => if comp (nth i a d) (nth O a d)
                                      then pop_heap comp d a middle i else a)
                          l b) = length b).
  { intros l. induction l as [|i l IH]; intros b Hb; cbn [fold_left]; [auto|].
    destruct (comp _ _).
    - destruct (pop_heap_keeps b middle i Hb) as [H3 H4].
      destruct (IH _ H3) as [H5 H6]. split; [exact H5|congruence].
    - now apply IH. }
  destruct (Hfold (seq middle (length a - middle)) _ H1) as [H3 H4].
  split; [exact H3|congruence].
Qed.

Lemma sort_heap_keeps (a : list A) (last : nat) :
  Forall P a ->
  Forall P (sort_heap comp d a last)
  /\ length (sort_heap comp d a last) = length a.
Proof.
  revert a. induction last as [|last IH]; intros a Ha; cbn [sort_heap];
    [auto|].
  destruct last as [|last']; [auto|].
  destruct (pop_heap_keeps a (S last') (S last') Ha) as [H1 H2].
  destruct (IH _ H1) as [H3 H4]. split; [exact H3|congruence].
Qed.

Lemma partial_sort_keeps (a : list A) (middle : nat) :
  Forall P a ->
  Forall P (partial_sort comp d a middle)
  /\ length (partial_sort comp d a middle) = length a.
Proof.
  intros Ha. unfold partial_sort.
  destruct (heap_select_keeps a middle Ha) as [H1 H2].
  destruct (sort_heap_keeps _ middle H1) as [H3 H4].
  split; [exact H3|congruence].
Qed.
End PartialSortKeeps.

(* The loop of the top_p cut leaves through [break] only with a new top_k
   between 1 and the number of candidates. *)
Lemma top_p_loop_cut (probs : list float) (i : nat) (cumsum top_p c' : float)
    (k : nat) :
  top_p_loop probs i cumsum top_p = (c', Some k) ->
  (i < k <= i + length probs)%nat.
Proof.
  revert i cumsum. induction probs as [|p probs IH]; intros i cumsum; simpl.
  - discriminate.
  - destruct (top_p <=? cumsum + p)%float.
    + intros [= _ <-]. lia.
    + intros H. apply IH in H. lia.
Qed.

Lemma lower_bound_le (cp : list float) (p c : float) (j : nat) :
  cp !! j = Some c -> (c <? p)%float = false ->
  (lower_bound cp p <= j)%nat.
Proof.
  revert j. induction cp as [|x cp IH]; intros j; simpl; [discriminate|].
  destruct j as [|j]; simpl.
  - intros [= ->] ->. lia.
  - intros Hj Hc. destruct (x <? p)%float; [|lia].
    specialize (IH j Hj Hc). lia.
Qed.

Lemma partial_sum_length (acc : float) (l : list float) :
  length (partial_sum acc l) = length l.
Proof.
  revert acc. induction l as [|x l IH]; intros acc; simpl; [reflexivity|].
  now rewrite IH.
Qed.

Lemma discrete_distribution_length (probs : list float) :
  length (discrete_distribution probs)
  = if (length probs <? 2)%nat then 0%nat else length probs.
Proof.
  unfold discrete_distribution. destruct (length probs <? 2)%nat; [reflexivity|].
  now rewrite length_insert, partial_sum_length, length_map.
Qed.

Section SamplerProps.
Variable exp : float -> float.
Variable Rng : Type.
Variable canonical : Rng -> float * Rng.

Local Abbreviation discrete_draw' := (discrete_draw Rng canonical).
Local Abbreviation gpt_sample_top_k_top_p' :=
  (gpt_sample_top_k_top_p exp Rng canonical).

(* dist(rng) stays inside the candidates when the variate is not above 1. *)
Lemma discrete_draw_bound (probs : list float) (rng : Rng) :
  (1 <= length probs)%nat ->
  (1 <? fst (canonical rng))%float = false ->
  (fst (discrete_draw' (discrete_distribution probs) rng) < length probs)%nat.
Proof.
  intros Hlen Hp. unfold discrete_draw.
  pose proof (discrete_distribution_length probs) as Hl.
  destruct (discrete_distribution probs) as [|c cp] eqn:Hcp; [simpl; lia|].
  destruct (length probs <? 2)%nat eqn:E; [discriminate Hl|].
  apply Nat.ltb_ge in E.
  destruct (canonical rng) as [p rng']. cbn [fst] in *.
  assert (Hlast : (c :: cp) !! (length probs - 1)%nat = Some 1%float).
  { rewrite <- Hcp. unfold discrete_distribution.
    destruct (length probs <? 2)%nat eqn:E2; [apply Nat.ltb_lt in E2; lia|].
    rewrite partial_sum_length, length_map.
    apply list_lookup_insert_eq. rewrite partial_sum_length, length_map. lia. }
  pose proof (lower_bound_le _ p _ _ Hlast Hp). lia.
Qed.

(* The candidates the sampler draws from are a prefix of the first top_k
   entries of the sorted vector. *)
Lemma sampler_result (vocab : gpt_vocab) (logits : list float) (top_k : Z)
    (top_p temp : float) (rng : Rng) :
  let n := size (id_to_token vocab) in
  (0 <=? top_k) && (top_k <=? Z.of_nat n) && (n <=? length logits)%nat = true ->
  exists (cand : list (float * Z)) (probs : list float),
    (forall kv, In kv cand -> 0 <= snd kv < Z.of_nat n)
    /\ length probs = length cand
    /\ (1 <= top_k -> (1 <= length cand)%nat)
    /\ (top_k = 0 -> cand = [])
    /\ gpt_sample_top_k_top_p' vocab logits top_k top_p temp rng
       = let '(idx, rng') := discrete_draw' (discrete_distribution probs) rng in
         match cand !! idx with
         | Some kv => Some (snd kv, rng')
         | None => None
         end.
Proof.
  intros n Hguard. unfold gpt_sample_top_k_top_p. fold n. rewrite Hguard.
  cbn [negb].
  apply andb_true_iff in Hguard. destruct Hguard as [Hguard Hlen].
  apply andb_true_iff in Hguard. destruct Hguard as [Hk0 Hkn].
  apply Z.leb_le in Hk0, Hkn. apply Nat.leb_le in Hlen.
  set (ids := map (fun i => ((nth i logits 0 * (1 / temp))%float, Z.of_nat i))
                  (seq 0 n)).
  assert (Hids : Forall (fun kv : float * Z => n <> O -> 0 <= snd kv < Z.of_nat n) ids).
  { unfold ids. apply List.Forall_forall. intros kv Hin.
    apply in_map_iff in Hin. destruct Hin as (i & <- & Hi).
    apply in_seq in Hi. simpl. lia. }
  destruct (partial_sort_keeps logit_gt (0%float, 0)
              (fun kv : float * Z => n <> O -> 0 <= snd kv < Z.of_nat n)
              ltac:(simpl; lia) ids (Z.to_nat top_k) Hids) as [Hsorted Hslen].
  set (sorted := partial_sort logit_gt (0%float, 0) ids (Z.to_nat top_k)) in *.
  assert (Hidlen : length ids = n)
    by (unfold ids; now rewrite length_map, length_seq).
  set (cand1 := take (Z.to_nat top_k) sorted).
  assert (Hc1len : length cand1 = Z.to_nat top_k)
    by (unfold cand1; rewrite length_take; lia).
  assert (Hc1 : forall kv, In kv cand1 -> 0 <= snd kv < Z.of_nat n).
  { intros kv Hin. unfold cand1 in Hin.
    assert (Hin' : In kv sorted).
    { rewrite <- (take_drop (Z.to_nat top_k) sorted). apply in_or_app. now left. }
    rewrite List.Forall_forall in Hsorted. apply (Hsorted kv Hin').
    intros Hn0. assert (Hs0 : length sorted = 0%nat) by lia.
    destruct sorted; [destruct Hin'|discriminate Hs0]. }
  set (maxl := fold_left _ cand1 neg_infinity).
  set (probs0 := map (fun kv : float * Z => exp (fst kv - maxl)%float) cand1).
  set (sum := fold_left PrimFloat.add probs0 0%float).
  set (probs1 := map (fun p => (p / sum)%float) probs0).
  assert (Hp1len : length probs1 = length cand1)
    by (unfold probs1, probs0; now rewrite !length_map).
  destruct (top_p <? 1)%float.
  - destruct (top_p_loop probs1 0 0 top_p) as [cumsum [k|]] eqn:Hloop.
    + apply top_p_loop_cut in Hloop.
      exists (take k cand1), (map (fun p => (p * (1 / cumsum))%float) (take k probs1)).
      split; [|split; [|split; [|split; [|reflexivity]]]].
      * intros kv Hin. apply Hc1.
        rewrite <- (take_drop k cand1). apply in_or_app. now left.
      * rewrite length_map, !length_take. lia.
      * intros _. rewrite length_take. lia.
      * intros ->. unfold cand1. change (Z.to_nat 0) with O.
        cbn [take]. apply take_nil.
    + exists cand1, (map (fun p => (p * (1 / cumsum))%float) probs1).
      split; [exact Hc1|]. split; [now rewrite length_map|].
      split; [lia|]. split; [|reflexivity].
      intros ->. reflexivity.
  - exists cand1, probs1.
    split; [exact Hc1|]. split; [exact Hp1len|].
    split; [lia|]. split; [|reflexivity].
    intros ->. reflexivity.
Qed.

(* A defined result of the sampler is an id below the size of the
   vocabulary, and was reached with top_k and logits in their ranges. *)
Lemma sampler_range (vocab : gpt_vocab) (logits : list float)
    (top_k : Z) (top_p temp : float) (rng rng' : Rng) (id : Z)
    (Hres : gpt_sample_top_k_top_p' vocab logits top_k top_p temp rng
            = Some (id, rng')) :
  1 <= top_k <= Z.of_nat (size (id_to_token vocab))
  /\ (size (id_to_token vocab) <= length logits)%nat
  /\ 0 <= id < Z.of_nat (size (id_to_token vocab)).
Proof.
  set (n := size (id_to_token vocab)) in *.
  destruct ((0 <=? top_k) && (top_k <=? Z.of_nat n) && (n <=? length logits)%nat)
    eqn:Hguard.
  2:{ unfold gpt_sample_top_k_top_p in Hres. fold n in Hres.
      rewrite Hguard in Hres. discriminate Hres. }
  destruct (sampler_result vocab logits top_k top_p temp rng Hguard)
    as (cand & probs & Hcand & _ & _ & Hzero & Heq).
  rewrite Heq in Hres. clear Heq.
  apply andb_true_iff in Hguard. destruct Hguard as [Hguard Hlen].
  apply andb_true_iff in Hguard. destruct Hguard as [Hk0 Hkn].
  apply Z.leb_le in Hk0, Hkn. apply Nat.leb_le in Hlen.
  destruct (discrete_draw' (discrete_distribution probs) rng) as [idx r].
  destruct (cand !! idx) as [kv|] eqn:Hkv; [|discriminate Hres].
  injection Hres as <- <-.
  assert (Hin : In kv cand) by (apply list_elem_of_In; eapply list_elem_of_lookup_2; eauto).
  split; [|split; [exact Hlen|now apply Hcand]].
  split; [|exact Hkn].
  destruct (Z.eq_dec top_k 0) as [Hz|]; [|lia].
  rewrite (Hzero Hz) in Hin. destruct Hin.
Qed.

(** X7.  Whenever gpt_sample_top_k_top_p has a defined result, top_k is
    between 1 and the number of ids of the vocabulary, the logits cover all
    of them, and the id returned is one of them. *)
Theorem sampled_id_in_range (vocab : gpt_vocab) (logits : list float)
    (top_k : Z) (top_p temp : float) (rng rng' : Rng) (id : Z)
    (Hres : gpt_sample_top_k_top_p' vocab logits top_k top_p temp rng
            = Some (id, rng')) :
  1 <= top_k <= Z.of_nat (size (id_to_token vocab))
  /\ (size (id_to_token vocab) <= length logits)%nat
  /\ 0 <= id < Z.of_nat (size (id_to_token vocab)).
Proof. exact (sampler_range vocab logits top_k top_p temp rng rng' id Hres). Qed.

(** X8.  With top_k between 1 and the number of ids of the vocabulary, logits
    for all of them and a generator whose variate is never above 1,
    gpt_sample_top_k_top_p stays inside its vectors and returns an id that
    is at least 0 and below the number of ids, for every top_p and
    temperature; where id_to_token holds every id below its size, the id
    returned is one of its keys. *)
Theorem sampler_defined (vocab : gpt_vocab) (logits : list float)
    (top_k : Z) (top_p temp : float) (rng : Rng)
    (Hk : 1 <= top_k <= Z.of_nat (size (id_to_token vocab)))
    (Hlen : (size (id_to_token vocab) <= length logits)%nat)
    (Hcanon : forall r, (1 <? fst (canonical r))%float = false) :
  exists id rng',
    gpt_sample_top_k_top_p' vocab logits top_k top_p temp rng = Some (id, rng')
    /\ 0 <= id < Z.of_nat (size (id_to_token vocab))
    /\ ((forall id', 0 <= id' < Z.of_nat (size (id_to_token vocab)) ->
                     is_Some (id_to_token vocab !! id')) ->
        is_Some (id_to_token vocab !! id)).
Proof.
  set (n := size (id_to_token vocab)) in *.
  assert (Hguard : (0 <=? top_k) && (top_k <=? Z.of_nat n)
                   && (n <=? length logits)%nat = true).
  { rewrite !andb_true_iff. repeat split;
      [apply Z.leb_le; lia|apply Z.leb_le; lia|now apply Nat.leb_le]. }
  destruct (sampler_result vocab logits top_k top_p temp rng Hguard)
    as (cand & probs & Hcand & Hplen & Hone & _ & Heq).
  rewrite Heq. clear Heq.
  pose proof (discrete_draw_bound probs rng ltac:(lia) (Hcanon rng)) as Hidx.
  destruct (discrete_draw' (discrete_distribution probs) rng) as [idx r].
  cbn [fst] in Hidx.
  destruct (lookup_lt_is_Some_2 cand idx ltac:(lia)) as [kv Hkv].
  rewrite Hkv. exists (snd kv), r. split; [reflexivity|].
  assert (Hrange : 0 <= snd kv < Z.of_nat n).
  { apply Hcand. apply list_elem_of_In. eapply list_elem_of_lookup_2; eauto. }
  split; [exact Hrange|]. intros Hdense. now apply Hdense.
Qed.
End SamplerProps.


Lemma sampled_id_in_range_witness :
  1 <= 2 <= Z.of_nat (size (id_to_token toy_vocab))
  /\ (size (id_to_token toy_vocab) <= length [0; 0; 1]%float)%nat
  /\ 0 <= 0 < Z.of_nat (size (id_to_token toy_vocab)).
Proof.
  apply (sampled_id_in_range (fun x => x) unit (fun r => (0.5%float, r))
           toy_vocab [0; 0; 1]%float 2 0.5%float 1%float tt tt 0).
  vm_compute. reflexivity.
Defined.

Lemma sampler_defined_witness :
  exists id rng',
    gpt_sample_top_k_top_p (fun x => x) unit (fun r => (0.5%float, r))
      toy_vocab [0; 0; 1]%float 2 0.5%float 1%float tt = Some (id, rng')
    /\ 0 <= id < Z.of_nat (size (id_to_token toy_vocab))
    /\ ((forall id', 0 <= id' < Z.of_nat (size (id_to_token toy_vocab)) ->
                     is_Some (id_to_token toy_vocab !! id')) ->
        is_Some (id_to_token toy_vocab !! id)).
Proof.
  apply (sampler_defined (fun x => x) unit (fun r => (0.5%float, r))
           toy_vocab [0; 0; 1]%float 2 0.5%float 1%float tt).
  - vm_compute. split; discriminate.
  - vm_compute. lia.
  - intros r. reflexivity.
Defined.

(** *** Model loader *)

Lemma fin_read_app (b r old : list byte) (n : nat) :
  length b = n ->
  fin_read (open_stream (b ++ r)) n old = (open_stream r, b).
Proof.
  intros <-. unfold fin_read, open_stream. simpl.
  rewrite length_app.
  destruct (length b <=? length b + length r)%nat eqn:E;
    [|apply Nat.leb_gt in E; lia].
  now rewrite drop_app_length, take_app_length.
Qed.

Lemma read_dims_layout (dims : list (list byte)) (r : list byte) :
  (length dims <= 2)%nat ->
  Forall (fun d => length d = 4%nat) dims ->
  read_dims (length dims) 0 (open_stream (concat dims ++ r)) 1 [1; 1]
  = (open_stream r, record_nelements dims,
     [record_ne dims 0; record_ne dims 1]).
Proof.
  intros Hlen Hall.
  destruct dims as [|d0 [|d1 [|d2 dims]]]; simpl in Hlen; try lia.
  - reflexivity.
  - inversion Hall as [|? ? H0 _]; subst.
    simpl. rewrite app_nil_r. unfold read_i32.
    rewrite fin_read_app by exact H0. reflexivity.
  - inversion Hall as [|? ? H0 Hall']; subst.
    inversion Hall' as [|? ? H1 _]; subst.
    simpl. rewrite app_nil_r, <- app_assoc. unfold read_i32.
    rewrite fin_read_app by exact H0. simpl.
    rewrite fin_read_app by exact H1. reflexivity.
Qed.

Section LoaderProps.
Variable ggml_type_of_tag : Z -> ggml_type.
Variable ggml_type_size : ggml_type -> Z.
Variable ggml_blck_size : ggml_type -> Z.
Variable ctx_size_of : gptj_hparams -> ggml_type -> Z.
Variable ggml_init_ok : Z -> bool.
Variable indeterminate : list byte.

Local Abbreviation load_weights' :=
  (load_weights ggml_type_of_tag ggml_type_size ggml_blck_size indeterminate).
Local Abbreviation ggml_nbytes' :=
  (ggml_nbytes ggml_type_size ggml_blck_size).
Local Abbreviation gptj_model_load' :=
  (gptj_model_load ggml_type_of_tag ggml_type_size ggml_blck_size
                   ctx_size_of ggml_init_ok indeterminate).
Local Abbreviation record_nbytes' :=
  (record_nbytes ggml_type_of_tag ggml_type_size ggml_blck_size).

(* One pass of the loop over a stream that starts with a whole record
   head. *)
Lemma load_weights_record (fuel : nat) (reg : gmap string ggml_tensor)
    (b_n_dims b_length b_type : list byte) (dims : list (list byte))
    (name tail : list byte) :
  length b_n_dims = 4%nat -> length b_length = 4%nat ->
  length b_type = 4%nat ->
  le_i32 b_n_dims = Z.of_nat (length dims) -> (length dims <= 2)%nat ->
  Forall (fun d => length d = 4%nat) dims ->
  le_i32 b_length = Z.of_nat (length name) ->
  load_weights' (S fuel)
    (open_stream (record_head b_n_dims b_length b_type dims name ++ tail)) reg
  = match reg !! c_str name with
    | None => Some (load_fail (unknown_tensor (c_str name)), reg)
    | Some tensor =>
        if negb (ggml_nelements tensor =? record_nelements dims)
        then Some (load_fail (wrong_size (c_str name)), reg)
        else if negb (nth 0 (ne tensor) 0 =? record_ne dims 0)
                || negb (nth 1 (ne tensor) 0 =? record_ne dims 1)
        then Some (load_fail (wrong_shape (c_str name)), reg)
        else if negb (record_nbytes' dims (le_i32 b_type) tensor
                      =? ggml_nbytes' tensor)
        then Some (load_fail (wrong_byte_size (c_str name)), reg)
        else
          let '(fin, bytes) :=
            fin_read (open_stream tail) (Z.to_nat (ggml_nbytes' tensor))
                     (data tensor) in
          load_weights' fuel fin
            (<[c_str name := {| ttype := ttype tensor; ne := ne tensor;
                                data := bytes |}]> reg)
    end.
Proof.
  intros H1 H2 H3 Hnd Hle Hall Hnl.
  unfold record_head. rewrite <- !app_assoc.
  cbn [load_weights]. unfold read_i32.
  rewrite fin_read_app by exact H1. cbn iota beta.
  rewrite fin_read_app by exact H2. cbn iota beta.
  rewrite fin_read_app by exact H3. cbn iota beta.
  cbn [eofbit open_stream].
  rewrite Hnd, Hnl.
  destruct (2 <? Z.of_nat (length dims)) eqn:E; [apply Z.ltb_lt in E; lia|].
  rewrite Nat2Z.id.
  fold (read_i32).
  rewrite (read_dims_layout dims (name ++ tail) Hle Hall).
  destruct (Z.of_nat (length name) <? 0) eqn:E2; [apply Z.ltb_lt in E2; lia|].
  rewrite Nat2Z.id.
  rewrite fin_read_app by reflexivity.
  cbn [nth]. unfold record_nbytes. reflexivity.
Qed.


(** C9.  A file of at least four bytes whose first four bytes are not the
    magic number makes gptj_model_load return false with the model and the
    vocabulary as they were passed in: no allocation region, no tensor and
    no key/value memory has been created. *)
Theorem bad_magic_allocates_nothing (bytes : list byte) (model : gptj_model)
    (vocab : gpt_vocab)
    (Hlen : (4 <= length bytes)%nat)
    (Hmagic : le_u32 (take 4 bytes) <> 0x67676d6c) :
  gptj_model_load' (Some bytes) model vocab
  = Some (load_fail bad_magic, model, vocab).
Proof.
  unfold gptj_model_load, read_u32.
  rewrite <- (take_drop 4 bytes) at 1.
  change {| rest := take 4 bytes ++ drop 4 bytes;
            eofbit := false; failbit := false |}
    with (open_stream (take 4 bytes ++ drop 4 bytes)).
  rewrite fin_read_app by (rewrite length_take; lia).
  apply Z.eqb_neq in Hmagic. unfold magic_number. now rewrite Hmagic.
Qed.
End LoaderProps.

(* Reads never put bytes back, and a read that leaves the stream good has
   taken all it asked for. *)
Lemma fin_read_ok (fin : ifstream) (n : nat) (old : list byte) :
  stream_ok fin ->
  stream_ok (fst (fin_read fin n old))
  /\ (length (rest (fst (fin_read fin n old))) <= length (rest fin))%nat
  /\ (eofbit (fst (fin_read fin n old)) = false ->
      (length (rest (fst (fin_read fin n old))) + n = length (rest fin))%nat).
Proof.
  unfold stream_ok, fin_read, good. intros Hok.
  destruct (eofbit fin) eqn:He; simpl.
  - repeat split; auto; try lia; try congruence.
  - destruct (failbit fin) eqn:Hf; simpl.
    + specialize (Hok eq_refl). discriminate.
    + destruct (n <=? length (rest fin))%nat eqn:Hn; simpl.
      * apply Nat.leb_le in Hn. rewrite length_drop.
        repeat split; auto; try lia; try discriminate.
      * repeat split; auto; try lia; try discriminate.
Qed.

Lemma read_i32_ok (fin : ifstream) (old : list byte) :
  stream_ok fin ->
  stream_ok (fst (read_i32 fin old))
  /\ (length (rest (fst (read_i32 fin old))) <= length (rest fin))%nat
  /\ (eofbit (fst (read_i32 fin old)) = false ->
      (length (rest (fst (read_i32 fin old))) + 4 = length (rest fin))%nat).
Proof.
  intros Hok. unfold read_i32.
  pose proof (fin_read_ok fin 4 old Hok) as H.
  destruct (fin_read fin 4 old) as [fin' bs]. exact H.
Qed.

Lemma read_u32_ok (fin : ifstream) (old : list byte) :
  stream_ok fin ->
  stream_ok (fst (read_u32 fin old))
  /\ (length (rest (fst (read_u32 fin old))) <= length (rest fin))%nat.
Proof.
  intros Hok. unfold read_u32.
  pose proof (fin_read_ok fin 4 old Hok) as H.
  destruct (fin_read fin 4 old) as [fin' bs]. simpl in *. tauto.
Qed.

Lemma read_dims_ok (n_dims i : nat) (fin : ifstream) (nelements : Z)
    (ne : list Z) :
  stream_ok fin ->
  stream_ok (fst (fst (read_dims n_dims i fin nelements ne)))
  /\ (length (rest (fst (fst (read_dims n_dims i fin nelements ne))))
      <= length (rest fin))%nat.
Proof.
  revert i fin nelements ne.
  induction n_dims as [|n IH]; intros i fin nelements ne Hok; cbn [read_dims].
  - split; [exact Hok|simpl; lia].
  - generalize (le_bytes 4 (nth i ne 0)). intros old.
    destruct (read_i32_ok fin old Hok) as (Hok' & Hle & _).
    destruct (read_i32 fin old) as [fin' x].
    cbn [fst snd] in *.
    destruct (IH (S i) fin' (wrap32 (nelements * x)) (<[i := x]> ne) Hok')
      as [H1 H2].
    split; [exact H1|lia].
Qed.

Lemma load_hparams_ok (fin : ifstream) (h : gptj_hparams) :
  stream_ok fin -> stream_ok (fst (load_hparams fin h)).
Proof.
  intros Hok. unfold load_hparams.
  repeat match goal with
         | |- context [read_i32 ?f ?o] =>
             let H := fresh "Hok" in
             destruct (read_i32_ok f o ltac:(assumption)) as (H & _ & _);
             destruct (read_i32 f o) as [? ?]; cbn [fst snd] in H
         end.
  assumption.
Qed.

Section LoaderTotal.
Variable ggml_type_of_tag : Z -> ggml_type.
Variable ggml_type_size : ggml_type -> Z.
Variable ggml_blck_size : ggml_type -> Z.
Variable ctx_size_of : gptj_hparams -> ggml_type -> Z.
Variable ggml_init_ok : Z -> bool.
Variable indeterminate : list byte.

Local Abbreviation load_weights' :=
  (load_weights ggml_type_of_tag ggml_type_size ggml_blck_size indeterminate).
Local Abbreviation gptj_model_load' :=
  (gptj_model_load ggml_type_of_tag ggml_type_size ggml_blck_size
                   ctx_size_of ggml_init_ok indeterminate).

Lemma load_weights_total (fuel : nat) (fin : ifstream)
    (reg : gmap string ggml_tensor) :
  stream_ok fin -> (length (rest fin) < fuel)%nat ->
  exists r, load_weights' fuel fin reg = Some r.
Proof.
  revert fin reg. induction fuel as [|fuel IH]; intros fin reg Hok Hlen;
    [lia|].
  cbn [load_weights].
  destruct (read_i32_ok fin indeterminate Hok) as (Hok1 & Hle1 & Hd1).
  destruct (read_i32 fin indeterminate) as [fin1 n_dims]. simpl in *.
  destruct (read_i32_ok fin1 indeterminate Hok1) as (Hok2 & Hle2 & Hd2).
  destruct (read_i32 fin1 indeterminate) as [fin2 len]. simpl in *.
  destruct (read_i32_ok fin2 indeterminate Hok2) as (Hok3 & Hle3 & Hd3).
  destruct (read_i32 fin2 indeterminate) as [fin3 tag]. simpl in *.
  destruct (eofbit fin3) eqn:Heof; [eauto|].
  specialize (Hd3 eq_refl).
  destruct (2 <? n_dims); [eauto|].
  destruct (read_dims_ok (Z.to_nat n_dims) 0 fin3 1 [1; 1] Hok3) as [Hok4 Hle4].
  destruct (read_dims (Z.to_nat n_dims) 0 fin3 1 [1; 1]) as [[fin4 nel] ne4].
  simpl in *.
  destruct (len <? 0); [eauto|].
  destruct (fin_read_ok fin4 (Z.to_nat len)
              (replicate (Z.to_nat len) "000"%byte) Hok4) as (Hok5 & Hle5 & _).
  destruct (fin_read fin4 (Z.to_nat len) _) as [fin5 name_bytes].
  simpl in *.
  destruct (reg !! c_str name_bytes) as [tensor|]; [|eauto].
  destruct (negb (ggml_nelements tensor =? nel)); [eauto|].
  destruct (negb _ || negb _); [eauto|].
  destruct (negb (_ =? _)); [eauto|].
  destruct (fin_read_ok fin5
              (Z.to_nat (ggml_nbytes ggml_type_size ggml_blck_size tensor))
              (data tensor) Hok5) as (Hok6 & Hle6 & _).
  destruct (fin_read fin5 _ (data tensor)) as [fin6 bytes]. simpl in *.
  apply IH; [exact Hok6|lia].
Qed.

Lemma load_vocab_loop_ok (count : nat) (i : Z) (fin : ifstream)
    (word : list byte) (vocab : gpt_vocab) :
  stream_ok fin ->
  stream_ok (fst (load_vocab_loop indeterminate count i fin word vocab)).
Proof.
  revert i fin word vocab.
  induction count as [|count IH]; intros i fin word vocab Hok;
    cbn [load_vocab_loop]; [exact Hok|].
  destruct (read_u32_ok fin indeterminate Hok) as (Hok1 & _).
  destruct (read_u32 fin indeterminate) as [fin1 len]. cbn [fst] in Hok1.
  destruct (fin_read_ok fin1 (Z.to_nat len) (resize (Z.to_nat len) word) Hok1)
    as (Hok2 & _).
  destruct (fin_read fin1 (Z.to_nat len) _) as [fin2 word']. cbn [fst] in Hok2.
  apply IH. exact Hok2.
Qed.

(* The loader returns on every file: the fuel handed to the record loop is
   enough. *)
Lemma gptj_model_load_total (file : option (list byte)) (model : gptj_model)
    (vocab : gpt_vocab) :
  exists r, gptj_model_load' file model vocab = Some r.
Proof.
  unfold gptj_model_load. destruct file as [bytes|]; [|eauto].
  assert (Hok0 : stream_ok {| rest := bytes; eofbit := false; failbit := false |})
    by (intros H; discriminate H).
  destruct (read_u32_ok _ indeterminate Hok0) as (Hok1 & _).
  destruct (read_u32 _ indeterminate) as [fin1 magic]. cbn [fst] in Hok1.
  destruct (negb (magic =? magic_number)); [eauto|].
  pose proof (load_hparams_ok fin1 (hparams model) Hok1) as Hok2.
  destruct (load_hparams fin1 (hparams model)) as [fin2 h]. cbn [fst] in Hok2.
  destruct (read_i32_ok fin2 (le_bytes 4 0) Hok2) as (Hok3 & _).
  destruct (read_i32 fin2 (le_bytes 4 0)) as [fin3 n_vocab_file].
  cbn [fst] in Hok3.
  destruct (negb (n_vocab_file =? n_vocab h)); [eauto|].
  pose proof (load_vocab_loop_ok (Z.to_nat n_vocab_file) 0 fin3 [] vocab Hok3)
    as Hok4.
  destruct (load_vocab_loop indeterminate (Z.to_nat n_vocab_file) 0 fin3 [] vocab)
    as [fin4 vocab4]. cbn [fst] in Hok4.
  destruct (ggml_type_eqb _ _); [eauto|].
  destruct (negb (ggml_init_ok _)); [eauto|].
  destruct (n_layer h <? 0); [eauto|].
  match goal with
  | |- context [load_weights _ _ _ _ ?f ?s ?r] =>
      destruct (load_weights_total f s r Hok4) as [[res reg] ->]; [lia|]
  end.
  eauto.
Qed.
End LoaderTotal.

Lemma bad_magic_allocates_nothing_witness :
  gptj_model_load toy_type_of_tag toy_type_size toy_blck_size
    (fun _ _ => 1024) (fun _ => true) []
    (Some ["000"; "000"; "000"; "000"; "001"]%byte) empty_model toy_vocab
  = Some (load_fail bad_magic, empty_model, toy_vocab).
Proof.
  apply bad_magic_allocates_nothing.
  - simpl. lia.
  - vm_compute. discriminate.
Defined.

(** *** Model loader: files and their layout *)

(** **** Little-endian integers *)

Lemma le_bytes_length (n : nat) (z : Z) : length (le_bytes n z) = n.
Proof.
  revert z. induction n as [|n IH]; intros z; simpl; [reflexivity|].
  destruct (Byte.of_N (Z.to_N (z mod 256))) as [b|] eqn:E.
  - simpl. now rewrite IH.
  - apply Byte.of_N_None_iff in E.
    pose proof (Z.mod_pos_bound z 256 ltac:(lia)). lia.
Qed.

Lemma le_u32_le_bytes (n : nat) (z : Z) :
  le_u32 (le_bytes n z) = z mod 256 ^ Z.of_nat n.
Proof.
  revert z. induction n as [|n IH]; intros z.
  - simpl. now rewrite Z.mod_1_r.
  - cbn [le_bytes].
    destruct (Byte.of_N (Z.to_N (z mod 256))) as [b|] eqn:E.
    + apply Byte.to_of_N in E.
      unfold le_u32 in *. cbn [fold_right]. rewrite IH, E.
      pose proof (Z.mod_pos_bound z 256 ltac:(lia)).
      rewrite Z2N.id by lia.
      rewrite Nat2Z.inj_succ, Z.pow_succ_r by lia.
      rewrite Z.rem_mul_r by lia. reflexivity.
    + apply Byte.of_N_None_iff in E.
      pose proof (Z.mod_pos_bound z 256 ltac:(lia)). lia.
Qed.

Lemma le_u32_le_bytes_4 (z : Z) :
  0 <= z < 2 ^ 32 -> le_u32 (le_bytes 4 z) = z.
Proof.
  intros H. rewrite le_u32_le_bytes. change (256 ^ Z.of_nat 4) with (2 ^ 32).
  now apply Z.mod_small.
Qed.

Lemma le_i32_le_bytes (z : Z) : int32 z -> le_i32 (le_bytes 4 z) = z.
Proof.
  unfold int32, le_i32, wrap32. intros H. rewrite le_u32_le_bytes.
  change (256 ^ Z.of_nat 4) with (2 ^ 32).
  destruct (Z.lt_ge_cases z 0).
  - replace (z mod 2 ^ 32) with (z + 2 ^ 32).
    + replace (z + 2 ^ 32 + 2 ^ 31) with (z + 2 ^ 31 + 1 * 2 ^ 32) by lia.
      rewrite Z.mod_add by lia. rewrite Z.mod_small by lia. lia.
    + apply (Z.mod_unique z (2 ^ 32) (-1)); lia.
  - rewrite (Z.mod_small z) by lia. rewrite Z.mod_small by lia. lia.
Qed.

(** **** Reads *)

Lemma read_i32_app (b r old : list byte) :
  length b = 4%nat ->
  read_i32 (open_stream (b ++ r)) old = (open_stream r, le_i32 b).
Proof. intros H. unfold read_i32. now rewrite fin_read_app. Qed.

Lemma read_u32_app (b r old : list byte) :
  length b = 4%nat ->
  read_u32 (open_stream (b ++ r)) old = (open_stream r, le_u32 b).
Proof. intros H. unfold read_u32. now rewrite fin_read_app. Qed.

Lemma read_i32_le_bytes (z : Z) (r old : list byte) :
  int32 z ->
  read_i32 (open_stream (le_bytes 4 z ++ r)) old = (open_stream r, z).
Proof.
  intros H. rewrite read_i32_app by apply le_bytes_length.
  now rewrite le_i32_le_bytes.
Qed.

(* A stream at end-of-file stays there; a good stream reaches it with a read
   of more than is left, and otherwise moves on by what was asked. *)
Lemma read_i32_eof (fin : ifstream) (old : list byte) :
  eofbit fin = true -> eofbit (fst (read_i32 fin old)) = true.
Proof.
  intros H. unfold read_i32, fin_read, good. rewrite H. reflexivity.
Qed.

Lemma read_i32_open (bs old : list byte) :
  ((length bs < 4)%nat /\ eofbit (fst (read_i32 (open_stream bs) old)) = true)
  \/ ((4 <= length bs)%nat
      /\ fst (read_i32 (open_stream bs) old) = open_stream (drop 4 bs)).
Proof.
  unfold read_i32, fin_read, good, open_stream. cbn [rest eofbit failbit negb andb].
  destruct (4 <=? length bs)%nat eqn:E.
  - right. apply Nat.leb_le in E. auto.
  - left. apply Nat.leb_gt in E. auto.
Qed.


Lemma fin_read_open_short (bs old : list byte) (n : nat) :
  (length bs < n)%nat ->
  fin_read (open_stream bs) n old
  = ({| rest := []; eofbit := true; failbit := true |},
     bs ++ drop (length bs) old).
Proof.
  intros H. unfold fin_read, good, open_stream. cbn [rest eofbit failbit negb andb].
  destruct (n <=? length bs)%nat eqn:E; [apply Nat.leb_le in E; lia|].
  reflexivity.
Qed.

(** **** The vocabulary *)

Lemma vocab_inv_insert (i : Z) (w : string) (v : gpt_vocab) :
  0 <= i -> vocab_inv i v ->
  vocab_inv (i + 1) {| token_to_id := <[w := i]> (token_to_id v);
                       id_to_token := <[i := w]> (id_to_token v) |}.
Proof.
  intros Hi (Hdom & Hsize & Hback). unfold vocab_inv. cbn [token_to_id id_to_token].
  assert (Hfresh : id_to_token v !! i = None).
  { destruct (id_to_token v !! i) eqn:E; [|reflexivity].
    assert (is_Some (id_to_token v !! i)) as Hs by eauto.
    apply Hdom in Hs. lia. }
  split; [|split].
  - intros id. rewrite lookup_insert_is_Some, Hdom. lia.
  - rewrite map_size_insert_None by exact Hfresh. rewrite Hsize. lia.
  - intros w' id. rewrite lookup_insert_Some.
    intros [[<- <-]|[Hne Hw']].
    + apply lookup_insert_eq.
    + assert (id <> i).
      { intros ->. apply Hback in Hw'. congruence. }
      rewrite lookup_insert_ne by congruence. now apply Hback.
Qed.

Lemma vocab_inv_empty : vocab_inv 0 empty_vocab.
Proof.
  unfold vocab_inv, empty_vocab. cbn [token_to_id id_to_token].
  split; [|split].
  - intros id. rewrite lookup_empty. split; [intros [x Hx]; discriminate|lia].
  - apply map_size_empty.
  - intros w id. rewrite lookup_empty. discriminate.
Qed.

Lemma load_vocab_loop_inv (indeterminate : list byte) (count : nat) (i : Z)
    (fin : ifstream) (word : list byte) (v : gpt_vocab) :
  0 <= i -> vocab_inv i v ->
  vocab_inv (i + Z.of_nat count)
            (snd (load_vocab_loop indeterminate count i fin word v)).
Proof.
  revert i fin word v.
  induction count as [|count IH]; intros i fin word v Hi Hinv;
    cbn [load_vocab_loop].
  - now rewrite Z.add_0_r.
  - destruct (read_u32 fin indeterminate) as [fin1 len].
    destruct (fin_read fin1 (Z.to_nat len) _) as [fin2 word'].
    replace (i + Z.of_nat (S count)) with (i + 1 + Z.of_nat count) by lia.
    apply IH; [lia|]. now apply vocab_inv_insert.
Qed.

(* The loop over a stream that holds the words in the layout of the file. *)
Lemma load_vocab_loop_words (indeterminate : list byte)
    (words : list (list byte)) :
  forall (i : Z) (r word : list byte) (v : gpt_vocab),
    Forall (fun w => Z.of_nat (length w) < 2 ^ 32) words ->
    exists v',
      load_vocab_loop indeterminate (length words) i
        (open_stream (concat (map word_bytes words) ++ r)) word v
      = (open_stream r, v')
      /\ (forall k w, words !! k = Some w ->
            id_to_token v' !! (i + Z.of_nat k) = Some (string_of_list_byte w))
      /\ (forall id, ~ (i <= id < i + Z.of_nat (length words)) ->
            id_to_token v' !! id = id_to_token v !! id)
      /\ (forall w, is_Some (token_to_id v !! w) ->
            is_Some (token_to_id v' !! w))
      /\ (forall k w, words !! k = Some w ->
            is_Some (token_to_id v' !! string_of_list_byte w)).
Proof.
  induction words as [|w ws IH]; intros i r word v Hall.
  - exists v. cbn. repeat split; auto; intros k w Hk; discriminate Hk.
  - inversion Hall as [|? ? Hw Hws]; subst.
    cbn [length load_vocab_loop map concat]. unfold word_bytes at 1.
    rewrite <- !app_assoc.
    rewrite read_u32_app by apply le_bytes_length.
    rewrite le_u32_le_bytes_4 by lia. rewrite Nat2Z.id.
    rewrite fin_read_app by reflexivity.
    set (v1 := {| token_to_id := <[string_of_list_byte w := i]> (token_to_id v);
                  id_to_token := <[i := string_of_list_byte w]> (id_to_token v) |}).
    destruct (IH (i + 1) r w v1 Hws) as (v' & Hrun & Hid & Hout & Hkeys & Hwords).
    exists v'. split; [exact Hrun|]. split; [|split; [|split]].
    + intros k w' Hk. destruct k as [|k]; cbn in Hk.
      * injection Hk as <-. rewrite Z.add_0_r, Hout by lia.
        unfold v1. cbn [id_to_token]. apply lookup_insert_eq.
      * replace (i + Z.of_nat (S k)) with (i + 1 + Z.of_nat k) by lia.
        now apply Hid.
    + intros id Hid'. cbn [length] in Hid'. rewrite Hout by lia.
      unfold v1. cbn [id_to_token]. apply lookup_insert_ne. lia.
    + intros w' Hw'. apply Hkeys. unfold v1. cbn [token_to_id].
      rewrite lookup_insert_is_Some. destruct (decide (string_of_list_byte w = w')); auto.
    + intros k w' Hk. destruct k as [|k]; cbn in Hk.
      * injection Hk as <-. apply Hkeys. unfold v1. cbn [token_to_id].
        rewrite lookup_insert_eq. eauto.
      * now apply (Hwords k).
Qed.


Lemma load_hparams_bytes (h h0 : gptj_hparams) (r : list byte) :
  hparams_int32 h ->
  load_hparams (open_stream (hparams_bytes h ++ r)) h0 = (open_stream r, h).
Proof.
  intros (H1 & H2 & H3 & H4 & H5 & H6 & H7).
  unfold load_hparams, hparams_bytes. rewrite <- !app_assoc.
  rewrite !read_i32_le_bytes by assumption.
  destruct h. reflexivity.
Qed.

Section LoaderMore.
Variable ggml_type_of_tag : Z -> ggml_type.
Variable ggml_type_size : ggml_type -> Z.
Variable ggml_blck_size : ggml_type -> Z.
Variable ctx_size_of : gptj_hparams -> ggml_type -> Z.
Variable ggml_init_ok : Z -> bool.
Variable indeterminate : list byte.

Local Abbreviation load_weights' :=
  (load_weights ggml_type_of_tag ggml_type_size ggml_blck_size indeterminate).
Local Abbreviation ggml_nbytes' :=
  (ggml_nbytes ggml_type_size ggml_blck_size).
Local Abbreviation gptj_model_load' :=
  (gptj_model_load ggml_type_of_tag ggml_type_size ggml_blck_size
                   ctx_size_of ggml_init_ok indeterminate).
Local Abbreviation gptj_load_model' :=
  (gptj_load_model ggml_type_of_tag ggml_type_size ggml_blck_size
                   ctx_size_of ggml_init_ok indeterminate).
Local Abbreviation record_nbytes' :=
  (record_nbytes ggml_type_of_tag ggml_type_size ggml_blck_size).
Local Abbreviation prepare_tensors' :=
  (prepare_tensors ggml_type_size ggml_blck_size).
Local Abbreviation ggml_new_tensor_1d' :=
  (ggml_new_tensor_1d ggml_type_size ggml_blck_size).

(* At end-of-file the loop over the records ends. *)
Lemma load_weights_eofbit (fuel : nat) (fin : ifstream)
    (reg : gmap string ggml_tensor) :
  eofbit fin = true -> load_weights' (S fuel) fin reg = Some (load_ok, reg).
Proof.
  intros H. cbn [load_weights].
  pose proof (read_i32_eof fin indeterminate H) as H1.
  destruct (read_i32 fin indeterminate) as [fin1 n_dims]. cbn [fst] in H1.
  pose proof (read_i32_eof fin1 indeterminate H1) as H2.
  destruct (read_i32 fin1 indeterminate) as [fin2 len]. cbn [fst] in H2.
  pose proof (read_i32_eof fin2 indeterminate H2) as H3.
  destruct (read_i32 fin2 indeterminate) as [fin3 tag]. cbn [fst] in H3.
  now rewrite H3.
Qed.

(* Fewer than the twelve bytes of the three leading fields: the loop ends
   as at end-of-file. *)
Lemma load_weights_short (fuel : nat) (tail : list byte)
    (reg : gmap string ggml_tensor) :
  (length tail < 12)%nat ->
  load_weights' (S fuel) (open_stream tail) reg = Some (load_ok, reg).
Proof.
  intros Hlen. cbn [load_weights].
  destruct (read_i32_open tail indeterminate) as [[Hs1 He1]|[Hs1 He1]].
  - destruct (read_i32 (open_stream tail) indeterminate) as [fin1 n_dims].
    cbn [fst] in He1.
    pose proof (read_i32_eof fin1 indeterminate He1) as H2.
    destruct (read_i32 fin1 indeterminate) as [fin2 len]. cbn [fst] in H2.
    pose proof (read_i32_eof fin2 indeterminate H2) as H3.
    destruct (read_i32 fin2 indeterminate) as [fin3 tag]. cbn [fst] in H3.
    now rewrite H3.
  - destruct (read_i32 (open_stream tail) indeterminate) as [fin1 n_dims].
    cbn [fst] in He1. subst fin1.
    destruct (read_i32_open (drop 4 tail) indeterminate) as [[Hs2 He2]|[Hs2 He2]].
    + destruct (read_i32 (open_stream (drop 4 tail)) indeterminate)
        as [fin2 len]. cbn [fst] in He2.
      pose proof (read_i32_eof fin2 indeterminate He2) as H3.
      destruct (read_i32 fin2 indeterminate) as [fin3 tag]. cbn [fst] in H3.
      now rewrite H3.
    + destruct (read_i32 (open_stream (drop 4 tail)) indeterminate)
        as [fin2 len]. cbn [fst] in He2. subst fin2.
      destruct (read_i32_open (drop 4 (drop 4 tail)) indeterminate)
        as [[Hs3 He3]|[Hs3 He3]].
      * destruct (read_i32 (open_stream (drop 4 (drop 4 tail))) indeterminate)
          as [fin3 tag]. cbn [fst] in He3. now rewrite He3.
      * rewrite !length_drop in Hs3. lia.
Qed.

(* The loop reports no failure but those of the tensor records. *)
Lemma load_weights_errors (fuel : nat) (fin : ifstream)
    (reg reg' : gmap string ggml_tensor) (e : load_error) :
  load_weights' fuel fin reg = Some (load_fail e, reg') ->
  tensor_error e = true.
Proof.
  revert fin reg. induction fuel as [|fuel IH]; intros fin reg;
    cbn [load_weights]; [discriminate|].
  destruct (read_i32 fin indeterminate) as [fin1 n_dims].
  destruct (read_i32 fin1 indeterminate) as [fin2 len].
  destruct (read_i32 fin2 indeterminate) as [fin3 tag].
  destruct (eofbit fin3); [discriminate|].
  destruct (2 <? n_dims); [discriminate|].
  destruct (read_dims (Z.to_nat n_dims) 0 fin3 1 [1; 1]) as [[fin4 nel] ne4].
  destruct (len <? 0); [discriminate|].
  destruct (fin_read fin4 (Z.to_nat len) _) as [fin5 name_bytes].
  destruct (reg !! c_str name_bytes) as [tensor|];
    [|intros [= <- _]; reflexivity].
  destruct (negb (ggml_nelements tensor =? nel)); [intros [= <- _]; reflexivity|].
  destruct (negb _ || negb _); [intros [= <- _]; reflexivity|].
  destruct (negb (_ =? _)); [intros [= <- _]; reflexivity|].
  destruct (fin_read fin5 _ (data tensor)) as [fin6 bytes].
  apply IH.
Qed.

(* The part of gptj_model_load behind the vocabulary, for a stream that holds
   the head of a file. *)
Lemma gptj_model_load_head (h : gptj_hparams) (count : Z)
    (words : list (list byte)) (tail : list byte) (model : gptj_model)
    (vocab : gpt_vocab) :
  hparams_int32 h -> int32 count ->
  gptj_model_load' (Some (file_head h count words ++ tail)) model vocab
  = if negb (count =? n_vocab h)
    then Some (load_fail bad_vocab_size,
               {| hparams := h; ctx := ctx model; tensors := tensors model;
                  memory_k := memory_k model; memory_v := memory_v model |},
               vocab)
    else
      let '(fin, vocab) :=
        load_vocab_loop indeterminate (Z.to_nat count) 0
          (open_stream (concat (map word_bytes words) ++ tail)) [] vocab in
      let wtype := ggml_ftype_to_ggml_type (ftype h) in
      if ggml_type_eqb wtype GGML_TYPE_COUNT
      then Some (load_fail bad_ftype,
                 {| hparams := h; ctx := ctx model; tensors := tensors model;
                    memory_k := memory_k model; memory_v := memory_v model |},
                 vocab)
      else if negb (ggml_init_ok (ctx_size_of h wtype))
      then Some (load_fail ggml_init_failed,
                 {| hparams := h; ctx := None; tensors := tensors model;
                    memory_k := memory_k model; memory_v := memory_v model |},
                 vocab)
      else if n_layer h <? 0
      then Some (load_throw,
                 {| hparams := h; ctx := Some (ctx_size_of h wtype);
                    tensors := tensors model;
                    memory_k := memory_k model; memory_v := memory_v model |},
                 vocab)
      else
        let kv := ggml_new_tensor_1d' GGML_TYPE_F16
                    (wrap32 (n_embd h * wrap32 (n_layer h * n_ctx h))) in
        match load_weights' (S (length (rest fin))) fin
                (prepare_tensors' h wtype (tensors model)) with
        | Some (r, reg) =>
            Some (r,
                  {| hparams := h; ctx := Some (ctx_size_of h wtype);
                     tensors := reg;
                     memory_k := Some kv; memory_v := Some kv |},
                  vocab)
        | None => None
        end.
Proof.
  intros Hh Hc. unfold gptj_model_load, file_head.
  change {| rest := ?b; eofbit := false; failbit := false |}
    with (open_stream b).
  rewrite <- !app_assoc.
  rewrite read_u32_app by apply le_bytes_length.
  rewrite le_u32_le_bytes_4 by (unfold magic_number; lia).
  rewrite Z.eqb_refl. cbn [negb].
  rewrite load_hparams_bytes by exact Hh.
  rewrite read_i32_le_bytes by exact Hc.
  reflexivity.
Qed.




Local Abbreviation record_accepted' :=
  (record_accepted ggml_type_of_tag ggml_type_size ggml_blck_size).
Local Abbreviation records_accepted' :=
  (records_accepted ggml_type_of_tag ggml_type_size ggml_blck_size).



(** X9.  After a load that succeeded into a fresh vocabulary, id_to_token
    holds exactly the ids from 0 up to n_vocab of the file (so the number of
    logits the sampler reads is n_vocab), and every id that token_to_id gives
    for a text is mapped back to that text by id_to_token. *)
Theorem vocabulary_after_load (bytes : list byte) (model m' : gptj_model)
    (v' : gpt_vocab)
    (Hload : gptj_model_load' (Some bytes) model empty_vocab
             = Some (load_ok, m', v')) :
  vocab_inv (n_vocab (hparams m')) v'.
Proof.
  unfold gptj_model_load in Hload.
  destruct (read_u32 _ indeterminate) as [fin1 magic].
  destruct (negb (magic =? magic_number)); [discriminate Hload|].
  destruct (load_hparams fin1 (hparams model)) as [fin2 h].
  destruct (read_i32 fin2 (le_bytes 4 0)) as [fin3 n_vocab_file].
  destruct (n_vocab_file =? n_vocab h) eqn:Hn; cbn [negb] in Hload;
    [|discriminate Hload].
  apply Z.eqb_eq in Hn. subst n_vocab_file.
  pose proof (load_vocab_loop_inv indeterminate (Z.to_nat (n_vocab h)) 0 fin3 []
                empty_vocab ltac:(lia) vocab_inv_empty) as Hinv.
  destruct (load_vocab_loop indeterminate (Z.to_nat (n_vocab h)) 0 fin3 []
              empty_vocab) as [fin4 vocab4].
  cbn [snd] in Hinv.
  destruct (ggml_type_eqb _ _); [discriminate Hload|].
  destruct (negb (ggml_init_ok _)); [discriminate Hload|].
  destruct (n_layer h <? 0); [discriminate Hload|].
  destruct (load_weights _ _ _ _ _ _ _) as [[r reg]|]; [|discriminate Hload].
  injection Hload as -> <- <-. cbn [hparams].
  destruct (Z.le_gt_cases 0 (n_vocab h)).
  - rewrite Z.add_0_l, Z2Nat.id in Hinv by lia. exact Hinv.
  - replace (Z.to_nat (n_vocab h)) with O in Hinv by lia.
    destruct Hinv as (Hdom & Hsize & Hback).
    split; [|split; [|exact Hback]].
    + intros id. rewrite Hdom. lia.
    + rewrite Hsize. lia.
Qed.


(** X11.  A file that ends inside the data of a tensor record is accepted:
    the record loop stores the bytes that are there in front of what the
    buffer held, and the load succeeds. *)
Theorem truncated_payload_is_accepted (fuel : nat)
    (reg : gmap string ggml_tensor)
    (b_n_dims b_length b_type : list byte) (dims : list (list byte))
    (name tail : list byte) (tensor : ggml_tensor)
    (Hb1 : length b_n_dims = 4%nat) (Hb2 : length b_length = 4%nat)
    (Hb3 : length b_type = 4%nat)
    (Hn_dims : le_i32 b_n_dims = Z.of_nat (length dims))
    (Hdims : (length dims <= 2)%nat)
    (Hdim4 : Forall (fun d => length d = 4%nat) dims)
    (Hname : le_i32 b_length = Z.of_nat (length name))
    (Hreg : reg !! c_str name = Some tensor)
    (Hcount : ggml_nelements tensor = record_nelements dims)
    (Hne0 : nth 0 (ne tensor) 0 = record_ne dims 0)
    (Hne1 : nth 1 (ne tensor) 0 = record_ne dims 1)
    (Hsize : record_nbytes' dims (le_i32 b_type) tensor = ggml_nbytes' tensor)
    (Hshort : (length tail < Z.to_nat (ggml_nbytes' tensor))%nat) :
  load_weights' (S (S fuel))
    (open_stream (record_head b_n_dims b_length b_type dims name ++ tail)) reg
  = Some (load_ok,
          <[c_str name := {| ttype := ttype tensor; ne := ne tensor;
                             data := tail ++ drop (length tail) (data tensor) |}]>
            reg).
Proof.
  rewrite (load_weights_record _ _ _ _ _ _ _ _ _ _ _ _
             Hb1 Hb2 Hb3 Hn_dims Hdims Hdim4 Hname).
  rewrite Hreg, Hcount, Hne0, Hne1, Hsize, !Z.eqb_refl. cbn [negb orb].
  rewrite fin_read_open_short by exact Hshort.
  now apply load_weights_eofbit.
Qed.

(** X12.  A file that consists of the magic number, seven hyperparameters, the
    vocabulary count and that many words in the layout of the format,
    followed by fewer than twelve further bytes, loads successfully although
    it holds no tensor at all: the hyperparameters are those of the file,
    id_to_token gives the words of the file by position and token_to_id has
    an id for each of them, the registry holds the tensors as they were
    created, and the further bytes are ignored. *)
Theorem head_only_file_loads (h : gptj_hparams) (words : list (list byte))
    (tail : list byte) (model : gptj_model)
    (Hh : hparams_int32 h)
    (Hcount : n_vocab h = Z.of_nat (length words))
    (Hwords : Forall (fun w => Z.of_nat (length w) < 2 ^ 32) words)
    (Hftype : ggml_ftype_to_ggml_type (ftype h) <> GGML_TYPE_COUNT)
    (Hinit : ggml_init_ok
               (ctx_size_of h (ggml_ftype_to_ggml_type (ftype h))) = true)
    (Hlayer : 0 <= n_layer h)
    (Htail : (length tail < 12)%nat) :
  exists v',
    gptj_model_load' (Some (file_head h (n_vocab h) words ++ tail))
                     model empty_vocab
    = Some (load_ok,
            {| hparams := h;
               ctx := Some (ctx_size_of h (ggml_ftype_to_ggml_type (ftype h)));
               tensors := prepare_tensors' h (ggml_ftype_to_ggml_type (ftype h))
                            (tensors model);
               memory_k := Some (ggml_new_tensor_1d' GGML_TYPE_F16
                             (wrap32 (n_embd h * wrap32 (n_layer h * n_ctx h))));
               memory_v := Some (ggml_new_tensor_1d' GGML_TYPE_F16
                             (wrap32 (n_embd h * wrap32 (n_layer h * n_ctx h)))) |},
            v')
    /\ size (id_to_token v') = length words
    /\ (forall k, id_to_token v' !! Z.of_nat k
                  = string_of_list_byte <$> words !! k)
    /\ (forall k w, words !! k = Some w ->
          is_Some (token_to_id v' !! string_of_list_byte w)).
Proof.
  assert (Hc : int32 (n_vocab h)) by apply Hh.
  rewrite (gptj_model_load_head h (n_vocab h) words tail model empty_vocab Hh Hc).
  rewrite Z.eqb_refl. cbn [negb]. rewrite Hcount, Nat2Z.id.
  pose proof (load_vocab_loop_inv indeterminate (length words) 0
                (open_stream (concat (map word_bytes words) ++ tail)) []
                empty_vocab ltac:(lia) vocab_inv_empty) as Hinv.
  destruct (load_vocab_loop_words indeterminate words 0 tail [] empty_vocab Hwords)
    as (v' & Hrun & Hid & Hout & _ & Hkeys).
  rewrite Hrun in Hinv |- *. cbn [snd] in Hinv. cbv zeta.
  destruct (ggml_type_eqb (ggml_ftype_to_ggml_type (ftype h)) GGML_TYPE_COUNT)
    eqn:Hty.
  { destruct (ggml_ftype_to_ggml_type (ftype h)); try discriminate Hty.
    now contradiction Hftype. }
  rewrite Hinit. cbn [negb].
  destruct (n_layer h <? 0) eqn:Hl; [apply Z.ltb_lt in Hl; lia|].
  cbn [rest open_stream].
  rewrite load_weights_short by exact Htail.
  exists v'. split; [reflexivity|].
  destruct Hinv as (Hdom & Hsize & _).
  split; [rewrite Hsize; lia|]. split; [|exact Hkeys].
  intros k. destruct (words !! k) as [w|] eqn:Hk; cbn.
  - rewrite <- (Z.add_0_l (Z.of_nat k)). now apply Hid.
  - apply lookup_ge_None in Hk.
    destruct (id_to_token v' !! Z.of_nat k) eqn:E; [|reflexivity].
    assert (is_Some (id_to_token v' !! Z.of_nat k)) as Hs by eauto.
    apply Hdom in Hs. lia.
Qed.

(** X13.  A vocabulary count that differs from n_vocab makes the load fail
    before a word is read and before anything is allocated; the
    hyperparameters of the model have been overwritten with those of the
    file by then, the rest of the model and the vocabulary are as they
    were. *)
Theorem vocab_count_mismatch (h : gptj_hparams) (count : Z)
    (words : list (list byte)) (tail : list byte) (model : gptj_model)
    (vocab : gpt_vocab)
    (Hh : hparams_int32 h) (Hc : int32 count)
    (Hne : count <> n_vocab h) :
  gptj_model_load' (Some (file_head h count words ++ tail)) model vocab
  = Some (load_fail bad_vocab_size,
          {| hparams := h; ctx := ctx model; tensors := tensors model;
             memory_k := memory_k model; memory_v := memory_v model |},
          vocab).
Proof.
  rewrite (gptj_model_load_head h count words tail model vocab Hh Hc).
  apply Z.eqb_neq in Hne. now rewrite Hne.
Qed.

(* The file types the switch of ggml_ftype_to_ggml_type has a weight type
   for. *)
Lemma ggml_ftype_unknown (f : Z) :
  ~ In f [0; 1; 2; 3; 5; 7; 8; 9] ->
  ggml_ftype_to_ggml_type f = GGML_TYPE_COUNT.
Proof.
  intros H. unfold ggml_ftype_to_ggml_type, GGML_FTYPE_ALL_F32,
    GGML_FTYPE_MOSTLY_F16, GGML_FTYPE_MOSTLY_Q4_0, GGML_FTYPE_MOSTLY_Q4_1,
    GGML_FTYPE_MOSTLY_Q4_2, GGML_FTYPE_MOSTLY_Q5_0, GGML_FTYPE_MOSTLY_Q5_1,
    GGML_FTYPE_MOSTLY_Q8_0.
  repeat match goal with
         | |- context [f =? ?c] =>
             destruct (f =? c) eqn:E;
             [apply Z.eqb_eq in E; subst f; exfalso; apply H; simpl; tauto|];
             clear E
         end.
  reflexivity.
Qed.

(** X14.  A file whose ftype is none of 0, 1, 2, 3, 5, 7, 8, 9 (so also 4,
    MOSTLY_Q4_1_SOME_F16, and 6) is rejected as having a bad ftype; this
    happens after the vocabulary has been read, so the caller's vocabulary
    holds the words of the file by then, and before anything is allocated:
    the model has the file's hyperparameters and is otherwise as it was. *)
Theorem unknown_ftype_is_rejected (h : gptj_hparams)
    (words : list (list byte)) (tail : list byte) (model : gptj_model)
    (Hh : hparams_int32 h)
    (Hcount : n_vocab h = Z.of_nat (length words))
    (Hwords : Forall (fun w => Z.of_nat (length w) < 2 ^ 32) words)
    (Hftype : ~ In (ftype h) [0; 1; 2; 3; 5; 7; 8; 9]) :
  exists v',
    gptj_model_load' (Some (file_head h (n_vocab h) words ++ tail))
                     model empty_vocab
    = Some (load_fail bad_ftype,
            {| hparams := h; ctx := ctx model; tensors := tensors model;
               memory_k := memory_k model; memory_v := memory_v model |},
            v')
    /\ forall k w, words !! k = Some w ->
         id_to_token v' !! Z.of_nat k = Some (string_of_list_byte w).
Proof.
  assert (Hc : int32 (n_vocab h)) by apply Hh.
  rewrite (gptj_model_load_head h (n_vocab h) words tail model empty_vocab Hh Hc).
  rewrite Z.eqb_refl. cbn [negb]. rewrite Hcount, Nat2Z.id.
  destruct (load_vocab_loop_words indeterminate words 0 tail [] empty_vocab Hwords)
    as (v' & Hrun & Hid & _).
  rewrite Hrun. cbv zeta. rewrite (ggml_ftype_unknown _ Hftype).
  cbn [ggml_type_eqb]. exists v'. split; [reflexivity|].
  intros k w Hk. rewrite <- (Z.add_0_l (Z.of_nat k)). now apply Hid.
Qed.

(* Where the ggml context of the model stands when the load fails. *)
Lemma gptj_model_load_failure_ctx (file : option (list byte))
    (model m' : gptj_model) (vocab v' : gpt_vocab) (e : load_error) :
  ctx model = None ->
  gptj_model_load' file model vocab = Some (load_fail e, m', v') ->
  ctx m' = if tensor_error e
           then Some (ctx_size_of (hparams m')
                        (ggml_ftype_to_ggml_type (ftype (hparams m'))))
           else None.
Proof.
  intros Hctx. unfold gptj_model_load.
  destruct file as [bytes|]; [|intros [= <- <- _]; exact Hctx].
  destruct (read_u32 _ indeterminate) as [fin1 magic].
  destruct (negb (magic =? magic_number)); [intros [= <- <- _]; exact Hctx|].
  destruct (load_hparams fin1 (hparams model)) as [fin2 h].
  destruct (read_i32 fin2 (le_bytes 4 0)) as [fin3 n_vocab_file].
  destruct (negb (n_vocab_file =? n_vocab h)); [intros [= <- <- _]; exact Hctx|].
  destruct (load_vocab_loop indeterminate (Z.to_nat n_vocab_file) 0 fin3 [] vocab)
    as [fin4 vocab4].
  destruct (ggml_type_eqb _ _); [intros [= <- <- _]; exact Hctx|].
  destruct (negb (ggml_init_ok _)); [intros [= <- <- _]; reflexivity|].
  destruct (n_layer h <? 0); [discriminate|].
  destruct (load_weights _ _ _ _ _ _ _) as [[r reg]|] eqn:Hw; [|discriminate].
  intros [= -> <- _]. apply load_weights_errors in Hw. rewrite Hw. reflexivity.
Qed.

(** X15.  gptj_load_model hands back a context exactly when gptj_model_load
    succeeds, and that context holds the ggml region the load created, which
    gptj_free_model then frees.  When the load fails in the tensor records
    (unknown tensor, wrong size, wrong shape), the region has been created
    and gptj_load_model returns nullptr without freeing it; when it fails
    earlier, no region exists. *)
Theorem load_model_region (file : option (list byte)) :
  (forall m v,
      gptj_model_load' file empty_model empty_vocab = Some (load_ok, m, v) ->
      gptj_load_model' file = Some (Some {| vocab := v; model := m |}, [])
      /\ gptj_free_model {| vocab := v; model := m |}
         = Some (ctx_size_of (hparams m)
                   (ggml_ftype_to_ggml_type (ftype (hparams m)))))
  /\ (forall e m v,
      gptj_model_load' file empty_model empty_vocab = Some (load_fail e, m, v) ->
      gptj_load_model' file
      = Some (None,
              if tensor_error e
              then [ctx_size_of (hparams m)
                      (ggml_ftype_to_ggml_type (ftype (hparams m)))]
              else [])).
Proof.
  split.
  - intros m v Hload. unfold gptj_load_model. rewrite Hload.
    split; [reflexivity|]. unfold gptj_free_model. cbn [model].
    unfold gptj_model_load in Hload.
    destruct file as [bytes|]; [|discriminate Hload].
    destruct (read_u32 _ indeterminate) as [fin1 magic].
    destruct (negb (magic =? magic_number)); [discriminate Hload|].
    destruct (load_hparams fin1 (hparams empty_model)) as [fin2 h].
    destruct (read_i32 fin2 (le_bytes 4 0)) as [fin3 n_vocab_file].
    destruct (negb (n_vocab_file =? n_vocab h)); [discriminate Hload|].
    destruct (load_vocab_loop indeterminate (Z.to_nat n_vocab_file) 0 fin3 []
                empty_vocab) as [fin4 vocab4].
    destruct (ggml_type_eqb _ _); [discriminate Hload|].
    destruct (negb (ggml_init_ok _)); [discriminate Hload|].
    destruct (n_layer h <? 0); [discriminate Hload|].
    destruct (load_weights _ _ _ _ _ _ _) as [[r reg]|]; [|discriminate Hload].
    injection Hload as _ <- _. reflexivity.
  - intros e m v Hload. unfold gptj_load_model. rewrite Hload.
    rewrite (gptj_model_load_failure_ctx file empty_model m empty_vocab v e
               eq_refl Hload).
    destruct (tensor_error e); reflexivity.
Qed.
End LoaderMore.


Lemma vocabulary_after_load_witness :
  exists m' v',
    toy_load (file_head toy_hparams 2 toy_words) empty_model empty_vocab
    = Some (load_ok, m', v')
    /\ vocab_inv (n_vocab (hparams m')) v'.
Proof.
  eexists. eexists. split.
  - vm_compute. reflexivity.
  - apply (vocabulary_after_load toy_type_of_tag toy_type_size toy_blck_size
             (fun _ _ => 1024) (fun _ => true) []
             (file_head toy_hparams 2 toy_words) empty_model).
    vm_compute. reflexivity.
Defined.


Lemma truncated_payload_is_accepted_witness :
  load_weights toy_type_of_tag toy_type_size toy_blck_size [] 2
    (open_stream
       (record_head (le_bytes 4 1) (le_bytes 4 12) (le_bytes 4 0)
                    [le_bytes 4 3] toy_record_name ++ take 5 toy_payload))
    toy_registry
  = Some (load_ok,
          <[c_str toy_record_name :=
              {| ttype := GGML_TYPE_F32; ne := [3; 1; 1; 1];
                 data := take 5 toy_payload
                         ++ drop (length (take 5 toy_payload))
                              (replicate 12 "000"%byte) |}]> toy_registry).
Proof.
  apply (truncated_payload_is_accepted toy_type_of_tag toy_type_size
           toy_blck_size [] 0%nat toy_registry
           (le_bytes 4 1) (le_bytes 4 12) (le_bytes 4 0)
           [le_bytes 4 3] toy_record_name (take 5 toy_payload)
           (ggml_new_tensor_1d toy_type_size toy_blck_size GGML_TYPE_F32 3)).
  all: try reflexivity.
  - simpl. lia.
  - repeat constructor.
  - vm_compute. lia.
Defined.

Lemma head_only_file_loads_witness :
  exists v',
    toy_load (file_head toy_hparams (n_vocab toy_hparams) toy_words
              ++ list_byte_of_string "trailing")
             empty_model empty_vocab
    = Some (load_ok,
            {| hparams := toy_hparams;
               ctx := Some 1024;
               tensors := prepare_tensors toy_type_size toy_blck_size
                            toy_hparams
                            (ggml_ftype_to_ggml_type (ftype toy_hparams))
                            (tensors empty_model);
               memory_k := Some (ggml_new_tensor_1d toy_type_size toy_blck_size
                             GGML_TYPE_F16
                             (wrap32 (n_embd toy_hparams
                                      * wrap32 (n_layer toy_hparams
                                                * n_ctx toy_hparams))));
               memory_v := Some (ggml_new_tensor_1d toy_type_size toy_blck_size
                             GGML_TYPE_F16
                             (wrap32 (n_embd toy_hparams
                                      * wrap32 (n_layer toy_hparams
                                                * n_ctx toy_hparams)))) |},
            v')
    /\ size (id_to_token v') = length toy_words
    /\ (forall k, id_to_token v' !! Z.of_nat k
                  = string_of_list_byte <$> toy_words !! k)
    /\ (forall k w, toy_words !! k = Some w ->
          is_Some (token_to_id v' !! string_of_list_byte w)).
Proof.
  apply (head_only_file_loads toy_type_of_tag toy_type_size toy_blck_size
           (fun _ _ => 1024) (fun _ => true) []
           toy_hparams toy_words (list_byte_of_string "trailing") empty_model).
  - unfold hparams_int32, int32. simpl. lia.
  - reflexivity.
  - repeat constructor.
  - discriminate.
  - reflexivity.
  - simpl. lia.
  - simpl. lia.
Defined.

Lemma vocab_count_mismatch_witness :
  toy_load (file_head toy_hparams 3 toy_words) empty_model toy_vocab
  = Some (load_fail bad_vocab_size,
          {| hparams := toy_hparams; ctx := ctx empty_model;
             tensors := tensors empty_model;
             memory_k := memory_k empty_model;
             memory_v := memory_v empty_model |},
          toy_vocab).
Proof.
  rewrite <- (app_nil_r (file_head toy_hparams 3 toy_words)).
  apply (vocab_count_mismatch toy_type_of_tag toy_type_size toy_blck_size
           (fun _ _ => 1024) (fun _ => true) []
           toy_hparams 3 toy_words [] empty_model toy_vocab).
  - unfold hparams_int32, int32. simpl. lia.
  - unfold int32. lia.
  - simpl. lia.
Defined.

Lemma unknown_ftype_is_rejected_witness :
  exists v',
    toy_load (file_head {| n_vocab := 2; n_ctx := 8; n_embd := 1; n_head := 1;
                           n_layer := 0; n_rot := 1; ftype := 4 |} 2 toy_words
              ++ [])
             empty_model empty_vocab
    = Some (load_fail bad_ftype,
            {| hparams := {| n_vocab := 2; n_ctx := 8; n_embd := 1; n_head := 1;
                             n_layer := 0; n_rot := 1; ftype := 4 |};
               ctx := ctx empty_model; tensors := tensors empty_model;
               memory_k := memory_k empty_model;
               memory_v := memory_v empty_model |},
            v')
    /\ forall k w, toy_words !! k = Some w ->
         id_to_token v' !! Z.of_nat k = Some (string_of_list_byte w).
Proof.
  apply (unknown_ftype_is_rejected toy_type_of_tag toy_type_size toy_blck_size
           (fun _ _ => 1024) (fun _ => true) []
           {| n_vocab := 2; n_ctx := 8; n_embd := 1; n_head := 1;
              n_layer := 0; n_rot := 1; ftype := 4 |} toy_words [] empty_model).
  - unfold hparams_int32, int32. simpl. lia.
  - reflexivity.
  - repeat constructor.
  - simpl. lia.
Defined.

(** *** Generation driver *)

Lemma first_eval_callbacks (evs : list event) :
  Forall (fun e => is_callback e = true) evs -> first_eval evs = None.
Proof.
  induction 1 as [|e evs He _ IH]; [reflexivity|].
  destruct e; simpl in *; try discriminate. exact IH.
Qed.

Lemma first_eval_app (evs1 evs2 : list event) :
  first_eval (evs1 ++ evs2)
  = match first_eval evs1 with
    | Some x => Some x
    | None => first_eval evs2
    end.
Proof.
  induction evs1 as [|e evs1 IH]; [reflexivity|].
  destruct e; simpl; auto.
Qed.

Lemma first_sample_callbacks (evs : list event) (acc : Z) :
  Forall (fun e => is_callback e = true) evs -> first_sample evs acc = None.
Proof.
  induction 1 as [|e evs He _ IH]; [reflexivity|].
  destruct e; simpl in *; try discriminate. exact IH.
Qed.

Lemma fed_callbacks (evs : list event) :
  Forall (fun e => is_callback e = true) evs -> fed evs = 0.
Proof.
  induction 1 as [|e evs He _ IH]; [reflexivity|].
  destruct e; simpl in *; try discriminate. exact IH.
Qed.

Lemma first_sample_app (evs1 evs2 : list event) (acc : Z) :
  first_sample (evs1 ++ evs2) acc
  = match first_sample evs1 acc with
    | Some x => Some x
    | None => first_sample evs2 (acc + fed evs1)
    end.
Proof.
  revert acc. induction evs1 as [|e evs1 IH]; intros acc; simpl.
  - now rewrite Z.add_0_r.
  - destruct e; simpl; auto. rewrite IH. now rewrite Z.add_assoc.
Qed.

Lemma fill_batch_grows (pending embd : list Z) (n_batch : Z) :
  (length embd <= length (fill_batch pending embd n_batch))%nat.
Proof.
  revert embd. induction pending as [|x pending IH]; intros embd; simpl; [lia|].
  destruct (to_size_t n_batch <? Z.of_nat (length (embd ++ [x]))).
  - rewrite length_app. simpl. lia.
  - specialize (IH (embd ++ [x])). rewrite length_app in IH. simpl in IH. lia.
Qed.

Lemma fill_batch_length (pending embd : list Z) (n_batch : Z) :
  (length (fill_batch pending embd n_batch) <= length embd + length pending)%nat
  /\ (pending <> [] ->
      (length embd < length (fill_batch pending embd n_batch))%nat).
Proof.
  split.
  - revert embd. induction pending as [|x pending IH]; intros embd; simpl; [lia|].
    destruct (to_size_t n_batch <? Z.of_nat (length (embd ++ [x]))).
    + rewrite length_app. simpl. lia.
    + specialize (IH (embd ++ [x])). rewrite length_app in IH. simpl in IH. lia.
  - destruct pending as [|x pending]; [congruence|]. intros _. simpl.
    destruct (to_size_t n_batch <? Z.of_nat (length (embd ++ [x]))).
    + rewrite length_app. simpl. lia.
    + pose proof (fill_batch_grows pending (embd ++ [x]) n_batch) as H.
      rewrite length_app in H. simpl in H. lia.
Qed.

Lemma count_samples_app (evs1 evs2 : list event) :
  count_samples (evs1 ++ evs2) = (count_samples evs1 + count_samples evs2)%nat.
Proof. unfold count_samples. now rewrite filter_app, length_app. Qed.

Lemma count_samples_callbacks (evs : list event) :
  Forall (fun e => is_callback e = true) evs -> count_samples evs = 0%nat.
Proof.
  induction 1 as [|e evs He _ IH]; [reflexivity|].
  destruct e; simpl in *; try discriminate. exact IH.
Qed.

Section DriverProps.
Variable exp : float -> float.
Variable Rng : Type.
Variable canonical : Rng -> float * Rng.
Variable seed_rng : Z -> Rng.
Variable time_now : Z.
Variable hardware_concurrency : Z.
Variable KV : Type.
Variable forward : gptj_model -> KV -> Z -> Z -> list Z -> KV * list float.
Variable ggml_used_mem : Z -> Z.
Variable grow_size : Z -> Z.
Variable realloc_ok : Z -> bool.
Variable CB : Type.
Variable callback : CB -> string -> bool * CB.

Local Abbreviation gptj_eval' :=
  (gptj_eval KV forward ggml_used_mem grow_size realloc_ok).
Local Abbreviation generate_body' :=
  (generate_body exp Rng canonical KV forward ggml_used_mem grow_size
                 realloc_ok CB callback).
Local Abbreviation generate_loop' :=
  (generate_loop exp Rng canonical KV forward ggml_used_mem grow_size
                 realloc_ok CB callback).
Local Abbreviation generate_init' :=
  (generate_init Rng seed_rng KV forward ggml_used_mem grow_size
                 realloc_ok CB).
Local Abbreviation gptj_generate' :=
  (gptj_generate exp Rng canonical seed_rng time_now hardware_concurrency
                 KV forward ggml_used_mem grow_size realloc_ok CB callback).
Local Abbreviation gen_state' := (gen_state Rng KV CB).
Local Abbreviation callback_loop' := (callback_loop CB callback).

(* The loop over the sampled ids only appends calls of on_token to the
   trace. *)
Lemma callback_loop_trace (ids : list Z) (vocab vocab' : gpt_vocab)
    (cb cb' : CB) (trace trace' : list event) (stop : bool) :
  callback_loop' ids vocab cb trace = (stop, vocab', cb', trace') ->
  exists evs, trace' = trace ++ evs
              /\ Forall (fun e => is_callback e = true) evs.
Proof.
  revert vocab cb trace.
  induction ids as [|id ids IH]; intros vocab cb trace; simpl.
  - intros [= <- <- <- <-]. exists []. now rewrite app_nil_r.
  - destruct (id =? end_of_text).
    + intros [= <- <- <- <-]. exists []. now rewrite app_nil_r.
    + destruct (id_to_token_at vocab id) as [token v1].
      destruct (callback cb token) as [continue cb1].
      destruct continue; simpl.
      * intros H. apply IH in H. destruct H as (evs & -> & Hall).
        exists (ev_callback token true :: evs). rewrite <- app_assoc.
        split; [reflexivity|]. now constructor.
      * intros [= <- <- <- <-]. exists [ev_callback token false].
        split; [reflexivity|]. now repeat constructor.
Qed.

(* Boolean comparisons in the context, as propositions. *)
Ltac bool_hyps :=
  repeat match goal with
         | H : (_ <=? _) = true |- _ => apply Z.leb_le in H
         | H : (_ <=? _) = false |- _ => apply Z.leb_gt in H
         | H : (_ <? _) = true |- _ => apply Z.ltb_lt in H
         | H : (_ <? _) = false |- _ => apply Z.ltb_ge in H
         end.

(* Every path through generate_body. *)
Ltac body_cases :=
  unfold generate_body;
  repeat match goal with
         | |- context [if negb ?b then _ else _] => destruct b eqn:?; cbn [negb]
         | |- context [if ?b then _ else _] => destruct b eqn:?
         | |- context [gptj_eval' ?a ?b ?c ?d ?e ?f ?g] =>
             destruct (gptj_eval' a b c d e f g) as [[[? ?] ?] ?] eqn:?
         | |- context [gpt_sample_top_k_top_p ?a ?b ?c ?d ?e ?f ?g ?h ?i] =>
             destruct (gpt_sample_top_k_top_p a b c d e f g h i) as [[? ?]|] eqn:?
         | |- context [callback_loop' ?a ?b ?c ?d] =>
             destruct (callback_loop' a b c d) as [[[? ?] ?] ?] eqn:?
         end;
  cbn [result_state g_trace g_n_past g_i g_embd g_processing_input].

(* The trace only grows. *)
Lemma generate_body_trace (model : gptj_model) (params : gptj_params)
    (embd_inp : list Z) (st : gen_state') :
  exists evs,
    g_trace (result_state (generate_body' model params embd_inp st))
    = g_trace st ++ evs.
Proof.
  body_cases.
  all: repeat match goal with
              | H : callback_loop' _ _ _ _ = _ |- _ =>
                  apply callback_loop_trace in H; destruct H as (? & -> & _)
              end.
  all: rewrite <- ?app_assoc; eauto.
  all: try (eexists; symmetry; apply app_nil_r).
Qed.

Lemma generate_loop_trace (fuel : nat) (model : gptj_model)
    (params : gptj_params) (embd_inp : list Z) (st : gen_state') :
  exists evs,
    g_trace (snd (generate_loop' fuel model params embd_inp st))
    = g_trace st ++ evs.
Proof.
  revert st. induction fuel as [|fuel IH]; intros st; simpl.
  - destruct (negb _); exists []; simpl; now rewrite app_nil_r.
  - destruct (negb _); [exists []; simpl; now rewrite app_nil_r|].
    destruct (generate_body_trace model params embd_inp st) as [evs Hevs].
    destruct (generate_body' model params embd_inp st) as [[r st']|st'];
      simpl in Hevs.
    + eauto.
    + destruct (IH (incr_i st')) as [evs' Hevs'].
      rewrite Hevs'. simpl. rewrite Hevs, <- app_assoc. eauto.
Qed.

(* gptj_eval touches mem_per_token only when it is zero. *)
Lemma gptj_eval_mem_per_token (model : gptj_model) (env : eval_env KV)
    (n_threads n_past : Z) (embd_inp : list Z) (embd_w : list float)
    (mem_per_token : Z) :
  let '(ok, _, _, mem') :=
    gptj_eval' model env n_threads n_past embd_inp embd_w mem_per_token in
  (mem_per_token <> 0 -> mem' = mem_per_token)
  /\ (mem_per_token = 0 ->
      ok = true
      /\ mem' = ggml_used_mem (Z.of_nat (length embd_inp))
                / Z.of_nat (length embd_inp)).
Proof.
  unfold gptj_eval.
  destruct ((0 <? mem_per_token) && _) eqn:Hgrow; cbn [andb negb].
  - destruct (realloc_ok _); cbn [negb].
    + destruct (forward _ _ _ _ _) as [kv' inpL].
      split; intros H.
      * apply Z.eqb_neq in H. now rewrite H.
      * subst. discriminate Hgrow.
    + split; [reflexivity|]. intros ->. discriminate Hgrow.
  - destruct (forward _ _ _ _ _) as [kv' inpL].
    split; intros H.
    + apply Z.eqb_neq in H. now rewrite H.
    + subst. split; reflexivity.
Qed.

(* While n_past is 0, a pass either calls gptj_eval at position 0 or calls
   it not at all and leaves n_past at 0. *)
Lemma generate_body_first_eval (model : gptj_model) (params : gptj_params)
    (embd_inp : list Z) (st : gen_state') :
  g_n_past st = 0 ->
  exists evs,
    g_trace (result_state (generate_body' model params embd_inp st))
    = g_trace st ++ evs
    /\ (first_eval evs = Some 0
        \/ (first_eval evs = None
            /\ g_n_past
                 (result_state (generate_body' model params embd_inp st)) = 0)).
Proof.
  intros Hpast. body_cases.
  all: repeat match goal with
              | H : callback_loop' _ _ _ _ = _ |- _ =>
                  apply callback_loop_trace in H; destruct H as (? & -> & ?)
              end.
  all: rewrite <- ?app_assoc.
  all: try (eexists; split; [reflexivity|]; left; simpl; now rewrite Hpast).
  all: match goal with
       | H : (0 <? Z.of_nat (length ?l)) = false |- _ =>
           apply Z.ltb_ge in H;
           assert (length l = 0%nat) as Hl by lia; rewrite ?Hl; clear H
       end.
  all: try (eexists; split; [reflexivity|]; right; simpl;
            rewrite ?first_eval_callbacks by assumption; split;
            [reflexivity|lia]).
  all: try (exists []; split; [now rewrite app_nil_r|]; right; simpl;
            split; [reflexivity|lia]).
Qed.

Lemma generate_loop_first_eval (fuel : nat) (model : gptj_model)
    (params : gptj_params) (embd_inp : list Z) (st : gen_state') :
  g_n_past st = 0 ->
  exists evs,
    g_trace (snd (generate_loop' fuel model params embd_inp st))
    = g_trace st ++ evs
    /\ (first_eval evs = None \/ first_eval evs = Some 0).
Proof.
  revert st. induction fuel as [|fuel IH]; intros st Hpast; simpl.
  - destruct (negb _); exists []; simpl; rewrite app_nil_r; auto.
  - destruct (negb _); [exists []; simpl; rewrite app_nil_r; auto|].
    destruct (generate_body_first_eval model params embd_inp st Hpast)
      as (evs & Hevs & Hfirst).
    destruct (generate_body' model params embd_inp st) as [[r st']|st'];
      simpl in Hevs, Hfirst.
    + exists evs. split; [exact Hevs|]. destruct Hfirst as [->|[-> _]]; auto.
    + destruct Hfirst as [Hsome|[Hnone Hpast']].
      * destruct (generate_loop_trace fuel model params embd_inp
                    (incr_i st')) as [evs' Hevs'].
        exists (evs ++ evs'). rewrite Hevs'. simpl.
        rewrite Hevs, <- app_assoc. split; [reflexivity|].
        rewrite first_eval_app, Hsome. auto.
      * destruct (IH (incr_i st') Hpast') as (evs' & Hevs' & Hf').
        exists (evs ++ evs'). rewrite Hevs'. simpl.
        rewrite Hevs, <- app_assoc. split; [reflexivity|].
        rewrite first_eval_app, Hnone. exact Hf'.
Qed.

(* A pass that starts under [prefill_inv] either samples, at position
   [length embd_inp] and with as many ids fed, or does not sample and, if
   the loop goes on, re-establishes [prefill_inv]. *)
Lemma generate_body_first_sample (model : gptj_model) (params : gptj_params)
    (embd_inp : list Z) (st : gen_state') :
  prefill_inv embd_inp st ->
  exists evs,
    g_trace (result_state (generate_body' model params embd_inp st))
    = g_trace st ++ evs
    /\ (first_sample evs (g_n_past st)
        = Some (Z.of_nat (length embd_inp), Z.of_nat (length embd_inp))
        \/ (first_sample evs (g_n_past st) = None
            /\ match generate_body' model params embd_inp st with
               | inl _ => True
               | inr st' =>
                   prefill_inv embd_inp (incr_i st')
                   /\ g_n_past st + fed evs = g_n_past st'
               end)).
Proof.
  intros (Hpast & Hi & HiP & Hproc).
  unfold generate_body. rewrite Hproc. cbn [negb].
  body_cases.
  all: repeat match goal with
              | H : callback_loop' _ _ _ _ = _ |- _ =>
                  apply callback_loop_trace in H; destruct H as (? & -> & ?)
              end.
  all: rewrite <- ?app_assoc.
  all: bool_hyps.
  all: eexists; (split; [first [reflexivity|symmetry; apply app_nil_r]|]).
  all: cbn [app first_sample fed].
  (* a sample was taken: it is the first one *)
  all: try (left; f_equal; f_equal; lia).
  (* no sample *)
  all: right; (split; [reflexivity|]); try exact I.
  all: unfold prefill_inv, incr_i;
    cbn [g_i g_n_past g_embd g_processing_input].
  all: match goal with
       | |- context [fill_batch ?p [] ?b] =>
           destruct (fill_batch_length p [] b) as [Hle Hlt];
           rewrite length_drop in Hle; cbn [length] in Hle, Hlt;
           assert (p <> []) as Hne
             by (intros E; apply (f_equal length) in E;
                 rewrite length_drop in E; cbn [length] in E; lia);
           specialize (Hlt Hne)
       end.
  all: repeat split; lia.
Qed.

Lemma generate_loop_first_sample (fuel : nat) (model : gptj_model)
    (params : gptj_params) (embd_inp : list Z) (st : gen_state') :
  prefill_inv embd_inp st ->
  exists evs,
    g_trace (snd (generate_loop' fuel model params embd_inp st))
    = g_trace st ++ evs
    /\ (first_sample evs (g_n_past st) = None
        \/ first_sample evs (g_n_past st)
           = Some (Z.of_nat (length embd_inp), Z.of_nat (length embd_inp))).
Proof.
  revert st. induction fuel as [|fuel IH]; intros st Hinv; simpl.
  - destruct (negb _); exists []; simpl; rewrite app_nil_r; auto.
  - destruct (negb _); [exists []; simpl; rewrite app_nil_r; auto|].
    destruct (generate_body_first_sample model params embd_inp st Hinv)
      as (evs & Hevs & Hfirst).
    destruct (generate_body' model params embd_inp st) as [[r st']|st'];
      simpl in Hevs, Hfirst.
    + exists evs. split; [exact Hevs|]. destruct Hfirst as [->|[-> _]]; auto.
    + destruct Hfirst as [Hsome|(Hnone & Hinv' & Hfed)].
      * destruct (generate_loop_trace fuel model params embd_inp
                    (incr_i st')) as [evs' Hevs'].
        exists (evs ++ evs'). rewrite Hevs'. simpl.
        rewrite Hevs, <- app_assoc. split; [reflexivity|].
        rewrite first_sample_app, Hsome. auto.
      * destruct (IH (incr_i st') Hinv') as (evs' & Hevs' & Hf').
        exists (evs ++ evs'). rewrite Hevs'. simpl.
        rewrite Hevs, <- app_assoc. split; [reflexivity|].
        rewrite first_sample_app, Hnone, Hfed. exact Hf'.
Qed.

(* The state in which the loop is entered. *)
Lemma generate_init_spec (vocab : gpt_vocab) (model : gptj_model)
    (env : eval_env KV) (cb : CB) (params : gptj_params) :
  let st := generate_init' vocab model env cb params in
  g_trace st = [ev_eval 0 [0; 1; 2; 3] true]
  /\ g_i st = 0 /\ g_n_past st = 0 /\ g_embd st = []
  /\ g_processing_input st = true
  /\ g_mem_per_token st = ggml_used_mem 4 / 4.
Proof.
  unfold generate_init.
  pose proof (gptj_eval_mem_per_token model env (n_threads params) 0
                [0; 1; 2; 3] [] 0) as H.
  destruct (gptj_eval' model env (n_threads params) 0 [0; 1; 2; 3] [] 0)
    as [[[ok env'] logits] mem].
  destruct H as [_ H]. destruct (H eq_refl) as [-> ->].
  cbn. repeat split.
Qed.

(** C10.  Every call of gptj_generate starts with one call of gptj_eval
    on the ids [0, 1, 2, 3] at cache position 0, which succeeds; the next
    call of gptj_eval, if there is one, is again at cache position 0, so
    the first call has not advanced n_past; mem_per_token, zero before that
    call, is the used memory divided by the four tokens after it, and
    gptj_eval leaves a mem_per_token that is not zero as it is. *)
Theorem warm_up_call_first (fuel : nat) (vocab : gpt_vocab)
    (model : gptj_model) (env : eval_env KV) (cb : CB) (prompt : string)
    (params : gptj_params) :
  (exists evs,
      g_trace
        (snd (gptj_generate' fuel vocab model env cb prompt params))
      = ev_eval 0 [0; 1; 2; 3] true :: evs
      /\ (first_eval evs = None \/ first_eval evs = Some 0))
  /\ g_mem_per_token
       (generate_init' vocab model env cb
          (resolve_params time_now hardware_concurrency model params
             (gpt_tokenize vocab prompt)))
     = ggml_used_mem 4 / 4
  /\ (forall model env n_threads n_past embd_inp embd_w mem_per_token,
         mem_per_token <> 0 ->
         snd (gptj_eval' model env n_threads n_past embd_inp embd_w
                         mem_per_token)
         = mem_per_token).
Proof.
  split; [|split].
  - unfold gptj_generate.
    set (embd_inp := gpt_tokenize vocab prompt).
    set (params' := resolve_params _ _ _ _ _).
    destruct (generate_init_spec vocab model env cb params')
      as (Htr & _ & Hpast & _).
    destruct (generate_loop_first_eval fuel model params' embd_inp _ Hpast)
      as (evs & Hevs & Hfirst).
    exists evs. rewrite Hevs, Htr. split; [reflexivity|exact Hfirst].
  - apply generate_init_spec.
  - intros m e nt np ei ew mem Hmem.
    pose proof (gptj_eval_mem_per_token m e nt np ei ew mem) as H.
    destruct (gptj_eval' m e nt np ei ew mem) as [[[ok env'] logits] mem'].
    simpl. now apply H.
Qed.

(** C4.  When the sampler is called for the first time, n_past equals
    the number of ids the prompt tokenizes to, and so does the number of
    ids handed to gptj_eval since the measuring call, whatever the batch
    size and the other parameters. *)
Theorem n_past_is_prompt_length_at_first_sample (fuel : nat)
    (vocab : gpt_vocab) (model : gptj_model) (env : eval_env KV) (cb : CB)
    (prompt : string) (params : gptj_params) (n_past fed_ids : Z)
    (Hsample :
       first_sample
         (tail (g_trace
                  (snd (gptj_generate' fuel vocab model env cb prompt params))))
         0
       = Some (n_past, fed_ids)) :
  n_past = gptj_num_tokens vocab prompt
  /\ fed_ids = gptj_num_tokens vocab prompt.
Proof.
  unfold gptj_generate, gptj_num_tokens in *.
  set (embd_inp := gpt_tokenize vocab prompt) in *.
  set (params' := resolve_params _ _ _ _ _) in *.
  destruct (generate_init_spec vocab model env cb params')
    as (Htr & Hi & Hpast & Hembd & Hproc & _).
  destruct (generate_loop_first_sample fuel model params' embd_inp
              (generate_init' vocab model env cb params'))
    as (evs & Hevs & Hfirst).
  { unfold prefill_inv. rewrite Hi, Hpast, Hembd, Hproc. simpl.
    repeat split; lia. }
  rewrite Hevs, Htr, Hpast in *. simpl in Hsample.
  destruct Hfirst as [H|H]; rewrite H in Hsample; [discriminate|].
  injection Hsample as <- <-. split; reflexivity.
Qed.

(* A pass samples at most once, and not at all before [i] has reached the
   end of the prompt; [i] never goes back, stays where it is in a sampling
   pass and stays inside the prompt in a prefill pass. *)
Lemma generate_body_samples (model : gptj_model) (params : gptj_params)
    (embd_inp : list Z) (st : gen_state') :
  0 <= g_i st ->
  exists evs,
    g_trace (result_state (generate_body' model params embd_inp st))
    = g_trace st ++ evs
    /\ (count_samples evs <= 1)%nat
    /\ (g_i st < Z.of_nat (length embd_inp) -> count_samples evs = 0%nat)
    /\ match generate_body' model params embd_inp st with
       | inl _ => True
       | inr st' =>
           g_i st <= g_i st'
           /\ (Z.of_nat (length embd_inp) <= g_i st ->
               g_i st' = g_i st)
           /\ (g_i st < Z.of_nat (length embd_inp) ->
               g_i st' + 1 <= Z.of_nat (length embd_inp))
       end.
Proof.
  intros Hi. body_cases.
  all: repeat match goal with
              | H : callback_loop' _ _ _ _ = _ |- _ =>
                  apply callback_loop_trace in H; destruct H as (? & -> & ?)
              end.
  all: rewrite <- ?app_assoc.
  all: bool_hyps.
  all: eexists; (split; [first [reflexivity|symmetry; apply app_nil_r]|]).
  all: repeat match goal with
              | H : Forall (fun e => is_callback e = true) _ |- _ =>
                  apply count_samples_callbacks in H
              end.
  all: rewrite ?count_samples_app.
  all: repeat match goal with
              | H : count_samples _ = 0%nat |- _ => rewrite H; clear H
              end.
  all: change (count_samples []) with 0%nat.
  all: repeat match goal with
              | |- context [count_samples [ev_eval ?a ?b ?c]] =>
                  change (count_samples [ev_eval a b c]) with 0%nat
              | |- context [count_samples [ev_sample ?a ?b]] =>
                  change (count_samples [ev_sample a b]) with 1%nat
              end.
  all: try match goal with
       | |- context [fill_batch ?p [] ?b] =>
           destruct (fill_batch_length p [] b) as [Hle Hlt];
           rewrite length_drop in Hle; cbn [length] in Hle, Hlt;
           assert (p <> []) as Hne
             by (intros E; apply (f_equal length) in E;
                 rewrite length_drop in E; cbn [length] in E; lia);
           specialize (Hlt Hne)
       end.
  all: repeat split; try exact I; try lia.
Qed.

Lemma generate_loop_samples (fuel : nat) (model : gptj_model)
    (params : gptj_params) (embd_inp : list Z) (st : gen_state') :
  0 <= g_i st < 2 ^ 64 ->
  Z.of_nat (length embd_inp) < 2 ^ 64 ->
  exists evs,
    g_trace (snd (generate_loop' fuel model params embd_inp st))
    = g_trace st ++ evs
    /\ Z.of_nat (count_samples evs)
       <= Z.max 0 (to_size_t (Z.of_nat (length embd_inp) + n_predict params)
                   - Z.max (g_i st) (Z.of_nat (length embd_inp))).
Proof.
  intros Hi HP. revert st Hi.
  induction fuel as [|fuel IH]; intros st Hi; simpl.
  - destruct (negb _); exists []; simpl; rewrite app_nil_r;
      (split; [reflexivity|]); change (count_samples []) with 0%nat; lia.
  - destruct (_ <? _) eqn:Hcond; cbn [negb].
    2:{ exists []. simpl. rewrite app_nil_r. split; [reflexivity|].
        change (count_samples []) with 0%nat. lia. }
    apply Z.ltb_lt in Hcond.
    unfold to_size_t in Hcond at 1. rewrite Z.mod_small in Hcond by lia.
    pose proof (Z.mod_pos_bound (Z.of_nat (length embd_inp) + n_predict params)
                  (2 ^ 64) ltac:(lia)) as HB.
    fold (to_size_t (Z.of_nat (length embd_inp) + n_predict params)) in HB.
    destruct (generate_body_samples model params embd_inp st ltac:(lia))
      as (evs & Hevs & Hle1 & Hpre & Hnext).
    destruct (generate_body' model params embd_inp st) as [[r st']|st'];
      simpl in Hevs.
    + exists evs. split; [exact Hevs|].
      destruct (Z.lt_ge_cases (g_i st) (Z.of_nat (length embd_inp)));
        [rewrite Hpre by assumption|]; lia.
    + destruct Hnext as (Hmono & Hdec & Hfill).
      destruct (IH (incr_i st')) as (evs' & Hevs' & Hcount).
      { simpl.
        destruct (Z.lt_ge_cases (g_i st) (Z.of_nat (length embd_inp)));
          [specialize (Hfill ltac:(assumption))
          |specialize (Hdec ltac:(assumption))]; lia. }
      exists (evs ++ evs'). rewrite Hevs'. simpl.
      rewrite Hevs, <- app_assoc. split; [reflexivity|].
      rewrite count_samples_app. simpl in Hcount.
      destruct (Z.lt_ge_cases (g_i st) (Z.of_nat (length embd_inp)));
        [specialize (Hfill ltac:(assumption)); rewrite Hpre by assumption
        |specialize (Hdec ltac:(assumption))]; lia.
Qed.

(* Where the signed sum [embd_inp.size() + n_predict] is not negative, the
   cap on n_predict bounds the number of calls of the sampler. *)
Lemma decode_steps_bounded (fuel : nat) (vocab : gpt_vocab)
    (model : gptj_model) (env : eval_env KV) (cb : CB) (prompt : string)
    (params : gptj_params) :
  0 <= gptj_num_tokens vocab prompt + n_predict params ->
  gptj_num_tokens vocab prompt < 2 ^ 63 ->
  0 <= n_ctx (hparams model) < 2 ^ 63 ->
  Z.of_nat (count_samples
              (g_trace
                 (snd (gptj_generate' fuel vocab model env cb prompt params))))
  <= Z.max 0 (n_ctx (hparams model) - gptj_num_tokens vocab prompt).
Proof.
  unfold gptj_generate, gptj_num_tokens.
  set (embd_inp := gpt_tokenize vocab prompt).
  set (params' := resolve_params _ _ _ _ _).
  intros Hsum HP Hctx.
  destruct (generate_init_spec vocab model env cb params')
    as (Htr & Hi & _).
  destruct (generate_loop_samples fuel model params' embd_inp
              (generate_init' vocab model env cb params'))
    as (evs & Hevs & Hcount); [rewrite Hi; lia|lia|].
  rewrite Hevs, Htr, count_samples_app.
  change (count_samples [ev_eval 0 [0; 1; 2; 3] true]) with 0%nat.
  rewrite Hi in Hcount. unfold params' in Hcount. cbn [n_predict resolve_params] in Hcount.
  fold embd_inp in Hcount.
  unfold to_size_t in Hcount. rewrite Z.mod_small in Hcount by lia. lia.
Qed.
End DriverProps.

(* The batch the prefill loop builds holds one id more than n_batch, unless
   the prompt ends first. *)
Lemma fill_batch_size (pending embd : list Z) (n_batch : Z) :
  0 <= n_batch < 2 ^ 64 ->
  Z.of_nat (length embd) <= n_batch ->
  Z.of_nat (length (fill_batch pending embd n_batch))
  = Z.min (Z.of_nat (length embd + length pending)) (n_batch + 1).
Proof.
  intros Hb. revert embd.
  induction pending as [|x pending IH]; intros embd Hlen; simpl.
  - rewrite Nat.add_0_r. lia.
  - unfold to_size_t. rewrite Z.mod_small by lia.
    rewrite length_app. simpl.
    destruct (n_batch <? Z.of_nat (length embd + 1)) eqn:E.
    + apply Z.ltb_lt in E. rewrite length_app. simpl. lia.
    + apply Z.ltb_ge in E. rewrite IH by (rewrite length_app; simpl; lia).
      rewrite length_app. simpl. lia.
Qed.

(** C2 (every prefill call of gptj_eval receives at most n_batch ids) does
    not hold of the code: with n_batch = 1 and a prompt of two tokens, the
    one prefill call of gptj_eval receives both ids. *)
Lemma prefill_batch_exceeds_n_batch :
  n_batch (toy_params 1 1 1) = 1
  /\ gpt_tokenize toy_vocab "hi there" = [0; 1]
  /\ g_trace (snd (toy_generate 10 2048 "hi there" (toy_params 1 1 1)
                                (always true)))
     = [ev_eval 0 [0; 1; 2; 3] true; ev_eval 0 [0; 1] true;
        ev_sample 2 2; ev_callback "<eot>" true]
  /\ batch_sizes (tail (g_trace (snd (toy_generate 10 2048 "hi there"
                                        (toy_params 1 1 1) (always true)))))
     = [2%nat].
Proof. repeat split; vm_compute; reflexivity. Qed.

(** C3 (at most n_ctx - prompt length calls of the sampler, for every
    n_predict) does not hold of the code: with n_predict = -3, a prompt of
    two tokens and n_ctx = 4, the sum that bounds the loop is negative and
    wraps around as a size_t; the run is still sampling when twelve passes
    are used up, eleven calls of the sampler in, with the cache position at
    12. *)
Lemma negative_n_predict_decodes_past_n_ctx :
  let run := toy_generate 12 4 "hi there" (toy_params (-3) 1 8) (always true) in
  fst run = gen_out_of_fuel
  /\ count_samples (g_trace (snd run)) = 11%nat
  /\ g_n_past (snd run) = 12
  /\ n_ctx (hparams (toy_model 4)) - gptj_num_tokens toy_vocab "hi there" = 2.
Proof. repeat split; vm_compute; reflexivity. Qed.

Lemma n_past_is_prompt_length_at_first_sample_witness :
  2 = gptj_num_tokens toy_vocab "hi there"
  /\ 2 = gptj_num_tokens toy_vocab "hi there".
Proof.
  apply (n_past_is_prompt_length_at_first_sample
           (fun x => x) unit (fun r => (0.5%float, r)) (fun _ => tt) 0 4
           unit toy_forward (fun n => 1024 * n) (fun x => x) (fun _ => true)
           unit (fun s t => (always true t, s))
           20%nat toy_vocab (toy_model 2048)
           {| buf_size := initial_buf_size; kv := tt |} tt
           "hi there" (toy_params 3 1 3) 2 2).
  vm_compute. reflexivity.
Defined.

(** *** The toy run *)

Lemma count_callbacks_app (evs1 evs2 : list event) :
  count_callbacks (evs1 ++ evs2)
  = (count_callbacks evs1 + count_callbacks evs2)%nat.
Proof. unfold count_callbacks. now rewrite filter_app, length_app. Qed.

(* The first pass: the prompt is taken as one batch. *)
Lemma toy_prefill_body (cb : string -> bool) (n_ctx np : Z)
    (logits : list float) (trace : list event) :
  toy_body cb (toy_model n_ctx) (toy_params np 1 8) [0; 1]
           (toy_state 0 0 [] logits true trace)
  = inr (toy_state 1 0 [0; 1] logits true trace).
Proof. reflexivity. Qed.

(* The second pass: the prompt is evaluated and the first token sampled. *)
Lemma toy_first_decode_body (n_ctx np : Z) (logits : list float)
    (trace : list event) :
  toy_body (always true) (toy_model n_ctx) (toy_params np 1 8) [0; 1]
           (toy_state 2 0 [0; 1] logits true trace)
  = inr (toy_state 2 2 [2] [0; 0; 1]%float false
           (((trace ++ [ev_eval 0 [0; 1] true])
             ++ [ev_sample 2 2]) ++ [ev_callback "<eot>" true])).
Proof. reflexivity. Qed.

(* Every later pass: id 2 is evaluated, sampled again and passed on. *)
Lemma toy_decode_body (n_ctx np i n_past : Z) (logits : list float)
    (trace : list event) :
  2 <= i ->
  toy_body (always true) (toy_model n_ctx) (toy_params np 1 8) [0; 1]
           (toy_state i n_past [2] logits false trace)
  = inr (toy_state i (n_past + 1) [2] [0; 0; 1]%float false
           (((trace ++ [ev_eval n_past [2] true])
             ++ [ev_sample (n_past + 1) 2]) ++ [ev_callback "<eot>" true])).
Proof.
  intros Hi. unfold toy_body, generate_body, toy_state.
  cbn [g_i g_embd g_n_past g_logits g_mem_per_token g_trace g_env g_vocab
       g_cb g_rng g_processing_input].
  replace (Z.of_nat (length [0; 1]) <=? i) with true
    by (symmetry; apply Z.leb_le; simpl; lia).
  reflexivity.
Qed.

(* The same run with n_predict = -3: the bound of the loop is 2^64 - 1. *)
Lemma toy_loop_step_wrapped (cb : string -> bool) (fuel : nat) (n_ctx : Z)
    (st : gen_state unit unit unit) :
  0 <= g_i st < 2 ^ 64 - 1 ->
  toy_loop cb (S fuel) (toy_model n_ctx) (toy_params (-3) 1 8) [0; 1] st
  = match toy_body cb (toy_model n_ctx) (toy_params (-3) 1 8) [0; 1] st with
    | inl r => r
    | inr st' => toy_loop cb fuel (toy_model n_ctx) (toy_params (-3) 1 8)
                          [0; 1] (incr_i st')
    end.
Proof.
  intros Hi.
  assert (Hc : (to_size_t (g_i st)
                <? to_size_t (Z.of_nat (length [0; 1])
                              + n_predict (toy_params (-3) 1 8))) = true).
  { apply Z.ltb_lt. change (Z.of_nat (length [0; 1])) with 2.
    cbn [n_predict toy_params].
    change (to_size_t (2 + -3)) with (2 ^ 64 - 1).
    unfold to_size_t. rewrite Z.mod_small by lia. lia. }
  unfold toy_loop. cbn [generate_loop]. rewrite Hc. reflexivity.
Qed.

Lemma toy_loop_out_of_fuel (cb : string -> bool) (n_ctx : Z)
    (st : gen_state unit unit unit) :
  0 <= g_i st < 2 ^ 64 - 1 ->
  toy_loop cb 0 (toy_model n_ctx) (toy_params (-3) 1 8) [0; 1] st
  = (gen_out_of_fuel, st).
Proof.
  intros Hi.
  assert (Hc : (to_size_t (g_i st)
                <? to_size_t (Z.of_nat (length [0; 1])
                              + n_predict (toy_params (-3) 1 8))) = true).
  { apply Z.ltb_lt. change (Z.of_nat (length [0; 1])) with 2.
    cbn [n_predict toy_params].
    change (to_size_t (2 + -3)) with (2 ^ 64 - 1).
    unfold to_size_t. rewrite Z.mod_small by lia. lia. }
  unfold toy_loop. cbn [generate_loop]. rewrite Hc. reflexivity.
Qed.

Lemma toy_decode_loop_wrapped (n_ctx : Z) (fuel : nat) :
  forall (i n_past : Z) (logits : list float) (trace : list event),
    2 <= i -> i + Z.of_nat fuel < 2 ^ 64 - 1 ->
    exists st' evs,
      toy_loop (always true) fuel (toy_model n_ctx) (toy_params (-3) 1 8)
               [0; 1] (toy_state i n_past [2] logits false trace)
      = (gen_out_of_fuel, st')
      /\ g_trace st' = trace ++ evs
      /\ count_samples evs = fuel
      /\ g_n_past st' = n_past + Z.of_nat fuel.
Proof.
  induction fuel as [|fuel IH]; intros i n_past logits trace Hi Hb.
  - eexists; exists []. split; [apply toy_loop_out_of_fuel; simpl; lia|].
    simpl. rewrite app_nil_r. repeat split. lia.
  - rewrite toy_loop_step_wrapped by (simpl; lia).
    rewrite toy_decode_body by exact Hi.
    destruct (IH (i + 1) (n_past + 1) [0; 0; 1]%float
                (((trace ++ [ev_eval n_past [2] true])
                  ++ [ev_sample (n_past + 1) 2]) ++ [ev_callback "<eot>" true]))
      as (st' & evs & Hrun & Htr & Hs & Hp); try lia.
    exists st', ([ev_eval n_past [2] true; ev_sample (n_past + 1) 2;
                  ev_callback "<eot>" true] ++ evs).
    split; [exact Hrun|]. split; [rewrite Htr, <- !app_assoc; reflexivity|].
    rewrite count_samples_app, Hs. split; [reflexivity|]. lia.
Qed.

(* With n_predict = -3 the toy run does not end on its own: whatever number
   of passes it is given (below the range of the loop counter), it is still
   in the loop after them and has sampled in all but the first. *)
Lemma negative_n_predict_never_stops (n_ctx : Z) (fuel : nat) :
  2 <= n_ctx < 2 ^ 31 -> (2 <= fuel)%nat -> Z.of_nat fuel < 2 ^ 31 ->
  let run := toy_generate fuel n_ctx "hi there" (toy_params (-3) 1 8)
                          (always true) in
  fst run = gen_out_of_fuel
  /\ count_samples (g_trace (snd run)) = (fuel - 1)%nat
  /\ g_n_past (snd run) = Z.of_nat fuel.
Proof.
  intros Hctx Hfuel Hsmall run. subst run.
  change (toy_generate fuel n_ctx "hi there" (toy_params (-3) 1 8)
                       (always true))
    with (toy_loop (always true) fuel (toy_model n_ctx)
            (toy_params (Z.min (-3) (n_ctx - 2)) 1 8) [0; 1]
            (toy_state 0 0 [] [0; 0; 1]%float true
                       [ev_eval 0 [0; 1; 2; 3] true])).
  replace (Z.min (-3) (n_ctx - 2)) with (-3) by lia.
  destruct fuel as [|[|fuel]]; try lia.
  rewrite toy_loop_step_wrapped by (simpl; lia).
  rewrite toy_prefill_body.
  change (incr_i (toy_state 1 0 [0; 1] [0; 0; 1]%float true
                            [ev_eval 0 [0; 1; 2; 3] true]))
    with (toy_state 2 0 [0; 1] [0; 0; 1]%float true
                    [ev_eval 0 [0; 1; 2; 3] true]).
  rewrite toy_loop_step_wrapped by (simpl; lia).
  rewrite toy_first_decode_body.
  destruct (toy_decode_loop_wrapped n_ctx fuel 3 2 [0; 0; 1]%float
              (((([ev_eval 0 [0; 1; 2; 3] true] ++ [ev_eval 0 [0; 1] true])
                ++ [ev_sample 2 2]) ++ [ev_callback "<eot>" true])))
    as (st' & evs & Hrun & Htr & Hs & Hp); try lia.
  change (incr_i (toy_state 2 2 [2] [0; 0; 1]%float false
            ((([ev_eval 0 [0; 1; 2; 3] true] ++ [ev_eval 0 [0; 1] true])
              ++ [ev_sample 2 2]) ++ [ev_callback "<eot>" true])))
    with (toy_state 3 2 [2] [0; 0; 1]%float false
            ((([ev_eval 0 [0; 1; 2; 3] true] ++ [ev_eval 0 [0; 1] true])
              ++ [ev_sample 2 2]) ++ [ev_callback "<eot>" true])).
  rewrite Hrun. cbn [fst snd]. rewrite Htr, Hp.
  split; [reflexivity|]. rewrite count_samples_app, Hs.
  split; [simpl; lia|lia].
Qed.

(** C1, as stated, fails: in the toy context, with the default n_predict of
    200 and an on_token that keeps answering true, on_token is called 200
    times; id 2 is not the end-of-text id of the loop, which is 50256. *)
Lemma toy_callback_once_counterexample :
  let run := toy_generate 300 2048 "hi there" (toy_params 200 1 8)
                          (always true) in
  fst run = gen_return true
  /\ count_callbacks (g_trace (snd run)) = 200%nat
  /\ count_callbacks (g_trace (snd run)) <> 1%nat.
Proof. repeat split; vm_compute; discriminate. Qed.

(* The sampler compares the scaled scores, not the logits: with the logits
   [0; 0; 1] of the toy engine and temperature 0 the scaled scores are NaN,
   NaN and infinity, the sampler stays at id 0, and on_token is given
   "hi". *)
Lemma toy_run_temperature_0 :
  g_trace (snd (toy_generate 10 2048 "hi there"
                  {| seed := 1; n_threads := 1; n_predict := 1; top_k := 1;
                     top_p := 0.5%float; temp := 0%float; n_batch := 8 |}
                  (always true)))
  = [ev_eval 0 [0; 1; 2; 3] true; ev_eval 0 [0; 1] true; ev_sample 2 0;
     ev_callback "hi" true].
Proof. vm_compute. reflexivity. Qed.

(** *** Generation driver: the course of a run *)

Lemma fed_ids_app (a b : list event) : fed_ids (a ++ b) = fed_ids a ++ fed_ids b.
Proof. unfold fed_ids. now rewrite omap_app, concat_app. Qed.

Lemma sampled_ids_app (a b : list event) :
  sampled_ids (a ++ b) = sampled_ids a ++ sampled_ids b.
Proof. apply omap_app. Qed.

Lemma callback_tokens_app (a b : list event) :
  callback_tokens (a ++ b) = callback_tokens a ++ callback_tokens b.
Proof. apply omap_app. Qed.

Lemma fed_ids_callbacks (evs : list event) :
  Forall (fun e => is_callback e = true) evs -> fed_ids evs = [].
Proof.
  induction 1 as [|e evs He _ IH]; [reflexivity|].
  destruct e; simpl in *; try discriminate. exact IH.
Qed.

Lemma sampled_ids_callbacks (evs : list event) :
  Forall (fun e => is_callback e = true) evs -> sampled_ids evs = [].
Proof.
  induction 1 as [|e evs He _ IH]; [reflexivity|].
  destruct e; simpl in *; try discriminate. exact IH.
Qed.

Lemma positions_contiguous_app (a b : list event) (pos : Z) :
  positions_contiguous (a ++ b) pos
  <-> positions_contiguous a pos /\ positions_contiguous b (pos + fed a).
Proof.
  revert pos. induction a as [|e a IH]; intros pos; simpl.
  - rewrite Z.add_0_r. tauto.
  - destruct e; simpl; rewrite IH.
    + rewrite Z.add_assoc. tauto.
    + tauto.
    + tauto.
Qed.

Lemma positions_contiguous_callbacks (evs : list event) (pos : Z) :
  Forall (fun e => is_callback e = true) evs -> positions_contiguous evs pos.
Proof.
  induction 1 as [|e evs He _ IH]; [exact I|].
  destruct e; simpl in *; try discriminate. exact IH.
Qed.

Lemma fed_app (a b : list event) : fed (a ++ b) = fed a + fed b.
Proof.
  induction a as [|e a IH]; simpl; [reflexivity|].
  destruct e; simpl; lia.
Qed.

Section DriverMore.
Variable exp : float -> float.
Variable Rng : Type.
Variable canonical : Rng -> float * Rng.
Variable seed_rng : Z -> Rng.
Variable time_now : Z.
Variable hardware_concurrency : Z.
Variable KV : Type.
Variable forward : gptj_model -> KV -> Z -> Z -> list Z -> KV * list float.
Variable ggml_used_mem : Z -> Z.
Variable grow_size : Z -> Z.
Variable realloc_ok : Z -> bool.
Variable CB : Type.
Variable callback : CB -> string -> bool * CB.

Local Abbreviation gptj_eval' :=
  (gptj_eval KV forward ggml_used_mem grow_size realloc_ok).
Local Abbreviation generate_body' :=
  (generate_body exp Rng canonical KV forward ggml_used_mem grow_size
                 realloc_ok CB callback).
Local Abbreviation generate_loop' :=
  (generate_loop exp Rng canonical KV forward ggml_used_mem grow_size
                 realloc_ok CB callback).
Local Abbreviation generate_init' :=
  (generate_init Rng seed_rng KV forward ggml_used_mem grow_size
                 realloc_ok CB).
Local Abbreviation gptj_generate' :=
  (gptj_generate exp Rng canonical seed_rng time_now hardware_concurrency
                 KV forward ggml_used_mem grow_size realloc_ok CB callback).
Local Abbreviation gen_state' := (gen_state Rng KV CB).
Local Abbreviation callback_loop' := (callback_loop CB callback).

Ltac bool_hyps :=
  repeat match goal with
         | H : (_ <=? _) = true |- _ => apply Z.leb_le in H
         | H : (_ <=? _) = false |- _ => apply Z.leb_gt in H
         | H : (_ <? _) = true |- _ => apply Z.ltb_lt in H
         | H : (_ <? _) = false |- _ => apply Z.ltb_ge in H
         end.

Ltac body_cases :=
  unfold generate_body;
  repeat match goal with
         | |- context [if negb ?b then _ else _] => destruct b eqn:?; cbn [negb]
         | |- context [if ?b then _ else _] => destruct b eqn:?
         | |- context [gptj_eval' ?a ?b ?c ?d ?e ?f ?g] =>
             destruct (gptj_eval' a b c d e f g) as [[[? ?] ?] ?] eqn:?
         | |- context [gpt_sample_top_k_top_p ?a ?b ?c ?d ?e ?f ?g ?h ?i] =>
             destruct (gpt_sample_top_k_top_p a b c d e f g h i) as [[? ?]|] eqn:?
         | |- context [callback_loop' ?a ?b ?c ?d] =>
             destruct (callback_loop' a b c d) as [[[? ?] ?] ?] eqn:?
         end;
  cbn [result_state g_trace g_n_past g_i g_embd g_processing_input g_vocab].

(* The rule for the loop of gptj_generate: what holds at the head of every
   pass, [P], and what holds when the function is left, [Q]. *)
Lemma generate_loop_rule (P : gen_state' -> Prop)
    (Q : gen_result -> gen_state' -> Prop) (model : gptj_model)
    (params : gptj_params) (embd_inp : list Z) :
  (forall st, P st -> Q (gen_return true) st) ->
  (forall st, P st -> Q gen_out_of_fuel st) ->
  (forall st, P st ->
     to_size_t (g_i st)
     < to_size_t (Z.of_nat (length embd_inp) + n_predict params) ->
     match generate_body' model params embd_inp st with
     | inl (r, st') => Q r st'
     | inr st' => P (incr_i st')
     end) ->
  forall fuel st, P st ->
    Q (fst (generate_loop' fuel model params embd_inp st))
      (snd (generate_loop' fuel model params embd_inp st)).
Proof.
  intros Hexit Hfuel Hbody fuel.
  induction fuel as [|fuel IH]; intros st HP; cbn [generate_loop].
  - destruct (_ <? _); cbn [negb fst snd]; auto.
  - destruct (_ <? _) eqn:Hc; cbn [negb fst snd]; [|auto].
    apply Z.ltb_lt in Hc. specialize (Hbody st HP Hc).
    destruct (generate_body' model params embd_inp st) as [[r st']|st'].
    + exact Hbody.
    + now apply IH.
Qed.

(* What the loop over a batch of one sampled id does. *)
Lemma callback_loop_single (id : Z) (vocab vocab' : gpt_vocab) (cb cb' : CB)
    (trace trace' : list event) (stop : bool) :
  callback_loop' [id] vocab cb trace = (stop, vocab', cb', trace') ->
  (id = end_of_text /\ stop = true /\ vocab' = vocab /\ trace' = trace)
  \/ (id <> end_of_text
      /\ vocab' = snd (id_to_token_at vocab id)
      /\ exists continue,
           stop = negb continue
           /\ trace' = trace ++ [ev_callback (token_text vocab id) continue]).
Proof.
  cbn [callback_loop]. unfold token_text.
  destruct (id =? end_of_text) eqn:E.
  - apply Z.eqb_eq in E. intros [= <- <- <- <-]. left. auto.
  - apply Z.eqb_neq in E.
    destruct (id_to_token_at vocab id) as [token v1].
    destruct (callback cb token) as [continue cb1].
    destruct continue; cbn [negb callback_loop]; intros [= <- <- <- <-];
      right; (split; [exact E|]); (split; [reflexivity|]);
      [exists true|exists false]; split; reflexivity.
Qed.

(** **** Cache positions *)

Lemma generate_body_positions (model : gptj_model) (params : gptj_params)
    (embd_inp : list Z) (st : gen_state') :
  positions_inv st ->
  match generate_body' model params embd_inp st with
  | inl (r, st') => exists e evs, g_trace st' = e :: evs
                                  /\ positions_contiguous evs 0
  | inr st' => positions_inv (incr_i st')
  end.
Proof.
  intros (e & evs & Htr & Hpos & Hfed).
  unfold positions_inv. body_cases.
  all: unfold incr_i; cbn [g_trace g_n_past].
  all: repeat match goal with
              | H : callback_loop' _ _ _ _ = _ |- _ =>
                  apply callback_loop_trace in H; destruct H as (? & -> & ?)
              end.
  all: rewrite Htr; cbn [app]; rewrite <- ?app_assoc.
  all: exists e; eexists; (split; [reflexivity|]).
  all: rewrite ?positions_contiguous_app, ?fed_app, ?Hfed.
  all: cbn [positions_contiguous fed app].
  all: bool_hyps.
  all: repeat match goal with
              | H : Forall (fun e => is_callback e = true) ?l |- _ =>
                  pose proof (positions_contiguous_callbacks l (g_n_past st
                    + Z.of_nat (length (g_embd st))) H);
                  pose proof (fed_callbacks l H);
                  pose proof (positions_contiguous_callbacks l (g_n_past st) H);
                  clear H
              end.
  all: try match goal with
           | H : 0 < Z.of_nat (length ?l) |- _ =>
               assert (l <> []) by (intros E; rewrite E in H; simpl in H; lia)
           end.
  all: try match goal with
           | H : Z.of_nat (length ?l) <= 0 |- _ =>
               assert (Z.of_nat (length l) = 0) as Hl0 by lia;
               rewrite ?Hl0 in *
           end.
  all: rewrite ?Z.add_0_r in *.
  all: repeat split; auto; try lia.
Qed.

Lemma generate_init_trace (vocab : gpt_vocab) (model : gptj_model)
    (env : eval_env KV) (cb : CB) (params : gptj_params) :
  let st := generate_init' vocab model env cb params in
  g_trace st = [ev_eval 0 [0; 1; 2; 3] true]
  /\ g_i st = 0 /\ g_n_past st = 0 /\ g_embd st = []
  /\ g_processing_input st = true /\ g_vocab st = vocab.
Proof.
  destruct (generate_init_spec Rng seed_rng KV forward ggml_used_mem grow_size
              realloc_ok CB vocab model env cb params)
    as (H1 & H2 & H3 & H4 & H5 & _).
  cbv zeta. repeat split; try assumption.
  unfold generate_init.
  destruct (gptj_eval' _ _ _ _ _ _ _) as [[[? ?] ?] ?]. reflexivity.
Qed.

(** X16.  In every run of gptj_generate, each call of gptj_eval after the
    measuring call is on a batch that is not empty and at the cache position
    that the batches before it add up to, starting from 0, and each call of
    the sampler happens at the position all batches before it add up to. *)
Theorem cache_positions_are_contiguous (fuel : nat) (vocab : gpt_vocab)
    (model : gptj_model) (env : eval_env KV) (cb : CB) (prompt : string)
    (params : gptj_params) :
  positions_contiguous
    (tail (g_trace (snd (gptj_generate' fuel vocab model env cb prompt params))))
    0.
Proof.
  unfold gptj_generate.
  set (embd_inp := gpt_tokenize vocab prompt).
  set (params' := resolve_params _ _ _ _ _).
  destruct (generate_init_trace vocab model env cb params')
    as (Htr & _ & Hpast & _).
  destruct (generate_loop_rule positions_inv
              (fun _ st => exists e evs, g_trace st = e :: evs
                                         /\ positions_contiguous evs 0)
              model params' embd_inp) with (fuel := fuel)
      (st := generate_init' vocab model env cb params')
    as (e & evs & -> & H).
  - intros st (e & evs & H1 & H2 & _). eauto.
  - intros st (e & evs & H1 & H2 & _). eauto.
  - intros st Hinv _. now apply generate_body_positions.
  - exists (ev_eval 0 [0; 1; 2; 3] true), []. rewrite Htr, Hpast.
    repeat split.
  - exact H.
Qed.

(** **** What is fed to the evaluator *)

Lemma fill_batch_take (pending embd : list Z) (n_batch : Z) :
  (length embd <= Z.to_nat (to_size_t n_batch))%nat ->
  fill_batch pending embd n_batch
  = embd ++ take (Z.to_nat (to_size_t n_batch) + 1 - length embd) pending.
Proof.
  revert embd. induction pending as [|x pending IH]; intros embd Hlen.
  - simpl. now rewrite take_nil, app_nil_r.
  - cbn [fill_batch].
    assert (0 <= to_size_t n_batch)
      by (unfold to_size_t; apply Z.mod_pos_bound; lia).
    rewrite length_app. cbn [length].
    destruct (to_size_t n_batch <? Z.of_nat (length embd + 1)) eqn:E.
    + apply Z.ltb_lt in E.
      replace (Z.to_nat (to_size_t n_batch) + 1 - length embd)%nat
        with 1%nat by lia.
      reflexivity.
    + apply Z.ltb_ge in E. rewrite IH by (rewrite length_app; simpl; lia).
      rewrite length_app. cbn [length].
      replace (Z.to_nat (to_size_t n_batch) + 1 - length embd)%nat
        with (S (Z.to_nat (to_size_t n_batch) + 1 - (length embd + 1)))%nat
        by lia.
      cbn [take]. now rewrite <- app_assoc.
Qed.

Lemma take_app_prefix (inp s : list Z) (i : nat) :
  (s <> [] -> (length inp <= i)%nat) ->
  take i inp ++ s `prefix_of` inp ++ s.
Proof.
  intros H. destruct s as [|x s].
  - rewrite !app_nil_r. apply prefix_take.
  - rewrite take_ge by (apply H; discriminate). reflexivity.
Qed.

Lemma take_take_drop_length (inp : list Z) (i k : nat) :
  take i inp ++ take k (drop i inp)
  = take (i + length (take k (drop i inp))) inp.
Proof.
  rewrite take_take_drop, length_take, length_drop.
  destruct (Nat.le_gt_cases k (length inp - i)).
  - now rewrite Nat.min_l by lia.
  - rewrite Nat.min_r by lia. rewrite !take_ge by lia. reflexivity.
Qed.

Lemma generate_body_feeding (model : gptj_model) (params : gptj_params)
    (embd_inp : list Z) (st : gen_state') :
  feeding_inv embd_inp st ->
  match generate_body' model params embd_inp st with
  | inl (r, st') =>
      exists e evs, g_trace st' = e :: evs
                    /\ fed_ids evs `prefix_of` embd_inp ++ sampled_ids evs
  | inr st' => feeding_inv embd_inp (incr_i st')
  end.
Proof.
  intros (Hi & e & evs & Htr & Hfed & Hs).
  assert (Hpre : take (Z.to_nat (g_i st)) embd_inp ++ sampled_ids evs
                 `prefix_of` embd_inp ++ sampled_ids evs).
  { apply take_app_prefix. intros Hne. specialize (Hs Hne). lia. }
  unfold feeding_inv. body_cases.
  all: unfold incr_i; cbn [g_trace g_i g_embd].
  all: repeat match goal with
              | H : callback_loop' _ _ _ _ = _ |- _ =>
                  apply callback_loop_trace in H; destruct H as (? & -> & ?)
              end.
  all: rewrite Htr; cbn [app]; rewrite <- ?app_assoc.
  all: try (split; [lia|]).
  all: exists e; eexists; (split; [reflexivity|]).
  all: rewrite ?fed_ids_app, ?sampled_ids_app.
  all: repeat match goal with
              | H : Forall (fun e => is_callback e = true) ?l |- _ =>
                  rewrite ?(fed_ids_callbacks l H), ?(sampled_ids_callbacks l H);
                  clear H
              end.
  all: cbn [fed_ids sampled_ids omap list_omap concat app].
  all: rewrite ?app_nil_r.
  all: bool_hyps.
  all: try match goal with
           | H : Z.of_nat (length ?l) <= 0 |- _ =>
               assert (l = []) as Hl
                 by (destruct l; [reflexivity|simpl in H; lia]);
               rewrite Hl in Hfed; rewrite ?app_nil_r in Hfed
           end.
  all: fold (fed_ids evs); fold (sampled_ids evs).
  all: rewrite Hfed.
  (* the function is left: what was fed is a prefix *)
  all: try exact Hpre.
  all: try (rewrite take_ge by lia; rewrite app_assoc; apply prefix_app_r;
            reflexivity).
  (* a token was sampled and the loop goes on *)
  all: try (rewrite !take_ge by lia; split; [now rewrite app_assoc|intros _; lia]).
  (* a batch of the prompt was taken and the loop goes on *)
  all: assert (Hnil : sampled_ids evs = [])
    by (destruct (sampled_ids evs); [reflexivity|];
        assert (Z.of_nat (length embd_inp) <= g_i st)
          by (apply Hs; discriminate); lia).
  all: rewrite Hnil, !app_nil_r.
  all: rewrite fill_batch_take by (simpl; lia).
  all: cbn [app length]; rewrite Nat.sub_0_r.
  all: rewrite take_take_drop_length.
  all: split; [f_equal; lia|congruence].
Qed.

(** X17.  What gptj_generate hands to gptj_eval after the measuring call is,
    batch after batch, the ids of the prompt in their order followed by the
    ids the sampler returned in their order: no id is skipped, repeated or
    moved, whatever the batch size. *)
Theorem evaluator_is_fed_prompt_then_samples (fuel : nat) (vocab : gpt_vocab)
    (model : gptj_model) (env : eval_env KV) (cb : CB) (prompt : string)
    (params : gptj_params) :
  let tr := tail (g_trace (snd (gptj_generate' fuel vocab model env cb
                                               prompt params))) in
  fed_ids tr `prefix_of` gpt_tokenize vocab prompt ++ sampled_ids tr.
Proof.
  unfold gptj_generate.
  set (embd_inp := gpt_tokenize vocab prompt).
  set (params' := resolve_params _ _ _ _ _).
  destruct (generate_init_trace vocab model env cb params')
    as (Htr & Hi & _ & Hembd & _).
  destruct (generate_loop_rule (feeding_inv embd_inp)
              (fun _ st => exists e evs,
                   g_trace st = e :: evs
                   /\ fed_ids evs `prefix_of` embd_inp ++ sampled_ids evs)
              model params' embd_inp) with (fuel := fuel)
      (st := generate_init' vocab model env cb params')
    as (e & evs & -> & H).
  - intros st (Hi' & e & evs & H1 & H2 & H3). exists e, evs.
    split; [exact H1|].
    assert (Hp : fed_ids evs `prefix_of` fed_ids evs ++ g_embd st)
      by (now apply prefix_app_r).
    rewrite H2 in Hp. etransitivity; [exact Hp|].
    apply take_app_prefix. intros Hne. specialize (H3 Hne). lia.
  - intros st (Hi' & e & evs & H1 & H2 & H3). exists e, evs.
    split; [exact H1|].
    assert (Hp : fed_ids evs `prefix_of` fed_ids evs ++ g_embd st)
      by (now apply prefix_app_r).
    rewrite H2 in Hp. etransitivity; [exact Hp|].
    apply take_app_prefix. intros Hne. specialize (H3 Hne). lia.
  - intros st Hinv _. now apply generate_body_feeding.
  - split; [lia|]. exists (ev_eval 0 [0; 1; 2; 3] true), [].
    rewrite Htr, Hi, Hembd. repeat split. intros H. now contradiction H.
  - exact H.
Qed.

(** **** What on_token is told *)

Lemma token_text_kept (v : gpt_vocab) (id id' : Z) :
  token_text (snd (id_to_token_at v id)) id' = token_text v id'.
Proof.
  unfold token_text, id_to_token_at.
  destruct (id_to_token v !! id) eqn:E; [reflexivity|].
  cbn [snd id_to_token].
  destruct (decide (id = id')) as [<-|Hne].
  - rewrite lookup_insert_eq, E. reflexivity.
  - rewrite lookup_insert_ne by exact Hne.
    destruct (id_to_token v !! id'); reflexivity.
Qed.

Lemma generate_body_callbacks (model : gptj_model) (params : gptj_params)
    (vocab : gpt_vocab) (embd_inp : list Z) (st : gen_state') :
  callbacks_inv vocab embd_inp st ->
  match generate_body' model params embd_inp st with
  | inl (r, st') =>
      callback_tokens (g_trace st')
      = map (token_text vocab) (sampled_ids (g_trace st'))
      \/ exists s, sampled_ids (g_trace st') = s ++ [end_of_text]
                   /\ callback_tokens (g_trace st') = map (token_text vocab) s
  | inr st' => callbacks_inv vocab embd_inp (incr_i st')
  end.
Proof.
  intros (Hproc & Htext & Hcb).
  unfold callbacks_inv. body_cases.
  all: unfold incr_i; cbn [g_trace g_i g_embd g_vocab g_processing_input].
  all: bool_hyps.
  (* the prompt is never handed to on_token *)
  all: try (exfalso; destruct Hproc; [congruence|lia]).
  all: repeat match goal with
              | H : callback_loop' [_] _ _ _ = _ |- _ =>
                  apply callback_loop_single in H;
                  destruct H as [(-> & ? & -> & ->)|(? & -> & ? & ? & ->)]
              end.
  all: try discriminate.
  all: rewrite ?callback_tokens_app, ?sampled_ids_app, ?List.map_app.
  all: cbn [callback_tokens sampled_ids omap list_omap map].
  all: fold (callback_tokens (g_trace st)); fold (sampled_ids (g_trace st)).
  all: rewrite ?app_nil_r, ?Hcb, ?Htext.
  all: try (left; reflexivity).
  all: try (right; eexists; split; reflexivity).
  all: try (split; [right; lia|]; split; [|reflexivity];
            intros id'; now rewrite token_text_kept).
  all: try (split; [left; assumption|]; split; [assumption|reflexivity]).
  all: try (split; [auto|]; split; [assumption|reflexivity]).
Qed.

(** X18.  on_token is called for the sampled ids and for nothing else, in
    their order, each time with the text id_to_token has for the id (the
    empty text for an id it does not hold): in every run the texts it was
    given are the texts of all sampled ids, or of all but the last when the
    last one is the end-of-text id 50256, on which the run stops without a
    call.  No id of the prompt is ever handed to it. *)
Theorem on_token_is_told_the_samples (fuel : nat) (vocab : gpt_vocab)
    (model : gptj_model) (env : eval_env KV) (cb : CB) (prompt : string)
    (params : gptj_params) :
  let tr := g_trace (snd (gptj_generate' fuel vocab model env cb
                                         prompt params)) in
  callback_tokens tr = map (token_text vocab) (sampled_ids tr)
  \/ exists s, sampled_ids tr = s ++ [end_of_text]
               /\ callback_tokens tr = map (token_text vocab) s.
Proof.
  unfold gptj_generate.
  set (embd_inp := gpt_tokenize vocab prompt).
  set (params' := resolve_params _ _ _ _ _).
  destruct (generate_init_trace vocab model env cb params')
    as (Htr & _ & _ & _ & Hproc & Hvocab).
  apply (generate_loop_rule (callbacks_inv vocab embd_inp)
           (fun _ st =>
              callback_tokens (g_trace st)
              = map (token_text vocab) (sampled_ids (g_trace st))
              \/ exists s, sampled_ids (g_trace st) = s ++ [end_of_text]
                           /\ callback_tokens (g_trace st)
                              = map (token_text vocab) s)).
  - intros st (_ & _ & H). now left.
  - intros st (_ & _ & H). now left.
  - intros st Hinv _. now apply generate_body_callbacks.
  - split; [now left|]. rewrite Htr, Hvocab. split; reflexivity.
Qed.

(** **** The context window *)

Lemma generate_body_window (model : gptj_model) (params : gptj_params)
    (embd_inp : list Z) (bound n_ctx : Z) (st : gen_state') :
  Z.of_nat (length embd_inp) <= bound -> bound <= n_ctx ->
  window_inv bound n_ctx st -> g_i st < bound ->
  match generate_body' model params embd_inp st with
  | inl (r, st') => exists e evs, g_trace st' = e :: evs
                                  /\ evals_within n_ctx evs
  | inr st' => window_inv bound n_ctx (incr_i st')
  end.
Proof.
  intros Hlen Hbound (Hpast & Hi & Hle & e & evs & Htr & Hin) Hlt.
  unfold window_inv, evals_within in *. body_cases.
  all: unfold incr_i; cbn [g_trace g_i g_embd g_n_past].
  all: repeat match goal with
              | H : callback_loop' _ _ _ _ = _ |- _ =>
                  apply callback_loop_trace in H; destruct H as (? & -> & ?)
              end.
  all: bool_hyps.
  all: try match goal with
       | |- context [fill_batch ?p [] ?b] =>
           destruct (fill_batch_length p [] b) as [Hfl Hflt];
           rewrite length_drop in Hfl; cbn [length] in Hfl, Hflt;
           assert (p <> []) as Hfne
             by (intros E; apply (f_equal length) in E;
                 rewrite length_drop in E; cbn [length] in E; lia);
           specialize (Hflt Hfne)
       end.
  all: rewrite Htr; cbn [app]; rewrite <- ?app_assoc.
  all: repeat (split; [cbn [length]; lia|]).
  all: exists e; eexists; (split; [reflexivity|]).
  all: rewrite ?Forall_app; repeat split; try assumption.
  all: repeat match goal with
              | |- Forall _ (_ :: _) => constructor
              | |- Forall _ [] => constructor
              end.
  all: try exact I.
  all: try lia.
  all: try (eapply Forall_impl; [eassumption|]; intros [] Hc; simpl in *;
            try discriminate; exact I).
Qed.

(** X19.  For an n_predict that is not negative and a prompt of at most n_ctx
    tokens, every call of gptj_eval after the measuring call stays inside the
    context window: it starts at a position that is not negative and ends at
    most at n_ctx. *)
Theorem evaluations_stay_in_context (fuel : nat) (vocab : gpt_vocab)
    (model : gptj_model) (env : eval_env KV) (cb : CB) (prompt : string)
    (params : gptj_params)
    (Hpredict : 0 <= n_predict params)
    (Hfits : gptj_num_tokens vocab prompt <= n_ctx (hparams model))
    (Hctx : n_ctx (hparams model) < 2 ^ 63) :
  evals_within (n_ctx (hparams model))
    (tail (g_trace (snd (gptj_generate' fuel vocab model env cb prompt params)))).
Proof.
  unfold gptj_generate, gptj_num_tokens in *.
  set (embd_inp := gpt_tokenize vocab prompt) in *.
  set (params' := resolve_params _ _ _ _ _).
  set (bound := Z.of_nat (length embd_inp) + n_predict params').
  assert (Hb : Z.of_nat (length embd_inp) <= bound <= n_ctx (hparams model)).
  { unfold bound, params'. cbn [n_predict resolve_params]. fold embd_inp. lia. }
  destruct (generate_init_trace vocab model env cb params')
    as (Htr & Hi & Hpast & Hembd & _).
  destruct (generate_loop_rule (window_inv bound (n_ctx (hparams model)))
              (fun _ st => exists e evs, g_trace st = e :: evs
                                         /\ evals_within (n_ctx (hparams model)) evs)
              model params' embd_inp) with (fuel := fuel)
      (st := generate_init' vocab model env cb params')
    as (e & evs & -> & H).
  - intros st (_ & _ & _ & H). exact H.
  - intros st (_ & _ & _ & H). exact H.
  - intros st Hinv Hc.
    apply (generate_body_window model params' embd_inp bound
             (n_ctx (hparams model))); try lia; try assumption.
    destruct Hinv as (H1 & H2 & H3 & _).
    fold bound in Hc. unfold to_size_t in Hc.
    rewrite !Z.mod_small in Hc by lia. exact Hc.
  - unfold window_inv. rewrite Htr, Hi, Hpast, Hembd. cbn [length].
    repeat split; try lia.
    exists (ev_eval 0 [0; 1; 2; 3] true), []. split; [reflexivity|constructor].
  - exact H.
Qed.

(** **** The size of the batches *)

Lemma generate_body_batches (model : gptj_model) (params : gptj_params)
    (embd_inp : list Z) (st : gen_state') :
  batch_inv (to_size_t (n_batch params) + 1) st ->
  match generate_body' model params embd_inp st with
  | inl (r, st') =>
      exists e evs, g_trace st' = e :: evs
                    /\ batches_at_most (to_size_t (n_batch params) + 1) evs
  | inr st' => batch_inv (to_size_t (n_batch params) + 1) (incr_i st')
  end.
Proof.
  intros (Hlen & e & evs & Htr & Hin).
  assert (Hnb : 0 <= to_size_t (n_batch params))
    by (unfold to_size_t; apply Z.mod_pos_bound; lia).
  unfold batch_inv, batches_at_most in *. body_cases.
  all: unfold incr_i; cbn [g_trace g_i g_embd g_n_past].
  all: repeat match goal with
              | H : callback_loop' _ _ _ _ = _ |- _ =>
                  apply callback_loop_trace in H; destruct H as (? & -> & ?)
              end.
  all: rewrite ?fill_batch_take by (cbn [length]; lia).
  all: cbn [app length]; rewrite ?length_take.
  all: rewrite Htr; cbn [app]; rewrite <- ?app_assoc.
  all: repeat (split; [lia|]).
  all: exists e; eexists; (split; [reflexivity|]).
  all: rewrite ?Forall_app; repeat split; try assumption.
  all: repeat match goal with
              | |- Forall _ (_ :: _) => constructor
              | |- Forall _ [] => constructor
              end.
  all: try exact I.
  all: try lia.
  all: try (eapply Forall_impl; [eassumption|]; intros [] Hc; simpl in *;
            try discriminate; exact I).
Qed.

(** X20.  The batch the prompt loop builds is exactly the next ids of the
    prompt, n_batch + 1 of them or as many as are left; n_batch is compared
    as a size_t, so a negative n_batch puts the whole rest of the prompt
    into one batch. *)
Theorem prefill_batch_is_next_ids (pending : list Z) (n_batch : Z) :
  fill_batch pending [] n_batch
  = take (Z.to_nat (to_size_t n_batch) + 1) pending
  /\ (0 <= n_batch < 2 ^ 64 ->
      fill_batch pending [] n_batch = take (Z.to_nat n_batch + 1) pending)
  /\ (- 2 ^ 31 <= n_batch < 0 -> Z.of_nat (length pending) < 2 ^ 63 ->
      fill_batch pending [] n_batch = pending).
Proof.
  assert (H : fill_batch pending [] n_batch
              = take (Z.to_nat (to_size_t n_batch) + 1) pending).
  { rewrite fill_batch_take by (cbn [length]; lia).
    cbn [app length]. now rewrite Nat.sub_0_r. }
  split; [exact H|]. split.
  - intros Hb. rewrite H. unfold to_size_t. now rewrite Z.mod_small.
  - intros Hb Hl. rewrite H. apply take_ge.
    unfold to_size_t.
    replace (n_batch mod 2 ^ 64) with (n_batch + 2 ^ 64)
      by (apply (Z.mod_unique n_batch (2 ^ 64) (-1)); lia).
    lia.
Qed.

(** X21.  No call of gptj_eval after the measuring call is on more than
    n_batch + 1 ids (n_batch read as a size_t). *)
Theorem batches_are_bounded (fuel : nat) (vocab : gpt_vocab)
    (model : gptj_model) (env : eval_env KV) (cb : CB) (prompt : string)
    (params : gptj_params) :
  batches_at_most (to_size_t (n_batch params) + 1)
    (tail (g_trace (snd (gptj_generate' fuel vocab model env cb prompt params)))).
Proof.
  unfold gptj_generate.
  set (embd_inp := gpt_tokenize vocab prompt).
  set (params' := resolve_params _ _ _ _ _).
  change (n_batch params) with (n_batch params').
  assert (Hnb : 0 <= to_size_t (n_batch params'))
    by (unfold to_size_t; apply Z.mod_pos_bound; lia).
  destruct (generate_init_trace vocab model env cb params')
    as (Htr & _ & _ & Hembd & _).
  destruct (generate_loop_rule (batch_inv (to_size_t (n_batch params') + 1))
              (fun _ st =>
                 exists e evs,
                   g_trace st = e :: evs
                   /\ batches_at_most (to_size_t (n_batch params') + 1) evs)
              model params' embd_inp) with (fuel := fuel)
      (st := generate_init' vocab model env cb params')
    as (e & evs & -> & H).
  - intros st (_ & H). exact H.
  - intros st (_ & H). exact H.
  - intros st Hinv _. now apply generate_body_batches.
  - unfold batch_inv. rewrite Htr, Hembd. cbn [length]. split; [lia|].
    exists (ev_eval 0 [0; 1; 2; 3] true), []. split; [reflexivity|constructor].
  - exact H.
Qed.

(** **** The vocabulary during a run *)

Lemma id_to_token_at_present (vocab : gpt_vocab) (id : Z) :
  is_Some (id_to_token vocab !! id) -> snd (id_to_token_at vocab id) = vocab.
Proof.
  intros [t Ht]. unfold id_to_token_at. now rewrite Ht.
Qed.

Lemma generate_body_vocab (model : gptj_model) (params : gptj_params)
    (vocab : gpt_vocab) (embd_inp : list Z) (st : gen_state') :
  (forall id, 0 <= id < Z.of_nat (size (id_to_token vocab)) ->
              is_Some (id_to_token vocab !! id)) ->
  vocab_fixed_inv vocab embd_inp st ->
  match generate_body' model params embd_inp st with
  | inl (r, st') => g_vocab st' = vocab
  | inr st' => vocab_fixed_inv vocab embd_inp (incr_i st')
  end.
Proof.
  intros Hdense (Hvocab & Hproc).
  unfold vocab_fixed_inv. body_cases.
  all: unfold incr_i; cbn [g_trace g_i g_embd g_vocab g_processing_input].
  all: bool_hyps.
  all: try (exfalso; destruct Hproc; [congruence|lia]).
  all: try assumption.
  all: repeat match goal with
              | H : gpt_sample_top_k_top_p _ _ _ _ _ _ _ _ _ = Some _ |- _ =>
                  rewrite Hvocab in H;
                  apply sampler_range in H; destruct H as (_ & _ & H);
                  apply Hdense, id_to_token_at_present in H
              end.
  all: repeat match goal with
              | H : callback_loop' [_] _ _ _ = _ |- _ =>
                  apply callback_loop_single in H;
                  destruct H as [(-> & ? & -> & ->)|(? & -> & ? & ? & ->)]
              end.
  all: rewrite ?Hvocab.
  all: try assumption.
  all: try (split; [assumption|right; lia]).
  all: try (split; [assumption|left; assumption]).
  all: try (split; [assumption|auto]).
  all: try reflexivity.
  all: try (split; [reflexivity|right; lia]).
  all: split; [reflexivity|left; reflexivity].
Qed.

(** X22.  Where id_to_token holds every id below its size (as it does after a
    load), a run of gptj_generate leaves the vocabulary as it was: every
    sampled id is present, so looking up its text inserts nothing. *)
Theorem dense_vocabulary_is_kept (fuel : nat) (vocab : gpt_vocab)
    (model : gptj_model) (env : eval_env KV) (cb : CB) (prompt : string)
    (params : gptj_params)
    (Hdense : forall id, 0 <= id < Z.of_nat (size (id_to_token vocab)) ->
                         is_Some (id_to_token vocab !! id)) :
  g_vocab (snd (gptj_generate' fuel vocab model env cb prompt params)) = vocab.
Proof.
  unfold gptj_generate.
  set (embd_inp := gpt_tokenize vocab prompt).
  set (params' := resolve_params _ _ _ _ _).
  destruct (generate_init_trace vocab model env cb params')
    as (_ & _ & _ & _ & Hproc & Hvocab).
  apply (generate_loop_rule (vocab_fixed_inv vocab embd_inp)
           (fun _ st => g_vocab st = vocab)).
  - intros st (H & _). exact H.
  - intros st (H & _). exact H.
  - intros st Hinv _. now apply generate_body_vocab.
  - split; [exact Hvocab|now left].
Qed.

(** **** Failure *)

Lemma gptj_eval_fails (model : gptj_model) (env : eval_env KV)
    (n_threads n_past : Z) (embd_inp : list Z) (embd_w : list float)
    (mem_per_token : Z) :
  fst (fst (fst (gptj_eval' model env n_threads n_past embd_inp embd_w
                            mem_per_token))) = false ->
  exists size, realloc_ok size = false.
Proof.
  unfold gptj_eval.
  destruct ((0 <? mem_per_token) && _); cbn [andb negb].
  - destruct (realloc_ok _) eqn:E; cbn [negb].
    + destruct (forward _ _ _ _ _). discriminate.
    + eauto.
  - destruct (forward _ _ _ _ _). discriminate.
Qed.

Lemma generate_body_evals (model : gptj_model) (params : gptj_params)
    (embd_inp : list Z) (st : gen_state') :
  evals_ok (g_trace st) ->
  match generate_body' model params embd_inp st with
  | inl (r, st') =>
      (r = gen_return false ->
       exists n_past embd,
         g_trace st' = g_trace st ++ [ev_eval n_past embd false]
         /\ exists size, realloc_ok size = false)
      /\ (r <> gen_return false -> evals_ok (g_trace st'))
  | inr st' => evals_ok (g_trace (incr_i st'))
  end.
Proof.
  intros Hok. unfold evals_ok in *. body_cases.
  all: unfold incr_i; cbn [g_trace].
  all: repeat match goal with
              | H : callback_loop' _ _ _ _ = _ |- _ =>
                  apply callback_loop_trace in H; destruct H as (? & -> & ?)
              end.
  all: try congruence.
  all: try (split; [intros Hr; try discriminate Hr
                   |intros Hr; try (now contradiction Hr)]).
  all: try (do 2 eexists; split; [reflexivity|];
            match goal with
            | H : gptj_eval' ?a ?b ?c ?d ?e ?f ?g = _ |- _ =>
                apply (gptj_eval_fails a b c d e f g); now rewrite H
            end).
  all: rewrite ?Forall_app; repeat split; try assumption.
  all: repeat match goal with
              | |- Forall _ (_ :: _) => constructor
              | |- Forall _ [] => constructor
              end.
  all: try exact I.
  all: try (subst; reflexivity).
  all: try (eapply Forall_impl; [eassumption|]; intros [] Hc; simpl in *;
            try discriminate; exact I).
Qed.

(** X23.  gptj_generate returns false only when a call of gptj_eval has
    failed, which is then the last thing the run did, every call before it
    having succeeded; and gptj_eval fails only when the scratch buffer could
    not be enlarged.  Where realloc never fails, gptj_generate never returns
    false. *)
Theorem generate_fails_only_with_eval (fuel : nat) (vocab : gpt_vocab)
    (model : gptj_model) (env : eval_env KV) (cb : CB) (prompt : string)
    (params : gptj_params) :
  let run := gptj_generate' fuel vocab model env cb prompt params in
  (fst run = gen_return false ->
   exists evs n_past embd,
     g_trace (snd run) = evs ++ [ev_eval n_past embd false]
     /\ evals_ok evs
     /\ exists size, realloc_ok size = false)
  /\ (fst run <> gen_return false -> evals_ok (g_trace (snd run)))
  /\ ((forall size, realloc_ok size = true) -> fst run <> gen_return false).
Proof.
  cbv zeta. unfold gptj_generate.
  set (embd_inp := gpt_tokenize vocab prompt).
  set (params' := resolve_params _ _ _ _ _).
  destruct (generate_init_trace vocab model env cb params') as (Htr & _).
  assert (Hmain :
    let run := generate_loop' fuel model params' embd_inp
                 (generate_init' vocab model env cb params') in
    (fst run = gen_return false ->
     exists evs n_past embd,
       g_trace (snd run) = evs ++ [ev_eval n_past embd false]
       /\ evals_ok evs
       /\ exists size, realloc_ok size = false)
    /\ (fst run <> gen_return false -> evals_ok (g_trace (snd run)))).
  { apply (generate_loop_rule (fun st => evals_ok (g_trace st))
             (fun r st =>
                (r = gen_return false ->
                 exists evs n_past embd,
                   g_trace st = evs ++ [ev_eval n_past embd false]
                   /\ evals_ok evs
                   /\ exists size, realloc_ok size = false)
                /\ (r <> gen_return false -> evals_ok (g_trace st)))).
    - intros st H. split; [discriminate|auto].
    - intros st H. split; [discriminate|auto].
    - intros st H _.
      pose proof (generate_body_evals model params' embd_inp st H) as Hb.
      destruct (generate_body' model params' embd_inp st) as [[r st']|st'];
        [|exact Hb].
      destruct Hb as [H1 H2]. split; [|exact H2].
      intros Hr. destruct (H1 Hr) as (n & e & -> & Hsize). eauto 6.
    - rewrite Htr. repeat constructor. }
  cbv zeta in Hmain. destruct Hmain as [H1 H2].
  split; [exact H1|]. split; [exact H2|].
  intros Hre Hr. destruct (H1 Hr) as (_ & _ & _ & _ & _ & size & Hsize).
  rewrite Hre in Hsize. discriminate.
Qed.

(** X24.  Where enlarging never asks for less than is needed (the factor is
    1.1), a call of gptj_eval that succeeds with a known memory per token
    leaves a scratch buffer that is at least as large as before and at least
    the memory per token times the number of ids of the batch; a call that
    fails has stored the size it asked for, and leaves the logits and the
    memory per token as they were. *)
Theorem scratch_buffer_suffices (model : gptj_model) (env env' : eval_env KV)
    (n_threads n_past : Z) (embd_inp : list Z) (embd_w embd_w' : list float)
    (mem_per_token mem' : Z) (ok : bool)
    (Hgrow : forall x, x <= grow_size x)
    (Hmem : 0 < mem_per_token)
    (Hrun : gptj_eval' model env n_threads n_past embd_inp embd_w mem_per_token
            = (ok, env', embd_w', mem')) :
  let need := to_size_t (mem_per_token * Z.of_nat (length embd_inp)) in
  buf_size env <= buf_size env'
  /\ need <= buf_size env'
  /\ (ok = false ->
      buf_size env < need /\ buf_size env' = grow_size need
      /\ realloc_ok (grow_size need) = false
      /\ embd_w' = embd_w /\ mem' = mem_per_token).
Proof.
  cbv zeta. unfold gptj_eval in Hrun.
  apply Z.ltb_lt in Hmem. rewrite Hmem in Hrun. cbn [andb] in Hrun.
  set (need := to_size_t (mem_per_token * Z.of_nat (length embd_inp))) in *.
  pose proof (Hgrow need) as Hg.
  destruct (buf_size env <? need) eqn:E.
  - apply Z.ltb_lt in E.
    destruct (realloc_ok (grow_size need)) eqn:Hre; cbn [negb] in Hrun.
    + destruct (forward _ _ _ _ _) as [kv' inpL].
      injection Hrun as <- <- _ _. cbn [buf_size].
      repeat split; try lia; try discriminate.
    + injection Hrun as <- <- <- <-. cbn [buf_size].
      repeat split; try lia; auto.
  - apply Z.ltb_ge in E. cbn [negb] in Hrun.
    destruct (forward _ _ _ _ _) as [kv' inpL].
    injection Hrun as <- <- _ _. cbn [buf_size].
    repeat split; try lia; try discriminate.
Qed.

(** **** An empty prompt *)

(** X25.  For a prompt that tokenizes to nothing, with n_predict and n_ctx at
    least 1, the first thing gptj_generate does after the measuring call is
    to sample, at cache position 0 and from the logits that the measuring
    call on the ids 0, 1, 2, 3 left behind: no call of gptj_eval comes
    before the first sample. *)
Theorem empty_prompt_samples_measuring_logits (fuel : nat)
    (vocab : gpt_vocab) (model : gptj_model) (env : eval_env KV) (cb : CB)
    (prompt : string) (params : gptj_params) (id : Z) (rng' : Rng)
    (Hempty : gpt_tokenize vocab prompt = [])
    (Hpredict : 1 <= n_predict params < 2 ^ 63)
    (Hctx : 1 <= n_ctx (hparams model) < 2 ^ 63)
    (Hsample :
       let st0 := generate_init' vocab model env cb
                    (resolve_params time_now hardware_concurrency model params []) in
       gpt_sample_top_k_top_p exp Rng canonical vocab
         (drop (Z.to_nat (Z.of_nat (length (g_logits st0))
                          - n_vocab (hparams model))) (g_logits st0))
         (top_k params) (top_p params) (temp params) (g_rng st0)
       = Some (id, rng')) :
  exists evs,
    g_trace (snd (gptj_generate' (S fuel) vocab model env cb prompt params))
    = ev_eval 0 [0; 1; 2; 3] true :: ev_sample 0 id :: evs.
Proof.
  unfold gptj_generate. rewrite Hempty.
  set (params' := resolve_params _ _ _ _ _) in *.
  cbv zeta in Hsample.
  destruct (generate_init_trace vocab model env cb params')
    as (Htr & Hi & Hpast & Hembd & Hproc & Hvocab).
  set (st0 := generate_init' vocab model env cb params') in *.
  cbn [generate_loop]. rewrite Hi.
  assert (Hc : (to_size_t 0 <? to_size_t (Z.of_nat (length (@nil Z))
                                          + n_predict params')) = true).
  { apply Z.ltb_lt. unfold params'. cbn [n_predict resolve_params length].
    unfold to_size_t. rewrite !Z.mod_small by lia. lia. }
  rewrite Hc. cbn [negb].
  unfold generate_body. rewrite Hembd, Hi, Hpast, Hvocab. cbn [length].
  change (0 <? Z.of_nat 0) with false. cbn iota. cbn [negb].
  change (Z.of_nat 0 <=? 0) with true. cbn iota.
  change (top_k params') with (top_k params).
  change (top_p params') with (top_p params).
  change (temp params') with (temp params).
  rewrite Hsample.
  destruct (callback_loop' [id] vocab (g_cb st0) _)
    as [[[stop v1] cb1] tr1] eqn:Hcb.
  apply callback_loop_trace in Hcb. destruct Hcb as (cbs & -> & _).
  rewrite Htr.
  destruct stop; [exists cbs; reflexivity|].
  destruct (bool_decide _); [exists cbs; reflexivity|].
  match goal with
  | |- context [generate_loop' ?f ?m ?p ?e ?s] =>
      destruct (generate_loop_trace exp Rng canonical KV forward ggml_used_mem
                  grow_size realloc_ok CB callback f m p e s) as [evs' Hevs']
  end.
  rewrite Hevs'. cbn [incr_i g_trace]. exists (cbs ++ evs').
  reflexivity.
Qed.

(** **** The number of sampled tokens *)

(** **** Termination *)



End DriverMore.

Lemma evaluations_stay_in_context_witness :
  evals_within 2048
    (tail (g_trace (snd (toy_generate 10 2048 "hi there" (toy_params 3 1 8)
                                      (always true))))).
Proof.
  apply (evaluations_stay_in_context
           (fun x => x) unit (fun r => (0.5%float, r)) (fun _ => tt) 0 4
           unit toy_forward (fun n => 1024 * n) (fun x => x) (fun _ => true)
           unit (fun s t => (always true t, s))
           10%nat toy_vocab (toy_model 2048)
           {| buf_size := initial_buf_size; kv := tt |} tt
           "hi there" (toy_params 3 1 8)).
  - simpl. lia.
  - vm_compute. discriminate.
  - simpl. lia.
Defined.

Lemma dense_vocabulary_is_kept_witness :
  g_vocab (snd (toy_generate 10 2048 "hi there" (toy_params 3 1 8)
                             (always true)))
  = toy_vocab.
Proof.
  apply (dense_vocabulary_is_kept
           (fun x => x) unit (fun r => (0.5%float, r)) (fun _ => tt) 0 4
           unit toy_forward (fun n => 1024 * n) (fun x => x) (fun _ => true)
           unit (fun s t => (always true t, s))
           10%nat toy_vocab (toy_model 2048)
           {| buf_size := initial_buf_size; kv := tt |} tt
           "hi there" (toy_params 3 1 8)).
  intros id Hid. change (Z.of_nat (size (id_to_token toy_vocab))) with 3 in Hid.
  assert (Hc : id = 0 \/ id = 1 \/ id = 2) by lia.
  destruct Hc as [-> | [-> | ->]]; eexists; vm_compute; reflexivity.
Defined.

Lemma scratch_buffer_suffices_witness :
  let need := to_size_t (1024 * Z.of_nat (length [0; 1])) in
  1000 <= grow_size_exact need
  /\ need <= grow_size_exact need
  /\ (false = false ->
      1000 < need /\ grow_size_exact need = grow_size_exact need
      /\ false = false
      /\ @nil float = [] /\ 1024 = 1024).
Proof.
  apply (scratch_buffer_suffices unit toy_forward (fun n => 1024 * n)
           grow_size_exact (fun _ => false)
           (toy_model 2048) {| buf_size := 1000; kv := tt |}
           {| buf_size := grow_size_exact (to_size_t (1024 * 2)); kv := tt |}
           1 0 [0; 1] [] [] 1024 1024 false).
  - intros x. unfold grow_size_exact. lia.
  - lia.
  - vm_compute. reflexivity.
Defined.

Lemma empty_prompt_samples_measuring_logits_witness :
  exists evs,
    g_trace (snd (toy_generate 5 2048 "" (toy_params 3 1 8) (always true)))
    = ev_eval 0 [0; 1; 2; 3] true :: ev_sample 0 2 :: evs.
Proof.
  apply (empty_prompt_samples_measuring_logits
           (fun x => x) unit (fun r => (0.5%float, r)) (fun _ => tt) 0 4
           unit toy_forward (fun n => 1024 * n) (fun x => x) (fun _ => true)
           unit (fun s t => (always true t, s))
           4%nat toy_vocab (toy_model 2048)
           {| buf_size := initial_buf_size; kv := tt |} tt
           "" (toy_params 3 1 8) 2 tt).
  - vm_compute. reflexivity.
  - simpl. lia.
  - simpl. lia.
  - vm_compute. reflexivity.
Defined.



(** *** The toy run, for every engine *)

Lemma sampler_id_2 (exp : float -> float) (Rng : Type)
    (canonical : Rng -> float * Rng) (l : list float) (top_p temp : float)
    (rng : Rng) :
  id_2_wins temp l ->
  gpt_sample_top_k_top_p exp Rng canonical toy_vocab
    (drop (Z.to_nat (Z.of_nat (length l) - 3)) l) 1 top_p temp rng
  = Some (2, rng).
Proof.
  intros (Hlen & H02 & H12).
  replace (Z.to_nat (Z.of_nat (length l) - 3)) with 0%nat by lia.
  rewrite drop_0.
  assert (H1 : (1 <= size (id_to_token toy_vocab))%nat) by (vm_compute; lia).
  assert (H2 : (size (id_to_token toy_vocab) <= length l)%nat)
    by (rewrite Hlen; vm_compute; lia).
  rewrite (sampler_top_k_one exp Rng canonical toy_vocab l top_p temp rng H1 H2).
  change (size (id_to_token toy_vocab) - 1)%nat with 2%nat.
  cbn [first_max].
  destruct (scaled_logit l temp 0 <? scaled_logit l temp 1)%float;
    [rewrite H12|rewrite H02]; reflexivity.
Qed.

Lemma toy_forward_last_logits (embd : list Z) :
  embd <> [] ->
  last_logits 3 (length embd)
    (concat (map (fun _ : Z => [0; 0; 1]%float) embd)) = [0; 0; 1]%float.
Proof.
  unfold last_logits. induction embd as [|x embd IH]; intros Hne;
    [now contradiction Hne|].
  destruct embd as [|y embd]; [reflexivity|].
  specialize (IH ltac:(discriminate)).
  replace (Z.to_nat (3 * (Z.of_nat (length (x :: y :: embd)) - 1)))
    with (3 + Z.to_nat (3 * (Z.of_nat (length (y :: embd)) - 1)))%nat
    by (cbn [length]; lia).
  cbn [map concat]. cbn [app]. cbn [drop Nat.add]. exact IH.
Qed.

Section ToyRun.
Variable exp : float -> float.
Variable Rng : Type.
Variable canonical : Rng -> float * Rng.
Variable seed_rng : Z -> Rng.
Variable time_now : Z.
Variable hardware_concurrency : Z.
Variable KV : Type.
Variable forward : gptj_model -> KV -> Z -> Z -> list Z -> KV * list float.
Variable ggml_used_mem : Z -> Z.
Variable grow_size : Z -> Z.
Variable realloc_ok : Z -> bool.
Variable CB : Type.
Variable callback : CB -> string -> bool * CB.

Local Abbreviation gptj_eval' :=
  (gptj_eval KV forward ggml_used_mem grow_size realloc_ok).
Local Abbreviation generate_body' :=
  (generate_body exp Rng canonical KV forward ggml_used_mem grow_size
                 realloc_ok CB callback).
Local Abbreviation generate_loop' :=
  (generate_loop exp Rng canonical KV forward ggml_used_mem grow_size
                 realloc_ok CB callback).
Local Abbreviation generate_init' :=
  (generate_init Rng seed_rng KV forward ggml_used_mem grow_size
                 realloc_ok CB).
Local Abbreviation gptj_generate' :=
  (gptj_generate exp Rng canonical seed_rng time_now hardware_concurrency
                 KV forward ggml_used_mem grow_size realloc_ok CB callback).
Local Abbreviation gen_state' := (gen_state Rng KV CB).
Local Abbreviation callback_loop' := (callback_loop CB callback).

(* Where realloc delivers, gptj_eval succeeds and hands back the logits of
   the last position. *)
Lemma gptj_eval_succeeds (model : gptj_model) (env : eval_env KV)
    (n_threads n_past : Z) (embd_inp : list Z) (embd_w : list float)
    (mem_per_token : Z) :
  (forall size, realloc_ok size = true) ->
  exists env' mem',
    gptj_eval' model env n_threads n_past embd_inp embd_w mem_per_token
    = (true, env',
       last_logits (n_vocab (hparams model)) (length embd_inp)
         (snd (forward model (kv env) n_threads n_past embd_inp)),
       mem').
Proof.
  intros Hrealloc. unfold gptj_eval. rewrite Hrealloc. cbn [negb].
  rewrite andb_false_r.
  destruct (forward model (kv env) n_threads n_past embd_inp) as [kv' inpL].
  do 2 eexists. reflexivity.
Qed.

(* The loop over the one sampled id 2: its text is "<eot>", not the
   end-of-text id of the loop, so on_token is asked. *)
Lemma callback_loop_eot (cb : CB) (trace : list event) :
  callback_loop' [2] toy_vocab cb trace
  = (negb (fst (callback cb "<eot>")), toy_vocab, snd (callback cb "<eot>"),
     trace ++ [ev_callback "<eot>" (fst (callback cb "<eot>"))]).
Proof.
  cbn [callback_loop]. change (2 =? end_of_text) with false. cbn iota.
  change (id_to_token_at toy_vocab 2) with ("<eot>"%string, toy_vocab).
  cbn iota. destruct (callback cb "<eot>") as [[] cb']; reflexivity.
Qed.

Lemma eot_callbacks_app (answer : bool) (evs1 evs2 : list event) :
  eot_callbacks answer evs1 -> eot_callbacks answer evs2 ->
  eot_callbacks answer (evs1 ++ evs2).
Proof. intros H1 H2. apply Forall_app. auto. Qed.

Lemma eot_callbacks_eval (answer : bool) (n_past : Z) (embd : list Z)
    (ok : bool) :
  eot_callbacks answer [ev_eval n_past embd ok].
Proof. repeat constructor. discriminate. Qed.

Lemma count_pass_samples (n_past n_past' id : Z) (embd : list Z) (ok c : bool)
    (t : string) :
  count_samples ([ev_eval n_past embd ok] ++ [ev_sample n_past' id]
                 ++ [ev_callback t c]) = 1%nat.
Proof. reflexivity. Qed.

Lemma count_pass_callbacks (n_past n_past' id : Z) (embd : list Z)
    (ok c : bool) (t : string) :
  count_callbacks ([ev_eval n_past embd ok] ++ [ev_sample n_past' id]
                   ++ [ev_callback t c]) = 1%nat.
Proof. reflexivity. Qed.

(* The batches the prompt [0; 1] is fed in. *)
Lemma toy_fill_batch (i n_batch : Z) :
  0 <= i < 2 ->
  let embd := fill_batch (drop (Z.to_nat i) [0; 1]) [] n_batch in
  embd <> [] /\ i + Z.of_nat (length embd) <= 2
  /\ bool_decide (last embd = Some end_of_text) = false.
Proof.
  intros Hi. cbv zeta. assert (Hc : i = 0 \/ i = 1) by lia.
  destruct Hc as [-> | ->];
    [change (drop (Z.to_nat 0) [0; 1]) with [0; 1]
    |change (drop (Z.to_nat 1) [0; 1]) with [1]];
    cbn [fill_batch app length];
    repeat destruct (_ <? _); cbn [length];
    (split; [discriminate|split; [lia|reflexivity]]).
Qed.

Section Body.
Variable model : gptj_model.
Variable params : gptj_params.
Variable answer : bool.
Hypothesis Hvocab : n_vocab (hparams model) = 3.
Hypothesis Htop_k : top_k params = 1.
Hypothesis Hpredict : 0 <= n_predict params < 2 ^ 62.
Hypothesis Hforward :
  forall kv n_threads n_past embd,
    embd <> [] ->
    id_2_wins (temp params)
      (last_logits 3 (length embd)
         (snd (forward model kv n_threads n_past embd))).
Hypothesis Hrealloc : forall size, realloc_ok size = true.
Hypothesis Hcallback : forall s token, fst (callback s token) = answer.

Lemma toy_run_body (st : gen_state') :
  toy_run_inv answer (2 + n_predict params) st ->
  g_i st < 2 + n_predict params ->
  match generate_body' model params [0; 1] st with
  | inl (r, st') =>
      r = gen_return true /\ toy_run_end answer (n_predict params) st'
  | inr st' => toy_run_inv answer (2 + n_predict params) (incr_i st')
  end.
Proof.
  intros (Hv & Hi & Hproc & Hembd & Hans & evs & Htr & Heot & Hs & Hc) Hlt.
  unfold generate_body.
  destruct (Z.of_nat (length [0; 1]) <=? g_i st) eqn:Hphase.
  - (* a sample *)
    apply Z.leb_le in Hphase. change (Z.of_nat (length [0; 1])) with 2 in Hphase.
    specialize (Hembd ltac:(lia)).
    assert (Hlen : (0 <? Z.of_nat (length (g_embd st))) = true).
    { apply Z.ltb_lt. destruct (g_embd st); [now contradiction Hembd|].
      cbn [length]. lia. }
    rewrite Hlen.
    destruct (gptj_eval_succeeds model (g_env st) (n_threads params)
                (g_n_past st) (g_embd st) (g_logits st) (g_mem_per_token st)
                Hrealloc) as (env' & mem' & ->).
    cbn [negb]. rewrite Hvocab, Hv, Htop_k.
    rewrite sampler_id_2 by (apply Hforward; exact Hembd).
    rewrite callback_loop_eot, Hcallback.
    destruct answer; cbn [negb].
    + change (bool_decide (last [2] = Some end_of_text)) with false.
      cbn iota. unfold toy_run_inv, incr_i.
      cbn [g_vocab g_i g_processing_input g_embd g_trace].
      split; [reflexivity|]. split; [lia|]. split; [lia|].
      split; [discriminate|]. split; [discriminate|].
      eexists. split; [rewrite Htr, <- !app_assoc; reflexivity|].
      split; [|split].
      * apply eot_callbacks_app; [exact Heot|].
        apply eot_callbacks_app; [apply eot_callbacks_eval|].
        repeat constructor; simpl; congruence.
      * rewrite count_samples_app, Hs, count_pass_samples. lia.
      * rewrite count_callbacks_app, Hc, count_pass_callbacks. lia.
    + split; [reflexivity|]. unfold toy_run_end. cbn [g_trace].
      specialize (Hans eq_refl).
      eexists. split; [rewrite Htr, <- !app_assoc; reflexivity|].
      split; [|split].
      * rewrite count_samples_app, Hs, count_pass_samples. lia.
      * rewrite count_callbacks_app, Hc, count_pass_callbacks. lia.
      * apply eot_callbacks_app; [exact Heot|].
        apply eot_callbacks_app; [apply eot_callbacks_eval|].
        repeat constructor; simpl; congruence.
  - (* a batch of the prompt *)
    apply Z.leb_gt in Hphase. change (Z.of_nat (length [0; 1])) with 2 in Hphase.
    rewrite (Hproc Hphase). cbn [negb].
    destruct (toy_fill_batch (g_i st) (n_batch params) ltac:(lia))
      as (Hne & Hfit & Hlast).
    destruct (0 <? Z.of_nat (length (g_embd st)));
      [destruct (gptj_eval_succeeds model (g_env st) (n_threads params)
                   (g_n_past st) (g_embd st) (g_logits st)
                   (g_mem_per_token st) Hrealloc) as (env' & mem' & ->)|];
      cbn [negb]; cbv zeta; cbn iota; rewrite Hlast;
      unfold toy_run_inv, incr_i;
      cbn [g_vocab g_i g_processing_input g_embd g_trace];
      (split; [exact Hv|]); (split; [lia|]);
      (split; [intros _; reflexivity|]);
      (split; [intros _; exact Hne|]); (split; [lia|]).
    + eexists. split; [rewrite Htr; reflexivity|].
      split; [apply eot_callbacks_app; [exact Heot|apply eot_callbacks_eval]|].
      rewrite count_samples_app, count_callbacks_app, Hs, Hc.
      change (count_samples [ev_eval (g_n_past st) (g_embd st) true])
        with 0%nat.
      change (count_callbacks [ev_eval (g_n_past st) (g_embd st) true])
        with 0%nat.
      lia.
    + exists evs. split; [exact Htr|]. split; [exact Heot|]. lia.
Qed.

Lemma toy_run_loop (fuel : nat) :
  forall st : gen_state',
    toy_run_inv answer (2 + n_predict params) st ->
    2 + n_predict params - g_i st <= Z.of_nat fuel ->
    exists st',
      generate_loop' fuel model params [0; 1] st = (gen_return true, st')
      /\ toy_run_end answer (n_predict params) st'.
Proof.
  induction fuel as [|fuel IH]; intros st Hinv Hfuel.
  - assert (Hi : g_i st = 2 + n_predict params)
      by (destruct Hinv as (_ & Hi & _); lia).
    exists st. cbn [generate_loop].
    change (Z.of_nat (length [0; 1])) with 2.
    replace (to_size_t (g_i st) <? to_size_t (2 + n_predict params))
      with false by (symmetry; apply Z.ltb_ge; rewrite Hi; lia).
    split; [reflexivity|].
    destruct Hinv as (_ & _ & _ & _ & Hans & evs & Htr & Heot & Hs & Hc).
    exists evs. split; [exact Htr|]. rewrite Hs, Hc.
    destruct answer; [repeat split; try exact Heot; f_equal; lia|].
    specialize (Hans eq_refl). repeat split; try exact Heot; f_equal; lia.
  - cbn [generate_loop]. change (Z.of_nat (length [0; 1])) with 2.
    pose proof Hinv as (_ & Hi & _ & _ & Hans & evs & Htr & Heot & Hs & Hc).
    unfold to_size_t. rewrite !Z.mod_small by lia.
    destruct (g_i st <? 2 + n_predict params) eqn:Hcond; cbn [negb].
    + apply Z.ltb_lt in Hcond.
      pose proof (toy_run_body st Hinv Hcond) as Hbody.
      destruct (generate_body_samples exp Rng canonical KV forward
                  ggml_used_mem grow_size realloc_ok CB callback
                  model params [0; 1] st ltac:(lia))
        as (_ & _ & _ & _ & Hnext).
      destruct (generate_body' model params [0; 1] st) as [[r st']|st'].
      * destruct Hbody as [-> Hend]. exists st'. auto.
      * apply IH; [exact Hbody|]. destruct Hnext as (Hnext & _).
        unfold incr_i. cbn [g_i].
        unfold incr_i. cbn [g_i]. lia.
    + apply Z.ltb_ge in Hcond. exists st. split; [reflexivity|].
      exists evs. split; [exact Htr|]. rewrite Hs, Hc.
      destruct answer; [repeat split; try exact Heot; f_equal; lia|].
      specialize (Hans eq_refl). repeat split; try exact Heot; f_equal; lia.
Qed.
End Body.

(** C1, amended.  In the toy context (the vocabulary {"hi": 0, "there": 1,
    "<eot>": 2}, a model of three ids, a forward pass that gives id 2 the
    strictly greatest scaled score at the last position of every batch),
    with top_k = 1, the prompt "hi there" (two tokens), and a scratch buffer
    that can be enlarged, the sampled id 2 does not end the run: with an
    on_token that keeps answering true, gptj_generate samples and calls
    on_token min(n_predict, n_ctx - 2) times, each time with "<eot>", and
    returns true; with an on_token that answers false it samples once, calls
    on_token exactly once and returns true (where min(n_predict, n_ctx - 2)
    is 0 it neither samples nor calls).  This holds for every top_p, batch
    size, seed, number of threads and exp. *)
Theorem toy_run_callbacks (model : gptj_model) (env : eval_env KV) (cb : CB)
    (params : gptj_params) (answer : bool) (fuel : nat)
    (Hvocab : n_vocab (hparams model) = 3)
    (Hctx : 2 <= n_ctx (hparams model) < 2 ^ 31)
    (Hpredict : 0 <= n_predict params < 2 ^ 31)
    (Htop_k : top_k params = 1)
    (Hforward :
       forall kv n_threads n_past embd,
         embd <> [] ->
         id_2_wins (temp params)
           (last_logits 3 (length embd)
              (snd (forward model kv n_threads n_past embd))))
    (Hrealloc : forall size, realloc_ok size = true)
    (Hcallback : forall s token, fst (callback s token) = answer)
    (Hfuel : (Z.to_nat (Z.min (n_predict params) (n_ctx (hparams model) - 2))
              + 2 <= fuel)%nat) :
  let n := Z.min (n_predict params) (n_ctx (hparams model) - 2) in
  exists st evs,
    gptj_generate' fuel toy_vocab model env cb "hi there" params
    = (gen_return true, st)
    /\ g_trace st = ev_eval 0 [0; 1; 2; 3] true :: evs
    /\ count_callbacks evs = Z.to_nat (if answer then n else Z.min 1 n)
    /\ count_samples evs = Z.to_nat (if answer then n else Z.min 1 n)
    /\ eot_callbacks answer evs.
Proof.
  intros n. unfold gptj_generate.
  change (gpt_tokenize toy_vocab "hi there") with [0; 1].
  set (params' := resolve_params _ _ _ _ _).
  assert (Hnp : n_predict params' = n) by reflexivity.
  destruct (generate_init_trace Rng seed_rng KV forward ggml_used_mem
              grow_size realloc_ok CB toy_vocab model env cb params')
    as (Htr & Hi & _ & Hembd & Hproc & Hv).
  destruct (toy_run_loop model params' answer Hvocab Htop_k
              ltac:(rewrite Hnp; unfold n; lia) Hforward Hrealloc Hcallback
              fuel (generate_init' toy_vocab model env cb params'))
    as (st' & Hrun & evs & Htr' & Hs & Hc & Heot).
  - unfold toy_run_inv. rewrite Hi, Hembd, Hproc, Hv, Htr, Hnp.
    split; [reflexivity|]. split; [unfold n; lia|]. split; [reflexivity|].
    split; [lia|]. split; [lia|].
    exists []. repeat split. constructor.
  - rewrite Hi, Hnp. unfold n in *. lia.
  - exists st', evs. rewrite Hnp in *. auto.
Qed.
End ToyRun.

Lemma toy_run_callbacks_witness :
  exists st evs,
    toy_generate 202 2048 "hi there" (toy_params 200 1 8) (always true)
    = (gen_return true, st)
    /\ g_trace st = ev_eval 0 [0; 1; 2; 3] true :: evs
    /\ count_callbacks evs = Z.to_nat (Z.min 200 (2048 - 2))
    /\ count_samples evs = Z.to_nat (Z.min 200 (2048 - 2))
    /\ eot_callbacks true evs.
Proof.
  apply (toy_run_callbacks (fun x => x) unit (fun r => (0.5%float, r))
           (fun _ => tt) 0 4 unit toy_forward (fun n => 1024 * n)
           (fun x => x) (fun _ => true) unit (fun s t => (always true t, s))
           (toy_model 2048) {| buf_size := initial_buf_size; kv := tt |} tt
           (toy_params 200 1 8) true 202%nat).
  - reflexivity.
  - simpl. lia.
  - simpl. lia.
  - reflexivity.
  - intros kv n_threads n_past embd Hne. unfold toy_forward. cbn [snd].
    rewrite toy_forward_last_logits by exact Hne.
    repeat split.
  - reflexivity.
  - reflexivity.
  - vm_compute. lia.
Defined.
